(** * Polynomial secret reconstruction: base decoding, exact rationals,
      Vandermonde systems and Gaussian elimination

    A shallow embedding of [index2.js] (the exact solver over BigInt
    fractions) and of [index.js] (the floating-point solver with partial
    pivoting), with the properties of the specification stated over it.

    Conventions of the embedding:
    - a BigInt is a [Z]; BigInt [/] is [Z.quot] and BigInt [%] is [Z.rem]
      (both truncate towards zero);
    - a JavaScript Number used as a matrix entry is a binary64 [float]
      ([PrimFloat]); a Number used as a base is a [number], which keeps
      apart the integral values, the other numeric values and NaN;
    - a string is a [string] of characters with code below 256;
    - a thrown exception is the [Throw] case of [result]; the constructors of
      [error] are named after the message of the [Error] thrown;
    - an array is a [list], read with [!!] and written with [<[i:=x]>];
      reading past the end of an array of fractions and then using the
      value raises a [TypeError]. *)

From Stdlib Require Import ZArith QArith Qcanon Znumtheory Floats String Ascii Lia.
From Equations Require Import Equations.
From stdpp Require Import base option list.

(** ** Exceptions *)

Inductive error : Type :=
| InvalidDigit (ch : ascii)   (* Error("Invalid digit: " + ch) *)
| ZeroDenominator             (* Error("Zero denominator") *)
| SingularMatrix              (* Error("Singular matrix encountered while solving linear system") *)
| InvalidEntry                (* Error(`Invalid entry for key ...`) *)
| UnsupportedBase             (* Error(`Unsupported base ...`) *)
| RangeError                  (* BigInt(x) on a Number that is not an integer; new Array(-1) *)
| TypeError.                  (* a property read on undefined *)

Inductive result (A : Type) : Type :=
| OK (a : A)
| Throw (e : error).
Arguments OK {A} a.
Arguments Throw {A} e.

#[global] Instance result_ret : MRet result := fun A a => OK a.
#[global] Instance result_bind : MBind result := fun A B f m =>
  match m with
  | OK a => f a
  | Throw e => Throw e
  end.

(** An array read whose value is used at once: [undefined.num] and the like
    raise a TypeError. *)
Definition read {A} (l : list A) (i : nat) : result A :=
  match l !! i with
  | Some a => OK a
  | None => Throw TypeError
  end.

(** ** Numbers used as bases *)

Inductive number : Type :=
| JsInt (z : Z)     (* a Number with an integral value *)
| JsNonInt          (* a fraction, Infinity or -Infinity *)
| JsNaN.

(** [BigInt(x)] on a Number. *)
Definition BigInt (x : number) : result Z :=
  match x with
  | JsInt z => OK z
  | JsNonInt | JsNaN => Throw RangeError
  end.

(** ** Base decoder ([index2.js], lines 6-19) *)

Module Decoder.

Definition DIGITS : string := "0123456789abcdefghijklmnopqrstuvwxyz".

(** [String.prototype.toLowerCase] on one character with code below 256:
    A-Z, and the upper-case letters of Latin-1 (all of 192..222 but the
    multiplication sign 215). *)
Definition lower_char (c : ascii) : ascii :=
  let n := N_of_ascii c in
  if ((65 <=? n) && (n <=? 90))%N then ascii_of_N (n + 32)
  else if ((192 <=? n) && (n <=? 222) && negb (n =? 215))%N then ascii_of_N (n + 32)
  else c.

Fixpoint toLowerCase (s : string) : string :=
  match s with
  | EmptyString => EmptyString
  | String c s' => String (lower_char c) (toLowerCase s')
  end.

(** [s.indexOf(ch)] for a one-character [ch]: the first position of [ch] in
    [s], counted from [i], or -1. *)
Fixpoint indexOf_from (s : string) (ch : ascii) (i : Z) : Z :=
  match s with
  | EmptyString => (-1)%Z
  | String c s' => if Ascii.eqb c ch then i else indexOf_from s' ch (i + 1)%Z
  end.

Definition indexOf (s : string) (ch : ascii) : Z := indexOf_from s ch 0.

(** The body of [for (const ch of s)]; [acc] is the variable [result]. *)
Fixpoint parse_loop (s : string) (B : Z) (acc : Z) : result Z :=
  match s with
  | EmptyString => OK acc
  | String ch s' =>
      let v := indexOf DIGITS ch in
      if (v <? 0)%Z then Throw (InvalidDigit ch)
      else parse_loop s' B (acc * B + v)%Z
  end.

Definition parseInBase (s : string) (base : number) : result Z :=
  let s := toLowerCase s in
  B ← BigInt base;
  parse_loop s B 0%Z.

End Decoder.
Export Decoder.

(** The guard on [entry.base] in [parseInput] ([index.js], lines 22-29),
    for an [entry.base] that is a Number: a falsy base (0, NaN) is an
    invalid entry, and a base that is not an integer of [2, 36] is
    unsupported. *)
Definition parseInput_base (base : number) : result Z :=
  match base with
  | JsNaN => Throw InvalidEntry
  | JsNonInt => Throw UnsupportedBase
  | JsInt z =>
      if (z =? 0)%Z then Throw InvalidEntry
      else if ((z <? 2) || (36 <? z))%Z then Throw UnsupportedBase
      else OK z
  end.

(** ** Rational numbers ([index2.js], lines 21-55) *)

Module Rational.

(** The object [{ num, den }]. *)
Record frac : Type := Frac { num : Z; den : Z }.

(** [gcd]: the loop [while (b !== 0n) { t = a % b; a = b; b = t }] followed
    by [return a < 0n ? -a : a].  The loop ends because [|a % b| < |b|]. *)
Equations? gcd (a b : Z) : Z by wf (Z.abs_nat b) lt :=
  gcd a b with Z.eq_dec b 0%Z => {
    | left _ := if (a <? 0)%Z then (- a)%Z else a;
    | right _ := gcd b (Z.rem a b) }.
Proof.
  pose proof (Z.rem_bound_abs a b n). lia.
Qed.

(** [makeFrac(num, den)].  The BigInt divisions by [g] raise a RangeError
    when [g] is 0, which the test on [den] excludes. *)
Definition makeFrac (num den : Z) : result frac :=
  if (den =? 0)%Z then Throw ZeroDenominator
  else
    let g := gcd num den in
    if (g =? 0)%Z then Throw RangeError
    else
      let num := Z.quot num g in
      let den := Z.quot den g in
      if (den <? 0)%Z then OK (Frac (- num) (- den))
      else OK (Frac num den).

Definition add (a b : frac) : result frac :=
  makeFrac (num a * den b + num b * den a) (den a * den b).
Definition sub (a b : frac) : result frac :=
  makeFrac (num a * den b - num b * den a) (den a * den b).
Definition mul (a b : frac) : result frac :=
  makeFrac (num a * num b) (den a * den b).
Definition div (a b : frac) : result frac :=
  makeFrac (num a * den b) (den a * num b).

(** The invariant of the data model: positive denominator, lowest terms. *)
Definition canonical (f : frac) : Prop :=
  (0 < den f)%Z /\ Z.gcd (Z.abs (num f)) (den f) = 1%Z.

End Rational.
Export Rational.

(** ** Exact solver ([index2.js], lines 57-101)

    The matrix is a list of rows and each row a list of fractions: the rows
    are distinct arrays, as [main] builds them.  The arrays are updated in
    place; the embedding threads them through the loops, and
    [solve_arrays] gives their contents when [solve] is done with them.
    A loop [for (let i = a; i < n; i++)] is a recursion on the number
    [cnt = n - i] of iterations left.  A read past the end of an array
    raises the TypeError at once, where the code raises it when the
    missing element is first used: the two agree on an [n] x [n] matrix
    with a right-hand side of length [n], where every read is in range and
    which is what the properties below are about. *)

Module Exact.

Definition get (matrix : list (list frac)) (r c : nat) : result frac :=
  row ← read matrix r; read row c.

(** [matrix[r][c] = v], always after [matrix[r][c]] was read. *)
Definition set (matrix : list (list frac)) (r c : nat) (v : frac) : list (list frac) :=
  alter (fun row => <[c:=v]> row) r matrix.

(** [[l[i], l[j]] = [l[j], l[i]]]. *)
Definition swap {A} (l : list A) (i j : nat) : result (list A) :=
  a ← read l i;
  b ← read l j;
  OK (<[j:=a]> (<[i:=b]> l)).

(** Lines 64-69: the first row from [col] on with a non-zero entry in
    column [col]; [col] itself when there is none. *)
Fixpoint find_pivot (matrix : list (list frac)) (col r cnt : nat) : result nat :=
  match cnt with
  | O => OK col
  | S cnt' =>
      e ← get matrix r col;
      if (num e =? 0)%Z then find_pivot matrix col (S r) cnt' else OK r
  end.

(** Lines 83-85: [matrix[r][c] = sub(matrix[r][c], mul(factor, matrix[col][c]))]. *)
Fixpoint elim_cols (matrix : list (list frac)) (factor : frac) (r col c cnt : nat)
  : result (list (list frac)) :=
  match cnt with
  | O => OK matrix
  | S cnt' =>
      a ← get matrix r c;
      p ← get matrix col c;
      t ← mul factor p;
      v ← sub a t;
      elim_cols (set matrix r c v) factor r col (S c) cnt'
  end.

(** Lines 78-87. *)
Fixpoint elim_rows (n : nat) (matrix : list (list frac)) (rhs : list frac) (col r cnt : nat)
  : result (list (list frac) * list frac) :=
  match cnt with
  | O => OK (matrix, rhs)
  | S cnt' =>
      e ← get matrix r col;
      if (num e =? 0)%Z then elim_rows n matrix rhs col (S r) cnt'
      else
        piv ← get matrix col col;
        factor ← div e piv;
        matrix' ← elim_cols matrix factor r col col (n - col);
        br ← read rhs r;
        bc ← read rhs col;
        t ← mul factor bc;
        v ← sub br t;
        elim_rows n matrix' (<[r:=v]> rhs) col (S r) cnt'
  end.

(** Lines 62-88: one pass of the loop on [col], then the rest. *)
Definition forward_step (n : nat) (matrix : list (list frac)) (rhs : list frac) (col : nat)
  : result (list (list frac) * list frac) :=
  pivot ← find_pivot matrix col col (n - col);
  st ← (if Nat.eqb pivot col then OK (matrix, rhs)
        else m ← swap matrix col pivot; b ← swap rhs col pivot; OK (m, b));
  elim_rows n st.1 st.2 col (S col) (n - S col).

Fixpoint forward (n : nat) (matrix : list (list frac)) (rhs : list frac) (col cnt : nat)
  : result (list (list frac) * list frac) :=
  match cnt with
  | O => OK (matrix, rhs)
  | S cnt' =>
      st ← forward_step n matrix rhs col;
      forward n st.1 st.2 (S col) cnt'
  end.

(** Lines 93-96: [sum = add(sum, mul(matrix[i][j], x[j]))]. *)
Fixpoint back_sum (matrix : list (list frac)) (x : list frac) (i j cnt : nat) (sum : frac)
  : result frac :=
  match cnt with
  | O => OK sum
  | S cnt' =>
      mij ← get matrix i j;
      xj ← read x j;
      t ← mul mij xj;
      sum' ← add sum t;
      back_sum matrix x i (S j) cnt' sum'
  end.

(** Lines 92-98: the loop [for (let i = n - 1; i >= 0; i--)], with [cnt = i + 1]. *)
Fixpoint back_loop (n : nat) (matrix : list (list frac)) (rhs : list frac)
    (cnt : nat) (x : list frac) : result (list frac) :=
  match cnt with
  | O => OK x
  | S i =>
      sum0 ← makeFrac 0 1;
      sum ← back_sum matrix x i (S i) (n - S i) sum0;
      bi ← read rhs i;
      d ← sub bi sum;
      mii ← get matrix i i;
      xi ← div d mii;
      back_loop n matrix rhs i (<[i:=xi]> x)
  end.

(** The arrays [matrix] and [rhs] after forward elimination, which is how
    [solve] leaves them. *)
Definition solve_arrays (matrix : list (list frac)) (rhs : list frac)
  : result (list (list frac) * list frac) :=
  forward (length matrix) matrix rhs 0 (length matrix).

Definition solve (matrix : list (list frac)) (rhs : list frac) : result (list frac) :=
  let n := length matrix in
  st ← forward n matrix rhs 0 n;
  zero ← makeFrac 0 1;
  back_loop n st.1 st.2 n (replicate n zero).

(** *** [main] ([index2.js], lines 103-139) *)

(** [data[i]]: the entry under key [i] of the input document. *)
Record entry : Type := Entry { base : number; value : string }.

Record point : Type := Point { pt_x : Z; pt_y : Z }.

(** Lines 109-115.  [data] lists the entries under the keys 1, 2, ... *)
Fixpoint main_points (data : list entry) (i cnt : nat) (points : list point)
  : result (list point) :=
  match cnt with
  | O => OK points
  | S cnt' =>
      e ← read data (i - 1);
      y ← parseInBase (value e) (base e);
      main_points data (S i) cnt' (points ++ [Point (Z.of_nat i) y])
  end.

(** Lines 124-128. *)
Fixpoint build_row (xi : Z) (row : list frac) (j cnt : nat) (xpow : Z) : result (list frac) :=
  match cnt with
  | O => OK row
  | S cnt' =>
      f ← makeFrac xpow 1;
      build_row xi (<[j:=f]> row) (S j) cnt' (xpow * xi)%Z
  end.

(** Lines 123-130. *)
Fixpoint build_rows (points : list point) (k : nat) (A : list (list frac)) (b : list frac)
    (i cnt : nat) : result (list (list frac) * list frac) :=
  match cnt with
  | O => OK (A, b)
  | S cnt' =>
      p ← read points i;
      row0 ← read A i;
      row ← build_row (pt_x p) row0 0 k 1%Z;
      fy ← makeFrac (pt_y p) 1;
      build_rows points k (<[i:=row]> A) (<[i:=fy]> b) (S i) cnt'
  end.

(** Lines 117-130: the Vandermonde system of the points. *)
Definition main_build (points : list point) (k : nat)
  : result (list (list frac) * list frac) :=
  zero ← makeFrac 0 1;
  build_rows points k (replicate k (replicate k zero)) (replicate k zero) 0 k.

(** Lines 104-133: the coefficient vector [coeff]. *)
Definition main_coeff (data : list entry) (k : nat) : result (list frac) :=
  points ← main_points data 1 k [];
  st ← main_build points k;
  solve st.1 st.2.

(** The value printed by [main]: [C.num / C.den]. *)
Definition main (data : list entry) (k : nat) : result Z :=
  coeff ← main_coeff data k;
  C ← read coeff 0;
  if (den C =? 0)%Z then Throw RangeError else OK (Z.quot (num C) (den C)).

End Exact.
Export Exact.

(** ** Approximate solver ([index.js], lines 48-109)

    [solveLinearSystem] copies its arguments and works on the copies, so
    the arrays live in a store: a location is an index in the store, an
    allocation appends to it, and a computation is a function of the store
    that returns its outcome with the store it leaves.  An array of
    Numbers holds [float]s; a missing element ([undefined]) only ever
    reaches arithmetic, where it counts as NaN, and is kept as [nan]. *)

Module Approx.

Abbreviation loc := nat.

Inductive obj : Type :=
| Nums (v : list float)    (* an array of Numbers *)
| Refs (v : list loc).     (* an array of arrays *)

Abbreviation heap := (list obj).

Record io (A : Type) : Type := Io { run : heap -> result A * heap }.
Arguments Io {A} run.
Arguments run {A} i h.

#[global] Instance io_ret : MRet io := fun A a => Io (fun h => (OK a, h)).
#[global] Instance io_bind : MBind io := fun A B f m =>
  Io (fun h => match run m h with
               | (OK a, h') => run (f a) h'
               | (Throw e, h') => (Throw e, h')
               end).

Definition throw {A} (e : error) : io A := Io (fun h => (Throw e, h)).

Definition alloc (o : obj) : io loc := Io (fun h => (OK (length h), h ++ [o])).

Definition get_nums (l : loc) : io (list float) :=
  Io (fun h => match h !! l with
               | Some (Nums v) => (OK v, h)
               | _ => (Throw TypeError, h)
               end).

Definition get_refs (l : loc) : io (list loc) :=
  Io (fun h => match h !! l with
               | Some (Refs v) => (OK v, h)
               | _ => (Throw TypeError, h)
               end).

Definition put (l : loc) (o : obj) : io unit := Io (fun h => (OK tt, <[l:=o]> h)).

(** [a[i] = x] on a list: in place within the array, and past its end the
    array grows, the elements in between missing. *)
Definition write (v : list float) (i : nat) (x : float) : list float :=
  if Nat.ltb i (length v) then <[i:=x]> v
  else v ++ replicate (i - length v) nan ++ [x].

(** [a[i]] used as a Number. *)
Definition load_num (a : loc) (i : nat) : io float :=
  v ← get_nums a; mret (default nan (v !! i)).

Definition store_num (a : loc) (i : nat) (x : float) : io unit :=
  v ← get_nums a; put a (Nums (write v i x)).

(** [a[i]] used as an array. *)
Definition load_ref (a : loc) (i : nat) : io loc :=
  v ← get_refs a;
  match v !! i with
  | Some r => mret r
  | None => throw TypeError
  end.

Definition store_ref (a : loc) (i : nat) (r : loc) : io unit :=
  v ← get_refs a; put a (Refs (<[i:=r]> v)).

(** *** [buildSystem] (lines 48-62): a pure construction of fresh arrays *)

Record point : Type := Point { pt_x : float; pt_y : float }.

(** Lines 55-58: [A[i][j] = pow; pow *= xi]. *)
Fixpoint buildSystem_row (xi : float) (row : list float) (j cnt : nat) (pow : float)
  : list float :=
  match cnt with
  | O => row
  | S cnt' => buildSystem_row xi (<[j:=pow]> row) (S j) cnt' (pow * xi)%float
  end.

(** Lines 52-60. *)
Fixpoint buildSystem_rows (points : list point) (k : nat) (A : list (list float))
    (b : list float) (i cnt : nat) : result (list (list float) * list float) :=
  match cnt with
  | O => OK (A, b)
  | S cnt' =>
      p ← read points i;
      row0 ← read A i;
      let row := buildSystem_row (pt_x p) row0 0 k 1%float in
      buildSystem_rows points k (<[i:=row]> A) (<[i:=pt_y p]> b) (S i) cnt'
  end.

Definition buildSystem (points : list point) (degree : Z)
  : result (list (list float) * list float) :=
  let k := (degree + 1)%Z in
  if (k <? 0)%Z then Throw RangeError
  else
    let k := Z.to_nat k in
    buildSystem_rows points k (replicate k (replicate k 0%float)) (replicate k 0%float) 0 k.

(** *** [solveLinearSystem] (lines 65-109) *)

(** Line 68: [A.map(row => row.slice())], row by row. *)
Fixpoint copy_rows (rows : list loc) : io (list loc) :=
  match rows with
  | [] => mret []
  | r :: rows' =>
      v ← get_nums r;
      r' ← alloc (Nums v);
      rs ← copy_rows rows';
      mret (r' :: rs)
  end.

(** Lines 75-81. *)
Fixpoint max_row (M : loc) (k r cnt : nat) (maxRow : nat) (maxVal : float)
  : io (nat * float) :=
  match cnt with
  | O => mret (maxRow, maxVal)
  | S cnt' =>
      row ← load_ref M r;
      e ← load_num row k;
      let val := PrimFloat.abs e in
      if PrimFloat.ltb maxVal val then max_row M k (S r) cnt' r val
      else max_row M k (S r) cnt' maxRow maxVal
  end.

(** Lines 94-96: [M[i][j] -= factor * M[k][j]]. *)
Fixpoint elim_cols (M : loc) (factor : float) (i k j cnt : nat) : io unit :=
  match cnt with
  | O => mret tt
  | S cnt' =>
      ri ← load_ref M i;
      a ← load_num ri j;
      rk ← load_ref M k;
      p ← load_num rk j;
      store_num ri j (a - factor * p)%float;;
      elim_cols M factor i k (S j) cnt'
  end.

(** Lines 92-98. *)
Fixpoint elim_rows (n : nat) (M y : loc) (k i cnt : nat) : io unit :=
  match cnt with
  | O => mret tt
  | S cnt' =>
      ri ← load_ref M i;
      a ← load_num ri k;
      rk ← load_ref M k;
      p ← load_num rk k;
      let factor := (a / p)%float in
      elim_cols M factor i k k (n - k);;
      yi ← load_num y i;
      yk ← load_num y k;
      store_num y i (yi - factor * yk)%float;;
      elim_rows n M y k (S i) cnt'
  end.

(** Lines 71-99: one pass of the loop on [k]. *)
Definition forward_step (n : nat) (M y : loc) (k : nat) : io unit :=
  rk ← load_ref M k;
  e ← load_num rk k;
  mv ← max_row M k (S k) (n - S k) k (PrimFloat.abs e);
  let maxRow := mv.1 in
  let maxVal := mv.2 in
  (if PrimFloat.eqb maxVal 0 then throw SingularMatrix else mret tt);;
  (if Nat.eqb maxRow k then mret tt
   else
     rm ← load_ref M maxRow;
     rk ← load_ref M k;
     store_ref M k rm;;
     store_ref M maxRow rk;;
     ym ← load_num y maxRow;
     yk ← load_num y k;
     store_num y k ym;;
     store_num y maxRow yk);;
  elim_rows n M y k (S k) (n - S k).

Fixpoint forward (n : nat) (M y : loc) (k cnt : nat) : io unit :=
  match cnt with
  | O => mret tt
  | S cnt' => forward_step n M y k;; forward n M y (S k) cnt'
  end.

(** Line 105: [sum += M[i][j] * x[j]]. *)
Fixpoint back_sum (M x : loc) (i j cnt : nat) (sum : float) : io float :=
  match cnt with
  | O => mret sum
  | S cnt' =>
      ri ← load_ref M i;
      a ← load_num ri j;
      xj ← load_num x j;
      back_sum M x i (S j) cnt' (sum + a * xj)%float
  end.

(** Lines 103-107, with [cnt = i + 1]. *)
Fixpoint back_loop (n : nat) (M y x : loc) (cnt : nat) : io unit :=
  match cnt with
  | O => mret tt
  | S i =>
      sum ← back_sum M x i (S i) (n - S i) 0%float;
      yi ← load_num y i;
      ri ← load_ref M i;
      d ← load_num ri i;
      store_num x i ((yi - sum) / d)%float;;
      back_loop n M y x i
  end.

(** [solveLinearSystem(A, b)]; the result is the location of [x]. *)
Definition solveLinearSystem (A b : loc) : io loc :=
  rowsA ← get_refs A;
  let n := length rowsA in
  rows ← copy_rows rowsA;
  M ← alloc (Refs rows);
  vb ← get_nums b;
  y ← alloc (Nums vb);
  forward n M y 0 n;;
  x ← alloc (Nums (replicate n 0%float));
  back_loop n M y x n;;
  mret x.

(** A store that holds the matrix [A] and the vector [b] and nothing else:
    the rows at locations [0 .. length A - 1], then the array of rows, then
    [b]. *)
Definition store_of (A : list (list float)) (b : list float) : heap :=
  map Nums A ++ [Refs (seq 0 (length A)); Nums b].

(** [solveLinearSystem] applied to the arrays of [store_of A b], with the
    contents of the array it returns. *)
Definition solveLinearSystem_on (A : list (list float)) (b : list float)
  : result (list float) :=
  let h := store_of A b in
  match run (solveLinearSystem (length A) (S (length A))) h with
  | (OK x, h') => match h' !! x with
                  | Some (Nums v) => OK v
                  | _ => Throw TypeError
                  end
  | (Throw e, _) => Throw e
  end.

End Approx.

(** ** [main] of index.js (lines 111-148)

    [main] as a function of what [parseInput] returns: the points, sorted
    by [x], and the Number [k], here an integer.  The result is the value
    that [console.log(C)] prints, [None] for [undefined]; a [Throw] is an
    exception caught by [main], which reports it and exits with status 1.
    The loop of lines 126-137 only assigns the local variables [ok] and
    [val], which nothing reads afterwards: it reads [coeffs] and the points
    from [k] on, writes to no array and cannot raise, and so has no part
    in the value printed. *)

Module Index.

(** [l.slice(0, e)]: a negative [e] counts from the end. *)
Definition slice_to {A} (l : list A) (e : Z) : list A :=
  if (e <? 0)%Z then take (length l - Z.to_nat (- e)) l
  else take (Z.to_nat e) l.

Definition main (points : list Approx.point) (k : Z) : result (option float) :=
  let degree := (k - 1)%Z in
  let samplePoints := slice_to points k in
  st ← Approx.buildSystem samplePoints degree;
  coeffs ← Approx.solveLinearSystem_on st.1 st.2;
  OK (coeffs !! 0).

End Index.

(** * Notions used to state the properties *)

(** ** Digit strings

    The encoding the round trip starts from: the numeral of an integer in a
    base, most significant digit first, lower-case digits, a minus sign in
    front of a negative number (as [BigInt.prototype.toString] writes
    it). *)

Definition digit_char (d : Z) : ascii :=
  default "0"%char (String.get (Z.to_nat d) DIGITS).

Equations? digits_of (b n : Z) (acc : string) : string by wf (Z.to_nat n) lt :=
  digits_of b n acc with Z_lt_dec 0 n, Z_lt_dec 1 b => {
    | left _, left _ := digits_of b (n / b) (String (digit_char (n mod b)) acc);
    | _, _ := acc }.
Proof.
  assert (n / b < n)%Z by (apply Z.div_lt; lia).
  assert (0 <= n / b)%Z by (apply Z.div_pos; lia).
  lia.
Qed.

Definition encode (b n : Z) : string :=
  if (n =? 0)%Z then "0"%string
  else if (n <? 0)%Z then String "-"%char (digits_of b (- n) EmptyString)
  else digits_of b n EmptyString.

(** A numeral of the base [b]: every character, once lower-cased, is a
    digit of value below [b]. *)
Fixpoint digits_below (b : Z) (s : string) : bool :=
  match s with
  | EmptyString => true
  | String c s' =>
      let v := indexOf DIGITS (lower_char c) in
      (0 <=? v)%Z && (v <? b)%Z && digits_below b s'
  end.

(** ** The value of a fraction

    [qval f] is the rational number a fraction with a positive denominator
    stands for, in the field [Qc] of the Standard Library. *)

Definition qof (f : frac) : Q := Qmake (num f) (Z.to_pos (den f)).
Definition qval (f : frac) : Qc := Q2Qc (qof f).

(** An integer as a rational number. *)
Definition zq (z : Z) : Qc := Q2Qc (inject_Z z).

(** ** Linear systems over the rationals

    The contents of the arrays of the exact solver, read as functions of
    the indices; an element that is not there reads as zero. *)

Definition zero_frac : frac := Frac 0 1.

Definition ent (m : list (list frac)) (r c : nat) : frac :=
  match m !! r with
  | Some row => default zero_frac (row !! c)
  | None => zero_frac
  end.

Definition vent (v : list frac) (i : nat) : frac := default zero_frac (v !! i).

Definition mval (m : list (list frac)) (r c : nat) : Qc := qval (ent m r c).
Definition vval (v : list frac) (i : nat) : Qc := qval (vent v i).

(** An [n] x [n] matrix, and a vector of length [n], of canonical fractions. *)
Definition wf_matrix (n : nat) (m : list (list frac)) : Prop :=
  length m = n /\ Forall (fun row => length row = n /\ Forall canonical row) m.

Definition wf_vector (n : nat) (v : list frac) : Prop :=
  length v = n /\ Forall canonical v.

(** [sum_from a cnt f] is [f a + f (a+1) + ... + f (a+cnt-1)]. *)
Fixpoint sum_from (a cnt : nat) (f : nat -> Qc) : Qc :=
  match cnt with
  | O => 0%Qc
  | S cnt' => (f a + sum_from (S a) cnt' f)%Qc
  end.

(** [v] solves the system [U v = b]. *)
Definition sat (n : nat) (U : nat -> nat -> Qc) (b v : nat -> Qc) : Prop :=
  forall r, r < n -> sum_from 0 n (fun j => (U r j * v j)%Qc) = b r.

(** The rows of [U] are linearly dependent. *)
Definition left_kernel (n : nat) (U : nat -> nat -> Qc) : Prop :=
  exists u : nat -> Qc,
    (exists r, r < n /\ u r <> 0%Qc)
    /\ forall c, c < n -> sum_from 0 n (fun r => (u r * U r c)%Qc) = 0%Qc.

(** What elimination keeps: the solutions of the system, the vectors the
    matrix sends to zero, and a linear dependency between the rows when
    there is one. *)
Definition refines (n : nat) (U : nat -> nat -> Qc) (b : nat -> Qc)
    (U' : nat -> nat -> Qc) (b' : nat -> Qc) : Prop :=
  (forall v, sat n U b v <-> sat n U' b' v)
  /\ (forall w, sat n U (fun _ => 0%Qc) w <-> sat n U' (fun _ => 0%Qc) w)
  /\ (left_kernel n U -> left_kernel n U').

(** The entries below the diagonal in the columns before [col] are zero. *)
Definition lower_zero (n col : nat) (U : nat -> nat -> Qc) : Prop :=
  forall r c, c < col -> c < r -> r < n -> U r c = 0%Qc.

(** Two rows of the matrix hold the same entries. *)
Definition two_equal_rows (n : nat) (m : list (list frac)) : Prop :=
  exists i j row, i < j /\ j < n /\ m !! i = Some row /\ m !! j = Some row.

(** ** Polynomials with integer coefficients, lowest degree first *)

Fixpoint Zpeval (p : list Z) (x : Z) : Z :=
  match p with
  | [] => 0%Z
  | a :: p' => (a + x * Zpeval p' x)%Z
  end.

Fixpoint peval (p : list Qc) (x : Qc) : Qc :=
  match p with
  | [] => 0%Qc
  | a :: p' => (a + x * peval p' x)%Qc
  end.

(** The quotient of [p] by [X - r] (synthetic division). *)
Fixpoint pquot (r : Qc) (p : list Qc) : list Qc :=
  match p with
  | [] => []
  | _ :: p' => match p' with
               | [] => []
               | _ :: _ => peval p' r :: pquot r p'
               end
  end.

(** ** Elementary row operations

    [row_sub]: row [r] becomes row [r] minus [f] times row [col];
    [row_swap]: rows [i] and [j] are exchanged. *)

Definition transp (i j t : nat) : nat :=
  if Nat.eqb t i then j else if Nat.eqb t j then i else t.

Definition row_sub (n r col : nat) (f : Qc)
    (U : nat -> nat -> Qc) (b : nat -> Qc) (U' : nat -> nat -> Qc) (b' : nat -> Qc) : Prop :=
  r <> col /\ r < n /\ col < n
  /\ (forall c, c < n -> U' r c = (U r c - f * U col c)%Qc)
  /\ b' r = (b r - f * b col)%Qc
  /\ (forall r', r' < n -> r' <> r -> (forall c, c < n -> U' r' c = U r' c) /\ b' r' = b r').

Definition row_swap (n i j : nat)
    (U : nat -> nat -> Qc) (b : nat -> Qc) (U' : nat -> nat -> Qc) (b' : nat -> Qc) : Prop :=
  i < n /\ j < n
  /\ forall r, r < n ->
       (forall c, c < n -> U' r c = U (transp i j r) c) /\ b' r = b (transp i j r).

(** Only the zero vector vanishes before [c] and satisfies the equations of
    the rows from [c] on. *)
Definition tail_trivial (n : nat) (U : nat -> nat -> Qc) (c : nat) : Prop :=
  forall w : nat -> Qc,
    (forall j, j < c -> w j = 0%Qc) ->
    (forall r, c <= r < n -> sum_from 0 n (fun j => (U r j * w j)%Qc) = 0%Qc) ->
    forall j, j < n -> w j = 0%Qc.

(** Only the zero vector is sent to zero by the matrix. *)
Definition kernel_trivial (n : nat) (U : nat -> nat -> Qc) : Prop :=
  forall w : nat -> Qc, sat n U (fun _ => 0%Qc) w -> forall j, j < n -> w j = 0%Qc.

(** ** The Vandermonde system of a list of points *)

(** [x] to the power [j] by repeated multiplication of Numbers. *)
Fixpoint fpow (x : float) (j : nat) : float :=
  match j with
  | O => 1%float
  | S j' => (fpow x j' * x)%float
  end.

(** The row [1, x, x^2, ..., x^(k-1)] as fractions, and as Numbers. *)
Definition vander_row (k : nat) (x : Z) : list frac :=
  (fun j => Frac (x ^ Z.of_nat j) 1) <$> seq 0 k.

Definition vander_row_float (k : nat) (x : float) : list float :=
  fpow x <$> seq 0 k.

(** The sample points [(i, P(i))] for [i = 1 .. k] of the polynomial with
    the coefficients [coeffs], each value written in the base [bases i]. *)
Definition shares (coeffs : list Z) (bases : nat -> Z) (k : nat) : list entry :=
  (fun i => Entry (JsInt (bases i)) (encode (bases i) (Zpeval coeffs (Z.of_nat i))))
    <$> seq 1 k.

(** The system of the shares of a polynomial: the points [(i, P(i))], their
    Vandermonde matrix and right-hand side, and the coefficients as
    rationals. *)
Definition share_value (coeffs : list Z) (t : nat) : Z := Zpeval coeffs (Z.of_nat t).

Definition share_points (coeffs : list Z) : list Exact.point :=
  (fun t => Exact.Point (Z.of_nat t) (share_value coeffs t)) <$> seq 1 (length coeffs).

Definition share_matrix (coeffs : list Z) : list (list frac) :=
  (fun p => vander_row (length coeffs) (Exact.pt_x p)) <$> share_points coeffs.

Definition share_rhs (coeffs : list Z) : list frac :=
  (fun p => Frac (Exact.pt_y p) 1) <$> share_points coeffs.

Definition coeff_value (coeffs : list Z) (j : nat) : Qc := zq (default 0%Z (coeffs !! j)).

(** The matrix of the nodes 1, 2, ..., n: row [r] holds the powers of [r + 1]. *)
Definition nodes_matrix (r c : nat) : Qc := (zq (Z.of_nat (S r)) ^ c)%Qc.

(** ** The shares read by [main]

    [decoded data ys]: the entries of [data] under the keys 1, 2, ...,
    [length ys] decode to the values [ys]; [points_of ys] are the points
    [(1, y1), (2, y2), ...] that [main] makes of them. *)
Definition decoded (data : list entry) (ys : list Z) : Prop :=
  forall t y, ys !! t = Some y ->
    exists e, data !! t = Some e /\ parseInBase (value e) (base e) = OK y.

Definition points_of (ys : list Z) : list Exact.point :=
  imap (fun t y => Exact.Point (Z.of_nat (S t)) y) ys.

(** ** Reasoning on the store

    [hoare P m Q E]: from a store that satisfies [P], the computation [m]
    either returns [a] in a store that satisfies [Q a], or raises in a
    store that satisfies [E]. *)

Definition hoare {A} (P : Approx.heap -> Prop) (m : Approx.io A)
    (Q : A -> Approx.heap -> Prop) (E : Approx.heap -> Prop) : Prop :=
  forall h, P h ->
    match Approx.run m h with
    | (OK a, h') => Q a h'
    | (Throw _, h') => E h'
    end.

(** The store [h] holds at every location of [h0] what [h0] holds there. *)
Definition frame (h0 h : Approx.heap) : Prop :=
  forall l, l < length h0 -> h !! l = h0 !! l.

(** The array at [M] was allocated after [h0], and so were the rows it
    holds. *)
Definition private (h0 : Approx.heap) (M : Approx.loc) (h : Approx.heap) : Prop :=
  length h0 <= M
  /\ exists rows, h !! M = Some (Approx.Refs rows)
                  /\ Forall (fun r => length h0 <= r /\ r <> M) rows.

(** What the loops of [solveLinearSystem] keep: the store of the caller,
    and the privacy of [M]; [keeps h0 M m] says that [m] keeps it, whether
    it returns or raises. *)
Definition store_inv (h0 : Approx.heap) (M : Approx.loc) (h : Approx.heap) : Prop :=
  frame h0 h /\ private h0 M h.

Definition keeps {A} (h0 : Approx.heap) (M : Approx.loc) (m : Approx.io A) : Prop :=
  hoare (store_inv h0 M) m (fun _ h => store_inv h0 M h) (frame h0).

(** The matrix and the vector that the store holds at [A] and at [b]. *)
Definition row_at (h : Approx.heap) (r : Approx.loc) : option (list float) :=
  match h !! r with
  | Some (Approx.Nums v) => Some v
  | _ => None
  end.

Definition matrix_at (h : Approx.heap) (A : Approx.loc) : option (list (list float)) :=
  match h !! A with
  | Some (Approx.Refs rows) => mapM (row_at h) rows
  | _ => None
  end.

(** The arrays of the elimination are in place: [M] is an array of [n]
    rows, each an array of Numbers, and [y] is an array of Numbers. *)
Definition shape (n : nat) (M y : Approx.loc) (h : Approx.heap) : Prop :=
  (exists rows, h !! M = Some (Approx.Refs rows) /\ length rows = n
                /\ Forall (fun r => is_Some (row_at h r)) rows)
  /\ is_Some (row_at h y).

(** A Number that is [0] or [-0]. *)
Definition is_zero (x : float) : Prop := PrimFloat.eqb x 0 = true.

(** ** Tactics *)

(** Goals [Forall P [x1; ...; xn]] and the length of a literal list. *)
Ltac forall_list :=
  repeat first [apply Forall_nil_2 | apply Forall_cons_2 | split; [reflexivity|]].


(** * Properties *)

(** ** Base decoder *)

Section DecoderFacts.
Local Open Scope Z_scope.

Lemma digit_char_index (d : Z) :
  0 <= d < 36 -> indexOf DIGITS (digit_char d) = d.
Proof.
  intros Hd.
  assert (Hcases : In d (map Z.of_nat (seq 0 36))).
  { apply in_map_iff. exists (Z.to_nat d). split; [lia|]. apply in_seq. lia. }
  cbn in Hcases.
  repeat (destruct Hcases as [<- | Hcases]; [reflexivity|]).
  destruct Hcases.
Qed.

Lemma digit_char_lower (d : Z) :
  0 <= d < 36 -> lower_char (digit_char d) = digit_char d.
Proof.
  intros Hd.
  assert (Hcases : In d (map Z.of_nat (seq 0 36))).
  { apply in_map_iff. exists (Z.to_nat d). split; [lia|]. apply in_seq. lia. }
  cbn in Hcases.
  repeat (destruct Hcases as [<- | Hcases]; [reflexivity|]).
  destruct Hcases.
Qed.

Lemma digits_of_lower (b n : Z) (acc : string) :
  b <= 36 -> toLowerCase acc = acc ->
  toLowerCase (digits_of b n acc) = digits_of b n acc.
Proof.
  intros Hb. funelim (digits_of b n acc); intros Hacc; try assumption.
  apply H; [exact Hb|]. cbn [toLowerCase]. rewrite Hacc, digit_char_lower; [reflexivity|].
  pose proof (Z.mod_pos_bound n b). lia.
Qed.

Lemma parse_loop_digits_of (b n : Z) (acc : string) :
  2 <= b <= 36 -> 0 <= n ->
  parse_loop (digits_of b n acc) b 0 = parse_loop acc b n.
Proof.
  funelim (digits_of b n acc); intros Hb Hn.
  - rewrite H; [|exact Hb|apply Z.div_pos; lia].
    cbn [parse_loop].
    pose proof (Z.mod_pos_bound n b ltac:(lia)) as Hm.
    rewrite digit_char_index by lia.
    destruct (Z.ltb_spec (n mod b) 0) as [?|_]; [lia|].
    f_equal. rewrite Z.mul_comm. symmetry. apply Z.div_mod. lia.
  - replace n with 0 by lia. reflexivity.
  - lia.
Qed.

(** Decoding the numeral of a non-negative integer gives the integer back. *)
Lemma parseInBase_encode (b n : Z) :
  2 <= b <= 36 -> 0 <= n -> parseInBase (encode b n) (JsInt b) = OK n.
Proof.
  intros Hb Hn. unfold parseInBase, encode.
  destruct (Z.eqb_spec n 0) as [->|Hn0]; [reflexivity|].
  destruct (Z.ltb_spec n 0) as [?|_]; [lia|].
  rewrite digits_of_lower by (lia || reflexivity).
  cbn [BigInt mbind result_bind].
  rewrite parse_loop_digits_of by lia. reflexivity.
Qed.

Lemma parse_loop_nonneg (s : string) (B acc r : Z) :
  0 <= B -> 0 <= acc -> parse_loop s B acc = OK r -> 0 <= r.
Proof.
  revert acc. induction s as [|ch s IH]; intros acc HB Hacc; cbn [parse_loop].
  - intros [= <-]. exact Hacc.
  - destruct (Z.ltb_spec (indexOf DIGITS ch) 0) as [?|Hv]; [discriminate|].
    apply IH; [exact HB|]. nia.
Qed.

(** The decoder never returns a negative integer. *)
Lemma parseInBase_nonneg (s : string) (b r : Z) :
  0 <= b -> parseInBase s (JsInt b) = OK r -> 0 <= r.
Proof.
  intros Hb. unfold parseInBase. cbn [BigInt mbind result_bind].
  apply parse_loop_nonneg; lia.
Qed.

End DecoderFacts.

(** C3 (the decoder on a digit out of range).  [parseInBase] looks a
    character up in the whole alphabet and never compares the digit with the
    base: the digit g of value 16 is accepted in base 16, and the string
    decodes to 16 where the specification asks for an invalid-digit
    failure. *)
Theorem parseInBase_accepts_digit_above_base :
  parseInBase "g" (JsInt 16) = OK 16%Z
  /\ parseInBase "z" (JsInt 2) = OK 35%Z
  /\ parseInBase "ff" (JsInt 16) = OK 255%Z
  /\ parseInBase "1010" (JsInt 2) = OK 10%Z
  /\ parseInBase "z" (JsInt 36) = OK 35%Z
  /\ parseInBase "1-" (JsInt 16) = Throw (InvalidDigit "-").
Proof. repeat split; reflexivity. Qed.

(** C8 (the decoder on an unsupported base).  [parseInBase] has no test on
    the base: an integer outside of [2, 36] is used as it is, and a Number
    that is not an integer makes [BigInt] raise a RangeError.  The guard of
    [parseInput] in [index.js] is the one that rejects such a base. *)
Theorem parseInBase_accepts_base_out_of_range :
  parseInBase "10" (JsInt 37) = OK 37%Z
  /\ parseInBase "11" (JsInt 1) = OK 2%Z
  /\ parseInBase "7" (JsInt (-5)) = OK 7%Z
  /\ parseInBase "10" JsNonInt = Throw RangeError
  /\ parseInput_base (JsInt 37) = Throw UnsupportedBase
  /\ parseInput_base (JsInt 1) = Throw UnsupportedBase
  /\ parseInput_base JsNonInt = Throw UnsupportedBase.
Proof. repeat split; reflexivity. Qed.


(** C10, as the code has it: with an integral base, whatever its value,
    the empty string decodes to 0. *)
Theorem parseInBase_empty (b : Z) : parseInBase "" (JsInt b) = OK 0%Z.
Proof. reflexivity. Qed.

(** C10 as stated fails for a base that is not an integer: [BigInt(base)]
    raises a RangeError before the string is looked at. *)
Lemma parseInBase_empty_fractional_base :
  ~ (forall b : number, parseInBase "" b = OK 0%Z).
Proof. intros H. specialize (H JsNonInt). discriminate H. Qed.


(** ** Rational numbers *)

Section RationalFacts.
Local Open Scope Z_scope.

(** The loop of [gcd] computes the greatest common divisor. *)
Lemma gcd_spec (a b : Z) : gcd a b = Z.gcd a b.
Proof.
  funelim (gcd a b).
  - subst b. rewrite Z.gcd_0_r. destruct (Z.ltb_spec a 0); lia.
  - rewrite H. rewrite Z.rem_eq by assumption.
    replace (a - b * (a ÷ b)) with (a + (- (a ÷ b)) * b) by ring.
    rewrite Z.gcd_add_mult_diag_r. apply Z.gcd_comm.
Qed.

Lemma gcd_nonneg (a b : Z) : 0 <= gcd a b.
Proof. rewrite gcd_spec. apply Z.gcd_nonneg. Qed.

Lemma makeFrac_zero_den (n : Z) : makeFrac n 0 = Throw ZeroDenominator.
Proof. reflexivity. Qed.

(** What [makeFrac] returns on a non-zero denominator: the fraction in
    lowest terms with a positive denominator that is equal to [n / d]. *)
Lemma makeFrac_spec (n d : Z) :
  d <> 0 ->
  exists f, makeFrac n d = OK f /\ canonical f /\ num f * d = n * den f.
Proof.
  intros Hd. unfold makeFrac, canonical.
  destruct (Z.eqb_spec d 0) as [?|_]; [contradiction|].
  rewrite gcd_spec.
  set (g := Z.gcd n d).
  assert (Hg : 0 < g).
  { pose proof (Z.gcd_nonneg n d). assert (g <> 0); [|subst g; lia].
    intros H0. apply Z.gcd_eq_0_r in H0. contradiction. }
  destruct (Z.eqb_spec g 0) as [?|_]; [lia|].
  destruct (Z.gcd_divide_l n d) as [n' Hn'], (Z.gcd_divide_r n d) as [d' Hd'].
  fold g in Hn', Hd'.
  assert (Hqn : n ÷ g = n') by (rewrite Hn'; apply Z.quot_mul; lia).
  assert (Hqd : d ÷ g = d') by (rewrite Hd'; apply Z.quot_mul; lia).
  rewrite Hqn, Hqd.
  assert (Hcop : Z.gcd n' d' = 1).
  { assert (Hmul : Z.gcd (n' * g) (d' * g) = Z.gcd n' d' * g).
    { rewrite Z.gcd_mul_mono_r_nonneg by lia. reflexivity. }
    rewrite <- Hn', <- Hd' in Hmul. fold g in Hmul. nia. }
  assert (Hd'0 : d' <> 0) by (intros ->; lia).
  destruct (Z.ltb_spec d' 0) as [Hneg|Hpos]; eexists; (split; [reflexivity|]); cbn [num den].
  - split; [split; [lia|]|].
    + rewrite Z.gcd_abs_l, Z.gcd_opp_l, Z.gcd_opp_r. exact Hcop.
    + rewrite Hn', Hd'. ring.
  - split; [split; [lia|]|].
    + rewrite Z.gcd_abs_l. exact Hcop.
    + rewrite Hn', Hd'. ring.
Qed.

(** Two fractions in canonical form that denote the same number are the
    same pair. *)
Lemma canonical_unique (f g : frac) :
  canonical f -> canonical g -> num f * den g = num g * den f -> f = g.
Proof.
  destruct f as [nf df], g as [ng dg]. unfold canonical. cbn [num den].
  rewrite !Z.gcd_abs_l. intros [Hdf Hcf] [Hdg Hcg] Heq.
  assert (Hden : df = dg).
  { apply Z.divide_antisym_nonneg; [lia|lia| |].
    - apply Z.gauss with (m := nf); [|rewrite Z.gcd_comm; exact Hcf].
      exists ng. lia.
    - apply Z.gauss with (m := ng); [|rewrite Z.gcd_comm; exact Hcg].
      exists nf. lia. }
  subst dg. f_equal. nia.
Qed.

Lemma makeFrac_canonical_id (f : frac) :
  canonical f -> makeFrac (num f) (den f) = OK f.
Proof.
  intros Hf. destruct (makeFrac_spec (num f) (den f)) as (g & -> & Hg & Heq).
  { destruct Hf. lia. }
  f_equal. symmetry. apply canonical_unique; [exact Hf|exact Hg|lia].
Qed.

Lemma makeFrac_integer (n : Z) : makeFrac n 1 = OK (Frac n 1).
Proof.
  apply (makeFrac_canonical_id (Frac n 1)). split; cbn; [lia|apply Z.gcd_1_r].
Qed.

Lemma canonical_integer (n : Z) : canonical (Frac n 1).
Proof. split; cbn; [lia|apply Z.gcd_1_r]. Qed.

End RationalFacts.

(** C4.  [makeFrac] raises the zero-denominator error exactly on a zero
    denominator; otherwise it returns a fraction with a positive
    denominator, in lowest terms, equal to [n / d].  [makeFrac(4, -8)] is
    -1/2 and [makeFrac(0, 5)] is 0/1. *)
Theorem makeFrac_canonical (n d : Z) :
  (d = 0%Z -> makeFrac n d = Throw ZeroDenominator)
  /\ (d <> 0%Z ->
      exists f, makeFrac n d = OK f
                /\ (0 < den f)%Z
                /\ Z.gcd (Z.abs (num f)) (den f) = 1%Z
                /\ (num f * d = n * den f)%Z)
  /\ makeFrac 4 (-8) = OK (Frac (-1) 2)
  /\ makeFrac 0 5 = OK (Frac 0 1).
Proof.
  split; [intros ->; reflexivity|].
  split; [|split; reflexivity].
  intros Hd. destruct (makeFrac_spec n d Hd) as (f & Hf & [Hpos Hcop] & Heq).
  exists f. auto.
Qed.

Section ArithmeticFacts.
Local Open Scope Z_scope.

Lemma den_pos_id (f : frac) : 0 < den f -> Z.pos (Z.to_pos (den f)) = den f.
Proof. intros H. apply Z2Pos.id. exact H. Qed.

Lemma qof_eq (f g : frac) :
  0 < den f -> 0 < den g -> (qof f == qof g)%Q <-> num f * den g = num g * den f.
Proof.
  intros Hf Hg. unfold Qeq, qof. cbn [Qnum Qden].
  rewrite !den_pos_id by assumption. reflexivity.
Qed.

Lemma qval_eq (f g : frac) :
  0 < den f -> 0 < den g -> qval f = qval g <-> num f * den g = num g * den f.
Proof.
  intros Hf Hg. unfold qval. rewrite Q2Qc_eq_iff. apply qof_eq; assumption.
Qed.

Lemma qval_inj (f g : frac) :
  canonical f -> canonical g -> qval f = qval g -> f = g.
Proof.
  intros Hf Hg Heq. apply canonical_unique; [assumption..|].
  apply qval_eq; [apply Hf|apply Hg|exact Heq].
Qed.

Lemma qval_zero (f : frac) : 0 < den f -> qval f = 0%Qc <-> num f = 0.
Proof.
  intros Hf. change 0%Qc with (qval (Frac 0 1)).
  rewrite qval_eq by (cbn; lia). cbn [num den]. lia.
Qed.

Lemma qval_integer (n : Z) : qval (Frac n 1) = Q2Qc (inject_Z n).
Proof. reflexivity. Qed.

(** The value of a fraction built by [makeFrac]. *)
Lemma qof_makeFrac (n d : Z) (f : frac) :
  d <> 0 -> makeFrac n d = OK f -> (qof f == inject_Z n / inject_Z d)%Q.
Proof.
  intros Hd Hmk. destruct (makeFrac_spec n d Hd) as (f' & Hf' & [Hpos _] & Heq).
  rewrite Hmk in Hf'. injection Hf' as <-.
  unfold Qeq, Qdiv, Qmult, Qinv, qof, inject_Z. cbn [Qnum Qden].
  destruct d as [|p|p]; [contradiction| |]; cbn [Qnum Qden];
    rewrite ?Pos.mul_1_l, ?Pos.mul_1_r, den_pos_id by exact Hpos; lia.
Qed.

Lemma qof_as_div (f : frac) :
  0 < den f -> (qof f == inject_Z (num f) / inject_Z (den f))%Q.
Proof.
  intros Hpos. unfold qof. rewrite (Qmake_Qdiv (num f) (Z.to_pos (den f))).
  rewrite den_pos_id by exact Hpos. reflexivity.
Qed.

End ArithmeticFacts.

Section ValueFacts.
Local Open Scope Qc_scope.

Lemma Q2Qc_plus (p q : Q) : Q2Qc (p + q)%Q = Q2Qc p + Q2Qc q.
Proof.
  unfold Qcplus. apply Q2Qc_eq_iff. cbn [this Q2Qc]. rewrite !Qred_correct. reflexivity.
Qed.

Lemma Q2Qc_mult (p q : Q) : Q2Qc (p * q)%Q = Q2Qc p * Q2Qc q.
Proof.
  unfold Qcmult. apply Q2Qc_eq_iff. cbn [this Q2Qc]. rewrite !Qred_correct. reflexivity.
Qed.

Lemma Q2Qc_opp (p : Q) : Q2Qc (- p)%Q = - Q2Qc p.
Proof.
  unfold Qcopp. apply Q2Qc_eq_iff. cbn [this Q2Qc]. rewrite !Qred_correct. reflexivity.
Qed.

Lemma Q2Qc_inv (p : Q) : Q2Qc (/ p)%Q = / Q2Qc p.
Proof.
  unfold Qcinv. apply Q2Qc_eq_iff. cbn [this Q2Qc]. rewrite !Qred_correct. reflexivity.
Qed.

Lemma Q2Qc_div (p q : Q) : Q2Qc (p / q)%Q = Q2Qc p / Q2Qc q.
Proof. unfold Qdiv, Qcdiv. rewrite Q2Qc_mult, Q2Qc_inv. reflexivity. Qed.

Lemma zq_add (a b : Z) : zq (a + b) = zq a + zq b.
Proof. unfold zq. rewrite <- Q2Qc_plus. rewrite inject_Z_plus. reflexivity. Qed.

Lemma zq_mul (a b : Z) : zq (a * b) = zq a * zq b.
Proof. unfold zq. rewrite <- Q2Qc_mult. rewrite inject_Z_mult. reflexivity. Qed.

Lemma zq_opp (a : Z) : zq (- a) = - zq a.
Proof. unfold zq. rewrite <- Q2Qc_opp. rewrite inject_Z_opp. reflexivity. Qed.

Lemma zq_sub (a b : Z) : zq (a - b) = zq a - zq b.
Proof. unfold Z.sub, Qcminus. rewrite zq_add, zq_opp. reflexivity. Qed.

Lemma zq_inj (a b : Z) : zq a = zq b -> a = b.
Proof. unfold zq. rewrite Q2Qc_eq_iff. apply inject_Z_injective. Qed.

Lemma zq_0 : zq 0 = 0.
Proof. reflexivity. Qed.

Lemma zq_1 : zq 1 = 1.
Proof. reflexivity. Qed.

Lemma zq_nonzero (a : Z) : a <> 0%Z -> zq a <> 0.
Proof. intros Ha H. apply Ha. apply zq_inj. exact H. Qed.

Lemma qval_integer_zq (n : Z) : qval (Frac n 1) = zq n.
Proof. reflexivity. Qed.

(** The value of a fraction as a quotient in the field. *)
Lemma qval_div (f : frac) : (0 < den f)%Z -> qval f = zq (num f) / zq (den f).
Proof.
  intros Hpos. unfold qval, zq. rewrite <- Q2Qc_div. apply Q2Qc_eq_iff.
  apply qof_as_div. exact Hpos.
Qed.

Lemma qval_makeFrac (n d : Z) (f : frac) :
  d <> 0%Z -> makeFrac n d = OK f -> qval f = zq n / zq d.
Proof.
  intros Hd Hmk. unfold qval, zq. rewrite <- Q2Qc_div. apply Q2Qc_eq_iff.
  apply qof_makeFrac; assumption.
Qed.

Lemma den_nonzero (f : frac) : canonical f -> zq (den f) <> 0.
Proof. intros [Hpos _]. apply zq_nonzero. lia. Qed.

(** The four operations on canonical fractions: each returns a canonical
    fraction of the expected value; only [div] by zero raises. *)
Lemma add_spec (a b : frac) :
  canonical a -> canonical b ->
  exists c, add a b = OK c /\ canonical c /\ qval c = qval a + qval b.
Proof.
  intros Ha Hb. unfold add.
  assert (Hd : (den a * den b)%Z <> 0%Z) by (destruct Ha, Hb; nia).
  destruct (makeFrac_spec (num a * den b + num b * den a)%Z _ Hd) as (c & Hc & Hcan & _).
  exists c. split; [exact Hc|]. split; [exact Hcan|].
  rewrite (qval_makeFrac _ _ _ Hd Hc), (qval_div a), (qval_div b) by (apply Ha || apply Hb).
  rewrite zq_add, !zq_mul.
  pose proof (den_nonzero a Ha). pose proof (den_nonzero b Hb). field. auto.
Qed.

Lemma sub_spec (a b : frac) :
  canonical a -> canonical b ->
  exists c, sub a b = OK c /\ canonical c /\ qval c = qval a - qval b.
Proof.
  intros Ha Hb. unfold sub.
  assert (Hd : (den a * den b)%Z <> 0%Z) by (destruct Ha, Hb; nia).
  destruct (makeFrac_spec (num a * den b - num b * den a)%Z _ Hd) as (c & Hc & Hcan & _).
  exists c. split; [exact Hc|]. split; [exact Hcan|].
  rewrite (qval_makeFrac _ _ _ Hd Hc), (qval_div a), (qval_div b) by (apply Ha || apply Hb).
  rewrite zq_sub, !zq_mul.
  pose proof (den_nonzero a Ha). pose proof (den_nonzero b Hb). field. auto.
Qed.

Lemma mul_spec (a b : frac) :
  canonical a -> canonical b ->
  exists c, mul a b = OK c /\ canonical c /\ qval c = qval a * qval b.
Proof.
  intros Ha Hb. unfold mul.
  assert (Hd : (den a * den b)%Z <> 0%Z) by (destruct Ha, Hb; nia).
  destruct (makeFrac_spec (num a * num b)%Z _ Hd) as (c & Hc & Hcan & _).
  exists c. split; [exact Hc|]. split; [exact Hcan|].
  rewrite (qval_makeFrac _ _ _ Hd Hc), (qval_div a), (qval_div b) by (apply Ha || apply Hb).
  rewrite !zq_mul.
  pose proof (den_nonzero a Ha). pose proof (den_nonzero b Hb). field. auto.
Qed.

Lemma div_spec (a b : frac) :
  canonical a -> canonical b -> num b <> 0%Z ->
  exists c, div a b = OK c /\ canonical c /\ qval c = qval a / qval b.
Proof.
  intros Ha Hb Hnb. unfold div.
  assert (Hd : (den a * num b)%Z <> 0%Z) by (destruct Ha, Hb; nia).
  destruct (makeFrac_spec (num a * den b)%Z _ Hd) as (c & Hc & Hcan & _).
  exists c. split; [exact Hc|]. split; [exact Hcan|].
  rewrite (qval_makeFrac _ _ _ Hd Hc), (qval_div a), (qval_div b) by (apply Ha || apply Hb).
  rewrite !zq_mul.
  pose proof (den_nonzero a Ha). pose proof (den_nonzero b Hb).
  pose proof (zq_nonzero _ Hnb). field. auto.
Qed.

Lemma div_by_zero (a b : frac) : num b = 0%Z -> div a b = Throw ZeroDenominator.
Proof.
  intros Hnb. unfold div, makeFrac. rewrite Hnb, Z.mul_0_r. reflexivity.
Qed.

End ValueFacts.

(** C5.  On canonical fractions [add], [sub] and [mul] never raise, and
    [div] raises exactly when the numerator of the divisor is 0, with the
    error of [makeFrac] on a zero denominator (the one error this code has
    for a division by the zero rational); a result is again canonical.  The
    operands are records that the operations only read. *)
Theorem arithmetic_total_and_canonical (a b : frac) :
  canonical a -> canonical b ->
  (exists c, add a b = OK c /\ canonical c)
  /\ (exists c, sub a b = OK c /\ canonical c)
  /\ (exists c, mul a b = OK c /\ canonical c)
  /\ (num b = 0%Z -> div a b = Throw ZeroDenominator)
  /\ (num b <> 0%Z -> exists c, div a b = OK c /\ canonical c).
Proof.
  intros Ha Hb.
  destruct (add_spec a b Ha Hb) as (c1 & ? & ? & _).
  destruct (sub_spec a b Ha Hb) as (c2 & ? & ? & _).
  destruct (mul_spec a b Ha Hb) as (c3 & ? & ? & _).
  repeat split; eauto using div_by_zero.
  intros Hnb. destruct (div_spec a b Ha Hb Hnb) as (c4 & ? & ? & _). eauto.
Qed.

Lemma arithmetic_total_and_canonical_witness :
  (exists c, add (Frac 1 2) (Frac 0 1) = OK c /\ canonical c)
  /\ (exists c, sub (Frac 1 2) (Frac 0 1) = OK c /\ canonical c)
  /\ (exists c, mul (Frac 1 2) (Frac 0 1) = OK c /\ canonical c)
  /\ (num (Frac 0 1) = 0%Z -> div (Frac 1 2) (Frac 0 1) = Throw ZeroDenominator)
  /\ (num (Frac 0 1) <> 0%Z -> exists c, div (Frac 1 2) (Frac 0 1) = OK c /\ canonical c).
Proof.
  apply (arithmetic_total_and_canonical (Frac 1 2) (Frac 0 1));
    split; cbn; (lia || reflexivity).
Defined.


(** ** Finite sums of rationals *)

Section Sums.
Local Open Scope Qc_scope.

Lemma sum_from_ext (a cnt : nat) (f g : nat -> Qc) :
  (forall i, (a <= i < a + cnt)%nat -> f i = g i) ->
  sum_from a cnt f = sum_from a cnt g.
Proof.
  revert a. induction cnt as [|cnt IH]; intros a Hfg; cbn; [reflexivity|].
  rewrite (Hfg a) by lia. rewrite (IH (S a)); [reflexivity|].
  intros i Hi. apply Hfg. lia.
Qed.

Lemma sum_from_zero (a cnt : nat) (f : nat -> Qc) :
  (forall i, (a <= i < a + cnt)%nat -> f i = 0) -> sum_from a cnt f = 0.
Proof.
  revert a. induction cnt as [|cnt IH]; intros a Hf; cbn; [reflexivity|].
  rewrite (Hf a) by lia. rewrite IH; [ring|]. intros i Hi. apply Hf. lia.
Qed.

Lemma sum_from_plus (a cnt : nat) (f g : nat -> Qc) :
  sum_from a cnt (fun i => f i + g i) = sum_from a cnt f + sum_from a cnt g.
Proof.
  revert a. induction cnt as [|cnt IH]; intros a; cbn; [ring|]. rewrite IH. ring.
Qed.

Lemma sum_from_scal (a cnt : nat) (k : Qc) (f : nat -> Qc) :
  sum_from a cnt (fun i => k * f i) = k * sum_from a cnt f.
Proof.
  revert a. induction cnt as [|cnt IH]; intros a; cbn; [ring|]. rewrite IH. ring.
Qed.

Lemma sum_from_minus (a cnt : nat) (f g : nat -> Qc) :
  sum_from a cnt (fun i => f i - g i) = sum_from a cnt f - sum_from a cnt g.
Proof.
  revert a. induction cnt as [|cnt IH]; intros a; cbn; [ring|]. rewrite IH. ring.
Qed.

Lemma sum_from_split (a c1 c2 : nat) (f : nat -> Qc) :
  sum_from a (c1 + c2) f = sum_from a c1 f + sum_from (a + c1) c2 f.
Proof.
  revert a. induction c1 as [|c1 IH]; intros a; cbn.
  - rewrite Nat.add_0_r. ring.
  - rewrite IH. replace (S a + c1)%nat with (a + S c1)%nat by lia. ring.
Qed.

Lemma sum_from_snoc (a cnt : nat) (f : nat -> Qc) :
  sum_from a (S cnt) f = sum_from a cnt f + f (a + cnt)%nat.
Proof.
  replace (S cnt) with (cnt + 1)%nat by lia. rewrite sum_from_split. cbn. ring.
Qed.

Lemma sum_from_shift (a cnt : nat) (f : nat -> Qc) :
  sum_from (S a) cnt f = sum_from a cnt (fun i => f (S i)).
Proof.
  revert a. induction cnt as [|cnt IH]; intros a; cbn; [reflexivity|].
  rewrite IH. reflexivity.
Qed.

(** A sum with one non-zero term. *)
Lemma sum_from_single (a cnt k : nat) (x : Qc) :
  (a <= k < a + cnt)%nat ->
  sum_from a cnt (fun i => if Nat.eqb i k then x else 0) = x.
Proof.
  revert a. induction cnt as [|cnt IH]; intros a Hk; [lia|]. cbn.
  destruct (Nat.eqb_spec a k) as [->|Hne].
  - rewrite sum_from_zero; [ring|]. intros i Hi.
    destruct (Nat.eqb_spec i k); [lia|reflexivity].
  - rewrite IH by lia. ring.
Qed.

(** A sum whose terms vanish but at [k]. *)
Lemma sum_from_pick (a cnt k : nat) (f : nat -> Qc) :
  (a <= k < a + cnt)%nat ->
  (forall i, (a <= i < a + cnt)%nat -> i <> k -> f i = 0) ->
  sum_from a cnt f = f k.
Proof.
  intros Hk Hf. rewrite <- (sum_from_single a cnt k (f k) Hk).
  apply sum_from_ext. intros i Hi.
  destruct (Nat.eqb_spec i k) as [->|Hne]; [reflexivity|]. apply Hf; assumption.
Qed.

(** A sum whose terms vanish but at [j] and [k]. *)
Lemma sum_from_pick2 (a cnt j k : nat) (f : nat -> Qc) :
  (a <= j < a + cnt)%nat -> (a <= k < a + cnt)%nat -> j <> k ->
  (forall i, (a <= i < a + cnt)%nat -> i <> j -> i <> k -> f i = 0) ->
  sum_from a cnt f = f j + f k.
Proof.
  intros Hj Hk Hjk Hf.
  transitivity (sum_from a cnt (fun i => (if Nat.eqb i j then f j else 0)
                                         + (if Nat.eqb i k then f k else 0))).
  - apply sum_from_ext. intros i Hi.
    destruct (Nat.eqb_spec i j) as [Hej|Hnj], (Nat.eqb_spec i k) as [Hek|Hnk];
      subst; try contradiction; try ring.
    rewrite Hf by assumption. ring.
  - rewrite sum_from_plus, !sum_from_single by assumption. reflexivity.
Qed.

(** Exchanging two indices does not change a sum. *)

Lemma transp_invol (i j t : nat) : transp i j (transp i j t) = t.
Proof.
  unfold transp.
  destruct (Nat.eqb_spec t i) as [->|?].
  - destruct (Nat.eqb_spec j i) as [->|?]; [reflexivity|]. rewrite Nat.eqb_refl. reflexivity.
  - destruct (Nat.eqb_spec t j) as [->|?].
    + rewrite Nat.eqb_refl. reflexivity.
    + destruct (Nat.eqb_spec t i); [contradiction|].
      destruct (Nat.eqb_spec t j); [contradiction|]. reflexivity.
Qed.

Lemma transp_lt (n i j t : nat) : (i < n)%nat -> (j < n)%nat -> (t < n)%nat ->
  (transp i j t < n)%nat.
Proof.
  intros. unfold transp.
  destruct (Nat.eqb_spec t i); [assumption|].
  destruct (Nat.eqb_spec t j); assumption.
Qed.

Lemma sum_from_transp (n i j : nat) (g : nat -> Qc) :
  (i < n)%nat -> (j < n)%nat ->
  sum_from 0 n (fun t => g (transp i j t)) = sum_from 0 n g.
Proof.
  intros Hi Hj.
  destruct (Nat.eq_dec i j) as [->|Hij].
  { apply sum_from_ext. intros t _. unfold transp.
    destruct (Nat.eqb_spec t j) as [->|?]; reflexivity. }
  assert (Hdiff : sum_from 0 n (fun t => g (transp i j t) - g t) = 0).
  { rewrite (sum_from_pick2 0 n i j); [| lia | lia | exact Hij |].
    - unfold transp. rewrite !Nat.eqb_refl.
      destruct (Nat.eqb_spec j i); [lia|]. ring.
    - intros t _ Hti Htj. unfold transp.
      destruct (Nat.eqb_spec t i); [contradiction|].
      destruct (Nat.eqb_spec t j); [contradiction|]. ring. }
  rewrite sum_from_minus in Hdiff.
  transitivity (sum_from 0 n (fun t => g (transp i j t)) - sum_from 0 n g + sum_from 0 n g);
    [ring|]. rewrite Hdiff. ring.
Qed.

End Sums.

(** ** Row operations keep the solutions and the dependencies *)

Section RowOperations.
Local Open Scope Qc_scope.

Lemma refines_refl n U b : refines n U b U b.
Proof. split; [reflexivity|]. split; [reflexivity|auto]. Qed.

Lemma refines_trans n U1 b1 U2 b2 U3 b3 :
  refines n U1 b1 U2 b2 -> refines n U2 b2 U3 b3 -> refines n U1 b1 U3 b3.
Proof.
  intros (H1 & Z1 & K1) (H2 & Z2 & K2). split; [|split; [|auto]].
  - intros v. rewrite H1. apply H2.
  - intros w. rewrite Z1. apply Z2.
Qed.

Lemma row_sub_sat n r col f U b U' b' v :
  row_sub n r col f U b U' b' -> sat n U b v <-> sat n U' b' v.
Proof.
  intros (Hne & Hr & Hcol & Hrow & Hb & Hothers).
  assert (Hlin : sum_from 0 n (fun j => U' r j * v j)
                 = sum_from 0 n (fun j => U r j * v j)
                   - f * sum_from 0 n (fun j => U col j * v j)).
  { rewrite <- sum_from_scal, <- sum_from_minus. apply sum_from_ext.
    intros j Hj. rewrite Hrow by lia. ring. }
  assert (Hsame : forall r', (r' < n)%nat -> r' <> r ->
             sum_from 0 n (fun j => U' r' j * v j) = sum_from 0 n (fun j => U r' j * v j)).
  { intros r' Hr' Hne'. apply sum_from_ext. intros j Hj.
    destruct (Hothers r' Hr' Hne') as [HU _]. rewrite HU by lia. reflexivity. }
  unfold sat. split; intros H r' Hr'.
  - destruct (Nat.eq_dec r' r) as [->|Hne'].
    + rewrite Hlin, Hb, (H r Hr), (H col Hcol). reflexivity.
    + rewrite (Hsame r' Hr' Hne'). destruct (Hothers r' Hr' Hne') as [_ ->]. apply H, Hr'.
  - assert (Hc : sum_from 0 n (fun j => U col j * v j) = b col).
    { rewrite <- (Hsame col Hcol) by auto.
      destruct (Hothers col Hcol ltac:(auto)) as [_ <-]. apply H, Hcol. }
    destruct (Nat.eq_dec r' r) as [->|Hne'].
    + pose proof (H r Hr) as Hr0. rewrite Hlin, Hc, Hb in Hr0.
      transitivity (sum_from 0 n (fun j => U r j * v j) - f * b col + f * b col); [ring|].
      rewrite Hr0. ring.
    + rewrite <- (Hsame r' Hr' Hne'). destruct (Hothers r' Hr' Hne') as [_ <-]. apply H, Hr'.
Qed.

Lemma row_sub_left_kernel n r col f U b U' b' :
  row_sub n r col f U b U' b' -> left_kernel n U -> left_kernel n U'.
Proof.
  intros (Hne & Hr & Hcol & Hrow & Hb & Hothers) (u & (r0 & Hr0 & Hu0) & Hk).
  set (u' := fun i => if Nat.eqb i col then u col + f * u r else u i).
  exists u'. split.
  - destruct (Qc_eq_dec (u r) 0) as [Hz|Hnz].
    + exists r0. split; [exact Hr0|]. unfold u'.
      destruct (Nat.eqb_spec r0 col) as [->|?]; [|exact Hu0].
      rewrite Hz. intros H. apply Hu0. rewrite <- H. ring.
    + exists r. split; [exact Hr|]. unfold u'.
      destruct (Nat.eqb_spec r col); [contradiction|exact Hnz].
  - intros c Hc. rewrite <- (Hk c Hc).
    assert (Hdiff : sum_from 0 n (fun i => u' i * U' i c - u i * U i c) = 0).
    { rewrite (sum_from_pick2 0 n r col); [| lia | lia | exact Hne |].
      - unfold u'. rewrite Nat.eqb_refl.
        destruct (Nat.eqb_spec r col); [contradiction|].
        rewrite Hrow by exact Hc.
        destruct (Hothers col Hcol ltac:(auto)) as [HU _]. rewrite HU by exact Hc. ring.
      - intros i Hi Hir Hic. unfold u'.
        destruct (Nat.eqb_spec i col); [contradiction|].
        destruct (Hothers i ltac:(lia) Hir) as [HU _]. rewrite HU by exact Hc. ring. }
    rewrite sum_from_minus in Hdiff.
    transitivity (sum_from 0 n (fun i => u' i * U' i c) - sum_from 0 n (fun i => u i * U i c)
                  + sum_from 0 n (fun i => u i * U i c)); [ring|].
    rewrite Hdiff. ring.
Qed.

Lemma row_sub_homogeneous n r col f U b U' b' :
  row_sub n r col f U b U' b' ->
  row_sub n r col f U (fun _ => 0) U' (fun _ => 0).
Proof.
  intros (Hne & Hr & Hcol & Hrow & Hb & Hothers).
  repeat (split; [assumption|]). split; [ring|].
  intros r' Hr' Hne'. split; [|reflexivity]. apply Hothers; assumption.
Qed.

Lemma row_sub_refines n r col f U b U' b' :
  row_sub n r col f U b U' b' -> refines n U b U' b'.
Proof.
  intros H. split; [|split].
  - intros v. eapply row_sub_sat. exact H.
  - intros w. eapply row_sub_sat. eapply row_sub_homogeneous. exact H.
  - eapply row_sub_left_kernel. exact H.
Qed.

Lemma row_swap_sat n i j U b U' b' v :
  row_swap n i j U b U' b' -> sat n U b v <-> sat n U' b' v.
Proof.
  intros (Hi & Hj & Hsw). unfold sat. split; intros H r Hr.
  - destruct (Hsw r Hr) as [HU ->].
    rewrite <- (H (transp i j r)) by (apply transp_lt; assumption).
    apply sum_from_ext. intros c Hc. rewrite HU by lia. reflexivity.
  - pose proof (transp_lt n i j r Hi Hj Hr) as Ht.
    destruct (Hsw _ Ht) as [HU Hb]. rewrite transp_invol in Hb, HU.
    rewrite <- Hb, <- (H _ Ht).
    apply sum_from_ext. intros c Hc. rewrite HU by lia. reflexivity.
Qed.

Lemma row_swap_refines n i j U b U' b' :
  row_swap n i j U b U' b' -> refines n U b U' b'.
Proof.
  intros Hrs. split; [|split].
  - intros v. eapply row_swap_sat. exact Hrs.
  - intros w. apply (row_swap_sat n i j U (fun _ => 0) U' (fun _ => 0)).
    destruct Hrs as (Hi & Hj & Hsw). split; [exact Hi|]. split; [exact Hj|].
    intros r Hr. split; [|reflexivity]. apply Hsw, Hr.
  - destruct Hrs as (Hi & Hj & Hsw).
    intros (u & (r0 & Hr0 & Hu0) & Hk).
    exists (fun t => u (transp i j t)). split.
    + exists (transp i j r0). split; [apply transp_lt; assumption|].
      rewrite transp_invol. exact Hu0.
    + intros c Hc. rewrite <- (Hk c Hc).
      rewrite <- (sum_from_transp n i j (fun r => u r * U r c)) by assumption.
      apply sum_from_ext. intros r Hr.
      destruct (Hsw r ltac:(lia)) as [HU _]. rewrite HU by exact Hc. reflexivity.
Qed.

End RowOperations.

(** ** Triangular systems *)

Section Triangular.
Local Open Scope Qc_scope.

Variable n : nat.
Variable U : nat -> nat -> Qc.
Hypothesis Hupper : lower_zero n n U.

Lemma tail_trivial_step (c : nat) :
  (c < n)%nat -> tail_trivial n U c -> U c c <> 0 /\ tail_trivial n U (S c).
Proof.
  unfold tail_trivial. intros Hc HK.
  assert (Hdiag : U c c <> 0).
  { intros Hz.
    assert (H1 : (if Nat.eqb c c then 1 else 0) = 0).
    { apply (HK (fun j => if Nat.eqb j c then 1 else 0)); [| |exact Hc].
      - intros j Hj. destruct (Nat.eqb_spec j c); [lia|reflexivity].
      - intros r Hr. rewrite (sum_from_pick 0 n c); [|lia|].
        2:{ intros i _ Hne. destruct (Nat.eqb_spec i c); [contradiction|ring]. }
        rewrite Nat.eqb_refl.
        destruct (Nat.eq_dec r c) as [->|Hne]; [rewrite Hz; ring|].
        rewrite (Hupper r c) by lia. ring. }
    rewrite Nat.eqb_refl in H1. discriminate H1. }
  split; [exact Hdiag|].
  intros w Hw0 Hrows.
  set (t := - sum_from 0 n (fun j => U c j * w j) / U c c).
  set (w' := fun j => w j + t * (if Nat.eqb j c then 1 else 0)).
  assert (Hsum : forall r, sum_from 0 n (fun j => U r j * w' j)
                           = sum_from 0 n (fun j => U r j * w j) + t * U r c).
  { intros r.
    transitivity (sum_from 0 n (fun j => U r j * w j)
                  + sum_from 0 n (fun j => if Nat.eqb j c then t * U r c else 0)).
    - rewrite <- sum_from_plus. apply sum_from_ext. intros j _. unfold w'.
      destruct (Nat.eqb_spec j c) as [->|?]; ring.
    - rewrite sum_from_single by lia. reflexivity. }
  assert (Hw' : forall j, (j < n)%nat -> w' j = 0).
  { apply (HK w').
    - intros j Hj. unfold w'. rewrite Hw0 by lia.
      destruct (Nat.eqb_spec j c); [lia|ring].
    - intros r Hr. rewrite Hsum.
      destruct (Nat.eq_dec r c) as [->|Hne].
      + unfold t. field. exact Hdiag.
      + rewrite Hrows by lia. rewrite (Hupper r c) by lia. ring. }
  assert (Ht : t = 0).
  { pose proof (Hw' c Hc) as H. unfold w' in H.
    rewrite Nat.eqb_refl, Hw0 in H by lia. rewrite <- H. ring. }
  intros j Hj. pose proof (Hw' j Hj) as H. unfold w' in H.
  rewrite Ht in H. rewrite <- H. ring.
Qed.

(** An upper triangular matrix with a trivial kernel has no zero on its
    diagonal. *)
Lemma upper_kernel_trivial_diag :
  kernel_trivial n U -> forall c, (c < n)%nat -> U c c <> 0.
Proof.
  unfold kernel_trivial, sat. intros HK.
  assert (Hall : forall c, (c <= n)%nat ->
            tail_trivial n U c /\ forall c', (c' < c)%nat -> U c' c' <> 0).
  { induction c as [|c IH]; intros Hc.
    - split; [|intros c' Hc'; lia].
      intros w _ Hrows. apply HK. intros r Hr. apply Hrows. lia.
    - destruct IH as [HKc Hd]; [lia|].
      destruct (tail_trivial_step c ltac:(lia) HKc) as [Hdc HKS].
      split; [exact HKS|]. intros c' Hc'.
      destruct (Nat.eq_dec c' c) as [->|?]; [exact Hdc|apply Hd; lia]. }
  intros c Hc. apply (Hall n); [lia|exact Hc].
Qed.

(** With no zero on the diagonal, the rows of an upper triangular matrix
    are independent. *)
Lemma upper_diag_no_left_kernel :
  (forall c, (c < n)%nat -> U c c <> 0) -> ~ left_kernel n U.
Proof.
  intros Hdiag (u & (r0 & Hr0 & Hu0) & Hk).
  assert (Hzero : forall r, (r < n)%nat -> u r = 0).
  { induction r as [r IH] using lt_wf_ind. intros Hr.
    pose proof (Hk r Hr) as Hcol.
    rewrite (sum_from_pick 0 n r) in Hcol; [|lia|].
    - apply Qcmult_integral in Hcol. destruct Hcol as [H|H]; [exact H|].
      exfalso. exact (Hdiag r Hr H).
    - intros i Hi Hne. destruct (Nat.lt_ge_cases i r) as [Hlt|Hge].
      + rewrite IH by lia. ring.
      + rewrite (Hupper i r) by lia. ring. }
  apply Hu0. apply Hzero. exact Hr0.
Qed.

Lemma diag_zero_dec (k : nat) :
  (exists c, (c < k)%nat /\ U c c = 0) \/ (forall c, (c < k)%nat -> U c c <> 0).
Proof.
  induction k as [|k [(c & Hc & Hz)|Hall]].
  - right. intros c Hc. lia.
  - left. exists c. split; [lia|exact Hz].
  - destruct (Qc_eq_dec (U k k) 0) as [Hz|Hnz].
    + left. exists k. split; [lia|exact Hz].
    + right. intros c Hc. destruct (Nat.eq_dec c k) as [->|?]; [exact Hnz|apply Hall; lia].
Qed.

(** An upper triangular matrix with dependent rows has a zero on its
    diagonal. *)
Lemma upper_left_kernel_diag :
  left_kernel n U -> exists c, (c < n)%nat /\ U c c = 0.
Proof.
  intros Hk. destruct (diag_zero_dec n) as [H|H]; [exact H|].
  exfalso. exact (upper_diag_no_left_kernel H Hk).
Qed.

End Triangular.

(** ** Roots of polynomials *)

Section Polynomials.
Local Open Scope Qc_scope.

Lemma pquot_cons (r a a' : Qc) (p : list Qc) :
  pquot r (a :: a' :: p) = peval (a' :: p) r :: pquot r (a' :: p).
Proof. reflexivity. Qed.

Lemma pquot_length (r : Qc) (p : list Qc) : length (pquot r p) = pred (length p).
Proof.
  induction p as [|a [|a' p'] IH]; [reflexivity..|].
  rewrite pquot_cons. cbn [length pred] in *. rewrite IH. reflexivity.
Qed.

(** Division by [X - r]. *)
Lemma pquot_spec (r x : Qc) (p : list Qc) :
  peval p x = peval p r + (x - r) * peval (pquot r p) x.
Proof.
  induction p as [|a [|a' p'] IH]; [cbn [peval pquot]; ring..|].
  rewrite pquot_cons. set (q := pquot r (a' :: p')) in *.
  set (p := a' :: p') in *. cbn [peval]. rewrite IH. ring.
Qed.

Lemma pquot_zero (r : Qc) (p : list Qc) :
  peval p r = 0 -> Forall (fun a => a = 0) (pquot r p) -> Forall (fun a => a = 0) p.
Proof.
  induction p as [|a [|a' p'] IH]; intros Hev Hq.
  - constructor.
  - constructor; [|constructor]. cbn [peval] in Hev. rewrite <- Hev. ring.
  - rewrite pquot_cons in Hq. apply Forall_cons in Hq as [Hq1 Hq2].
    generalize dependent (a' :: p'). intros p IH Hev Hq1 Hq2.
    cbn [peval] in Hev. rewrite Hq1 in Hev.
    constructor.
    + rewrite <- Hev. ring.
    + apply IH; [exact Hq1|exact Hq2].
Qed.

(** A polynomial with at least as many distinct roots as coefficients is
    zero. *)
Lemma poly_roots_zero (roots : list Qc) :
  NoDup roots ->
  forall p : list Qc,
    (length p <= length roots)%nat ->
    (forall r, In r roots -> peval p r = 0) ->
    Forall (fun a => a = 0) p.
Proof.
  induction 1 as [|r roots Hnotin Hnd IH]; intros p Hlen Hroots.
  - destruct p; [constructor|cbn in Hlen; lia].
  - apply (pquot_zero r); [apply Hroots; left; reflexivity|].
    apply IH.
    + rewrite pquot_length. cbn in Hlen. lia.
    + intros r' Hr'.
      pose proof (Hroots r' ltac:(right; exact Hr')) as H0.
      rewrite (pquot_spec r r' p), (Hroots r ltac:(left; reflexivity)) in H0.
      rewrite Qcplus_0_l in H0. apply Qcmult_integral in H0.
      destruct H0 as [H0|H0]; [|exact H0].
      exfalso. apply Hnotin. apply list_elem_of_In.
      replace r with r'; [exact Hr'|].
      transitivity (r' - r + r); [ring|]. rewrite H0. ring.
Qed.

End Polynomials.


(** ** The arrays of the exact solver *)

Section Arrays.

Lemma bind_OK {A B} (a : A) (f : A -> result B) : (OK a ≫= f) = f a.
Proof. reflexivity. Qed.

Lemma canonical_zero : canonical zero_frac.
Proof. apply canonical_integer. Qed.

Lemma makeFrac_zero : makeFrac 0 1 = OK zero_frac.
Proof. apply makeFrac_integer. Qed.

Lemma wf_matrix_row n m r :
  wf_matrix n m -> r < n ->
  exists row, m !! r = Some row /\ length row = n /\ Forall canonical row.
Proof.
  intros [Hlen Hrows] Hr.
  destruct (lookup_lt_is_Some_2 m r ltac:(lia)) as [row Hrow].
  exists row. split; [exact Hrow|]. exact (Forall_lookup_1 _ _ _ _ Hrows Hrow).
Qed.

Lemma ent_canonical n m r c : wf_matrix n m -> canonical (ent m r c).
Proof.
  intros [_ Hrows]. unfold ent.
  destruct (m !! r) as [row|] eqn:Hrow; [|apply canonical_zero].
  destruct (row !! c) as [e|] eqn:He; [|apply canonical_zero]. cbn.
  pose proof (Forall_lookup_1 _ _ _ _ Hrows Hrow) as [_ Hcan].
  exact (Forall_lookup_1 _ _ _ _ Hcan He).
Qed.

Lemma vent_canonical n v i : wf_vector n v -> canonical (vent v i).
Proof.
  intros [_ Hcan]. unfold vent.
  destruct (v !! i) as [e|] eqn:He; [|apply canonical_zero].
  exact (Forall_lookup_1 _ _ _ _ Hcan He).
Qed.

Lemma get_wf n m r c :
  wf_matrix n m -> r < n -> c < n -> get m r c = OK (ent m r c).
Proof.
  intros Hwf Hr Hc. destruct (wf_matrix_row n m r Hwf Hr) as (row & Hrow & Hlen & _).
  destruct (lookup_lt_is_Some_2 row c ltac:(lia)) as [e He].
  unfold get, read, ent. rewrite Hrow. cbn. rewrite He. reflexivity.
Qed.

Lemma read_wf n v i : wf_vector n v -> i < n -> read v i = OK (vent v i).
Proof.
  intros [Hlen _] Hi. destruct (lookup_lt_is_Some_2 v i ltac:(lia)) as [e He].
  unfold read, vent. rewrite He. reflexivity.
Qed.

Lemma set_wf n m r c v :
  wf_matrix n m -> canonical v -> wf_matrix n (set m r c v).
Proof.
  intros [Hlen Hrows] Hv. unfold set. split; [rewrite length_alter; exact Hlen|].
  apply Forall_alter; [exact Hrows|].
  intros row _ [Hl Hcan]. split; [rewrite length_insert; exact Hl|].
  apply Forall_insert; assumption.
Qed.

Lemma ent_set_eq n m r c v :
  wf_matrix n m -> r < n -> c < n -> ent (set m r c v) r c = v.
Proof.
  intros Hwf Hr Hc. destruct (wf_matrix_row n m r Hwf Hr) as (row & Hrow & Hlen & _).
  unfold ent, set. rewrite list_lookup_alter_eq, Hrow. cbn.
  rewrite list_lookup_insert_eq by lia. reflexivity.
Qed.

Lemma ent_set_ne m r c v r' c' :
  r' <> r \/ c' <> c -> ent (set m r c v) r' c' = ent m r' c'.
Proof.
  intros Hne. unfold ent, set.
  destruct (Nat.eq_dec r' r) as [->|Hr].
  - rewrite list_lookup_alter_eq. destruct (m !! r) as [row|]; [|reflexivity]. cbn.
    rewrite list_lookup_insert_ne by (destruct Hne; congruence). reflexivity.
  - rewrite list_lookup_alter_ne by congruence. reflexivity.
Qed.

Lemma insert_wf_vector n v i x :
  wf_vector n v -> canonical x -> wf_vector n (<[i:=x]> v).
Proof.
  intros [Hlen Hcan] Hx. split; [rewrite length_insert; exact Hlen|].
  apply Forall_insert; assumption.
Qed.

Lemma vent_insert_eq n v i x : wf_vector n v -> i < n -> vent (<[i:=x]> v) i = x.
Proof.
  intros [Hlen _] Hi. unfold vent. rewrite list_lookup_insert_eq by lia. reflexivity.
Qed.

Lemma vent_insert_ne (v : list frac) i x j : j <> i -> vent (<[i:=x]> v) j = vent v j.
Proof.
  intros Hne. unfold vent. rewrite list_lookup_insert_ne by congruence. reflexivity.
Qed.

Lemma mval_zero_iff n m r c : wf_matrix n m -> mval m r c = 0%Qc <-> num (ent m r c) = 0%Z.
Proof. intros Hwf. apply qval_zero. apply (ent_canonical n m r c Hwf). Qed.

(** Exchanging two elements of an array. *)
Lemma swap_lookup {A} (l : list A) i j :
  i < length l -> j < length l ->
  exists l', swap l i j = OK l' /\ length l' = length l
             /\ forall t, l' !! t = l !! transp i j t.
Proof.
  intros Hi Hj.
  destruct (lookup_lt_is_Some_2 l i Hi) as [a Ha], (lookup_lt_is_Some_2 l j Hj) as [b Hb].
  unfold swap, read. rewrite Ha, Hb. cbn. eexists. split; [reflexivity|].
  split; [rewrite !length_insert; reflexivity|].
  intros t. unfold transp.
  destruct (Nat.eqb_spec t i) as [->|Hti].
  - destruct (Nat.eq_dec i j) as [->|Hij].
    + rewrite list_lookup_insert_eq by (rewrite length_insert; lia). congruence.
    + rewrite list_lookup_insert_ne by congruence.
      rewrite list_lookup_insert_eq by lia. congruence.
  - destruct (Nat.eqb_spec t j) as [->|Htj].
    + rewrite list_lookup_insert_eq by (rewrite length_insert; lia). congruence.
    + rewrite !list_lookup_insert_ne by congruence. reflexivity.
Qed.

End Arrays.

(** ** The loops of the exact solver *)

Section ForwardElimination.
Local Open Scope Qc_scope.

Lemma find_pivot_spec n m col r cnt :
  wf_matrix n m -> (col < n)%nat -> (col <= r)%nat -> (r + cnt = n)%nat ->
  exists p, find_pivot m col r cnt = OK p
            /\ (((r <= p < n)%nat /\ mval m p col <> 0)
                \/ (p = col /\ forall r', (r <= r' < n)%nat -> mval m r' col = 0)).
Proof.
  intros Hwf Hcol. revert r. induction cnt as [|cnt IH]; intros r Hr Hn; cbn [find_pivot].
  - exists col. split; [reflexivity|]. right. split; [reflexivity|]. intros r' Hr'. lia.
  - rewrite (get_wf n) by (assumption || lia). rewrite bind_OK.
    destruct (Z.eqb_spec (num (ent m r col)) 0) as [Hz|Hnz].
    + destruct (IH (S r) ltac:(lia) ltac:(lia)) as (p & Hp & Hcase).
      exists p. split; [exact Hp|].
      destruct Hcase as [[Hrange Hnz]|[-> Hall]]; [left; split; [lia|exact Hnz]|].
      right. split; [reflexivity|]. intros r' Hr'.
      destruct (Nat.eq_dec r' r) as [->|?]; [|apply Hall; lia].
      apply (mval_zero_iff n); assumption.
    + exists r. split; [reflexivity|]. left. split; [lia|].
      intros H. apply Hnz. apply (mval_zero_iff n m r col Hwf). exact H.
Qed.

Lemma elim_cols_spec n factor r col cnt :
  canonical factor -> (r < n)%nat -> (col < n)%nat -> r <> col ->
  forall m c, wf_matrix n m -> (c + cnt = n)%nat ->
  exists m', elim_cols m factor r col c cnt = OK m' /\ wf_matrix n m'
    /\ (forall r' c', r' <> r \/ (c' < c)%nat -> ent m' r' c' = ent m r' c')
    /\ (forall c', (c <= c' < n)%nat ->
          mval m' r c' = mval m r c' - qval factor * mval m col c').
Proof.
  intros Hf Hr Hcol Hne. induction cnt as [|cnt IH]; intros m c Hwf Hn; cbn [elim_cols].
  - exists m. split; [reflexivity|]. split; [exact Hwf|]. split; [reflexivity|].
    intros c' Hc'. lia.
  - rewrite !(get_wf n) by (assumption || lia). rewrite !bind_OK.
    destruct (mul_spec factor (ent m col c) Hf (ent_canonical n m col c Hwf))
      as (t & -> & Ht & Htv).
    rewrite bind_OK.
    destruct (sub_spec (ent m r c) t (ent_canonical n m r c Hwf) Ht) as (v & -> & Hv & Hvv).
    rewrite bind_OK.
    destruct (IH (set m r c v) (S c) (set_wf n m r c v Hwf Hv) ltac:(lia))
      as (m' & -> & Hwf' & Hsame & Hnew).
    exists m'. split; [reflexivity|]. split; [exact Hwf'|]. split.
    + intros r' c' Hcase. rewrite Hsame by (destruct Hcase; [left; assumption|right; lia]).
      apply ent_set_ne. destruct Hcase; [left; assumption|right; lia].
    + intros c' Hc'. destruct (Nat.eq_dec c' c) as [->|Hcc].
      * unfold mval at 1. rewrite Hsame by (right; lia).
        rewrite (ent_set_eq n) by (assumption || lia).
        rewrite Hvv, Htv. reflexivity.
      * rewrite Hnew by lia. unfold mval.
        rewrite !ent_set_ne by (right; exact Hcc). reflexivity.
Qed.

Lemma elim_rows_spec n col cnt :
  (col < n)%nat ->
  forall m rhs r,
    wf_matrix n m -> wf_vector n rhs -> (col < r)%nat -> (r + cnt = n)%nat ->
    lower_zero n col (mval m) ->
    (mval m col col <> 0 \/ forall r', (r <= r' < n)%nat -> mval m r' col = 0) ->
    (forall r', (col < r' < r)%nat -> mval m r' col = 0) ->
    exists m' rhs',
      elim_rows n m rhs col r cnt = OK (m', rhs')
      /\ wf_matrix n m' /\ wf_vector n rhs'
      /\ lower_zero n (S col) (mval m')
      /\ refines n (mval m) (vval rhs) (mval m') (vval rhs').
Proof.
  intros Hcol. induction cnt as [|cnt IH]; intros m rhs r Hwf Hwv Hr Hn Hlow Hpiv Hdone;
    cbn [elim_rows].
  - exists m, rhs. split; [reflexivity|]. split; [exact Hwf|]. split; [exact Hwv|].
    split; [|apply refines_refl].
    intros r' c Hc Hcr Hr'. destruct (Nat.eq_dec c col) as [->|?].
    + apply Hdone. lia.
    + apply Hlow; lia.
  - rewrite (get_wf n m r col) by (assumption || lia). rewrite bind_OK.
    destruct (Z.eqb_spec (num (ent m r col)) 0) as [Hz|Hnz].
    + apply (mval_zero_iff n m r col Hwf) in Hz.
      apply IH; try assumption; try lia.
      * destruct Hpiv as [Hp|Hall]; [left; exact Hp|right].
        intros r' Hr'. apply Hall. lia.
      * intros r' Hr'. destruct (Nat.eq_dec r' r) as [->|?]; [exact Hz|apply Hdone; lia].
    + assert (Hrnz : mval m r col <> 0).
      { intros H. apply Hnz. apply (mval_zero_iff n m r col Hwf). exact H. }
      assert (Hpnz : mval m col col <> 0).
      { destruct Hpiv as [Hp|Hall]; [exact Hp|]. exfalso. apply Hrnz, Hall. lia. }
      assert (Hpn : num (ent m col col) <> 0%Z).
      { intros H. apply Hpnz. apply (mval_zero_iff n m col col Hwf). exact H. }
      rewrite (get_wf n m col col) by (assumption || lia). rewrite bind_OK.
      destruct (div_spec (ent m r col) (ent m col col)
                  (ent_canonical n m r col Hwf) (ent_canonical n m col col Hwf) Hpn)
        as (factor & -> & Hfc & Hfv).
      rewrite bind_OK.
      destruct (elim_cols_spec n factor r col (n - col) Hfc ltac:(lia) Hcol ltac:(lia)
                  m col Hwf ltac:(lia)) as (m1 & -> & Hwf1 & Hsame & Hnew).
      rewrite bind_OK.
      rewrite (read_wf n rhs r) by (assumption || lia). rewrite bind_OK.
      rewrite (read_wf n rhs col) by (assumption || lia). rewrite bind_OK.
      destruct (mul_spec factor (vent rhs col) Hfc (vent_canonical n rhs col Hwv))
        as (t & -> & Ht & Htv).
      rewrite bind_OK.
      destruct (sub_spec (vent rhs r) t (vent_canonical n rhs r Hwv) Ht) as (v & -> & Hv & Hvv).
      rewrite bind_OK.
      assert (Hop : row_sub n r col (qval factor) (mval m) (vval rhs)
                      (mval m1) (vval (<[r:=v]> rhs))).
      { split; [lia|]. split; [lia|]. split; [exact Hcol|]. split; [|split].
        - intros c Hc. destruct (Nat.lt_ge_cases c col) as [Hlt|Hge].
          + unfold mval at 1. rewrite Hsame by (right; exact Hlt). fold (mval m r c).
            rewrite (Hlow r c) by lia. rewrite (Hlow col c) by lia. ring.
          + apply Hnew. lia.
        - unfold vval at 1. rewrite (vent_insert_eq n) by (assumption || lia).
          rewrite Hvv, Htv. reflexivity.
        - intros r' Hr' Hne. split.
          + intros c Hc. unfold mval. rewrite Hsame by (left; exact Hne). reflexivity.
          + unfold vval. rewrite vent_insert_ne by exact Hne. reflexivity. }
      destruct (IH m1 (<[r:=v]> rhs) (S r) Hwf1 (insert_wf_vector n rhs r v Hwv Hv)
                  ltac:(lia) ltac:(lia)) as (m' & rhs' & -> & Hwf' & Hwv' & Hlow' & Href).
      * intros r' c Hc Hcr Hr'. unfold mval.
        destruct (Nat.eq_dec r' r) as [->|Hne].
        -- rewrite Hsame by (right; exact Hc). apply Hlow; lia.
        -- rewrite Hsame by (left; exact Hne). apply Hlow; lia.
      * left. unfold mval. rewrite Hsame by (left; lia). exact Hpnz.
      * intros r' Hr'. destruct (Nat.eq_dec r' r) as [->|Hne].
        -- rewrite Hnew by lia. rewrite Hfv. fold (mval m r col) (mval m col col).
           field. exact Hpnz.
        -- unfold mval. rewrite Hsame by (left; exact Hne). apply Hdone. lia.
      * exists m', rhs'. split; [reflexivity|]. split; [exact Hwf'|]. split; [exact Hwv'|].
        split; [exact Hlow'|].
        eapply refines_trans; [apply (row_sub_refines _ _ _ _ _ _ _ _ Hop)|exact Href].
Qed.

Lemma swap_system n m rhs i j :
  wf_matrix n m -> wf_vector n rhs -> (i < n)%nat -> (j < n)%nat ->
  exists m' rhs',
    swap m i j = OK m' /\ swap rhs i j = OK rhs'
    /\ wf_matrix n m' /\ wf_vector n rhs'
    /\ (forall r c, ent m' r c = ent m (transp i j r) c)
    /\ (forall r, vent rhs' r = vent rhs (transp i j r)).
Proof.
  intros [Hlen Hrows] [Hlv Hcan] Hi Hj.
  destruct (swap_lookup m i j ltac:(lia) ltac:(lia)) as (m' & Hm' & Hlen' & Hlk).
  destruct (swap_lookup rhs i j ltac:(lia) ltac:(lia)) as (rhs' & Hr' & Hlv' & Hlkv).
  exists m', rhs'. split; [exact Hm'|]. split; [exact Hr'|].
  split; [|split; [|split]].
  - split; [lia|]. apply Forall_lookup_2. intros t row Hrow.
    rewrite Hlk in Hrow. exact (Forall_lookup_1 _ _ _ _ Hrows Hrow).
  - split; [lia|]. apply Forall_lookup_2. intros t e He.
    rewrite Hlkv in He. exact (Forall_lookup_1 _ _ _ _ Hcan He).
  - intros r c. unfold ent. rewrite Hlk. reflexivity.
  - intros r. unfold vent. rewrite Hlkv. reflexivity.
Qed.

Lemma forward_step_spec n m rhs col :
  wf_matrix n m -> wf_vector n rhs -> (col < n)%nat -> lower_zero n col (mval m) ->
  exists m' rhs',
    forward_step n m rhs col = OK (m', rhs')
    /\ wf_matrix n m' /\ wf_vector n rhs'
    /\ lower_zero n (S col) (mval m')
    /\ refines n (mval m) (vval rhs) (mval m') (vval rhs').
Proof.
  intros Hwf Hwv Hcol Hlow. unfold forward_step.
  destruct (find_pivot_spec n m col col (n - col) Hwf Hcol ltac:(lia) ltac:(lia))
    as (p & -> & Hcase).
  rewrite bind_OK.
  destruct (Nat.eqb_spec p col) as [->|Hne].
  - rewrite bind_OK. cbn [fst snd].
    apply elim_rows_spec; try assumption; try lia.
    destruct Hcase as [[_ Hnz]|[_ Hall]]; [left; exact Hnz|right].
    intros r' Hr'. apply Hall. lia.
  - destruct Hcase as [[Hrange Hnz]|[-> _]]; [|contradiction].
    destruct (swap_system n m rhs col p Hwf Hwv Hcol ltac:(lia))
      as (m1 & rhs1 & -> & -> & Hwf1 & Hwv1 & Hent & Hvent).
    rewrite !bind_OK. cbn [fst snd].
    assert (Hsw : row_swap n col p (mval m) (vval rhs) (mval m1) (vval rhs1)).
    { split; [exact Hcol|]. split; [lia|]. intros r Hr. split.
      - intros c Hc. unfold mval. rewrite Hent. reflexivity.
      - unfold vval. rewrite Hvent. reflexivity. }
    destruct (elim_rows_spec n col (n - S col) Hcol m1 rhs1 (S col) Hwf1 Hwv1
                ltac:(lia) ltac:(lia)) as (m' & rhs' & -> & Hwf' & Hwv' & Hlow' & Href).
    + intros r c Hc Hcr Hr. unfold mval. rewrite Hent. apply Hlow; [exact Hc| |].
      * unfold transp. destruct (Nat.eqb_spec r col); [lia|].
        destruct (Nat.eqb_spec r p); lia.
      * apply transp_lt; lia.
    + left. unfold mval. rewrite Hent. unfold transp. rewrite Nat.eqb_refl. exact Hnz.
    + intros r' Hr'. lia.
    + exists m', rhs'. split; [reflexivity|]. split; [exact Hwf'|]. split; [exact Hwv'|].
      split; [exact Hlow'|].
      eapply refines_trans; [apply (row_swap_refines _ _ _ _ _ _ _ Hsw)|exact Href].
Qed.

(** Forward elimination never raises on a square system of canonical
    fractions; it leaves an upper triangular system with the same
    solutions. *)
Lemma forward_spec n cnt :
  forall m rhs col,
    wf_matrix n m -> wf_vector n rhs -> (col + cnt = n)%nat -> lower_zero n col (mval m) ->
    exists m' rhs',
      forward n m rhs col cnt = OK (m', rhs')
      /\ wf_matrix n m' /\ wf_vector n rhs'
      /\ lower_zero n n (mval m')
      /\ refines n (mval m) (vval rhs) (mval m') (vval rhs').
Proof.
  induction cnt as [|cnt IH]; intros m rhs col Hwf Hwv Hn Hlow; cbn [forward].
  - exists m, rhs. split; [reflexivity|]. split; [exact Hwf|]. split; [exact Hwv|].
    split; [|apply refines_refl]. replace col with n in Hlow by lia. exact Hlow.
  - destruct (forward_step_spec n m rhs col Hwf Hwv ltac:(lia) Hlow)
      as (m1 & rhs1 & -> & Hwf1 & Hwv1 & Hlow1 & Href1).
    rewrite bind_OK. cbn [fst snd].
    destruct (IH m1 rhs1 (S col) Hwf1 Hwv1 ltac:(lia) Hlow1)
      as (m' & rhs' & -> & Hwf' & Hwv' & Hlow' & Href').
    exists m', rhs'. split; [reflexivity|]. split; [exact Hwf'|]. split; [exact Hwv'|].
    split; [exact Hlow'|]. eapply refines_trans; eassumption.
Qed.

End ForwardElimination.

Section BackSubstitution.
Local Open Scope Qc_scope.

Lemma back_sum_spec n m x i cnt :
  wf_matrix n m -> wf_vector n x -> (i < n)%nat ->
  forall j sum, canonical sum -> (j + cnt = n)%nat ->
  exists s, back_sum m x i j cnt sum = OK s /\ canonical s
            /\ qval s = qval sum + sum_from j cnt (fun j' => mval m i j' * vval x j').
Proof.
  intros Hwf Hwx Hi. induction cnt as [|cnt IH]; intros j sum Hs Hn; cbn [back_sum sum_from].
  - exists sum. split; [reflexivity|]. split; [exact Hs|]. ring.
  - rewrite (get_wf n m i j) by (assumption || lia). rewrite bind_OK.
    rewrite (read_wf n x j) by (assumption || lia). rewrite bind_OK.
    destruct (mul_spec (ent m i j) (vent x j) (ent_canonical n m i j Hwf)
                (vent_canonical n x j Hwx)) as (t & -> & Ht & Htv).
    rewrite bind_OK.
    destruct (add_spec sum t Hs Ht) as (s1 & -> & Hs1 & Hs1v).
    rewrite bind_OK.
    destruct (IH (S j) s1 Hs1 ltac:(lia)) as (s & -> & Hsc & Hsv).
    exists s. split; [reflexivity|]. split; [exact Hsc|].
    rewrite Hsv, Hs1v, Htv. unfold mval, vval. ring.
Qed.

(** One pass of the loop of back substitution, up to the division. *)
Lemma back_step_spec n m rhs x i :
  wf_matrix n m -> wf_vector n rhs -> wf_vector n x -> (i < n)%nat ->
  exists d,
    back_loop n m rhs (S i) x = (xi ← div d (ent m i i); back_loop n m rhs i (<[i:=xi]> x))
    /\ canonical d
    /\ qval d = vval rhs i - sum_from (S i) (n - S i) (fun j => mval m i j * vval x j).
Proof.
  intros Hwf Hwr Hwx Hi. cbn [back_loop].
  rewrite makeFrac_zero, bind_OK.
  destruct (back_sum_spec n m x i (n - S i) Hwf Hwx Hi (S i) zero_frac canonical_zero
              ltac:(lia)) as (s & -> & Hs & Hsv).
  rewrite bind_OK.
  rewrite (read_wf n rhs i) by (assumption || lia). rewrite bind_OK.
  destruct (sub_spec (vent rhs i) s (vent_canonical n rhs i Hwr) Hs) as (d & -> & Hd & Hdv).
  rewrite bind_OK.
  rewrite (get_wf n m i i) by (assumption || lia). rewrite bind_OK.
  exists d. split; [reflexivity|]. split; [exact Hd|].
  rewrite Hdv, Hsv. change (qval zero_frac) with 0. unfold vval. ring.
Qed.

(** Back substitution on a matrix with no zero on the diagonal. *)
Lemma back_loop_ok n m rhs :
  wf_matrix n m -> wf_vector n rhs ->
  forall cnt x,
    (cnt <= n)%nat -> wf_vector n x ->
    (forall i, (i < cnt)%nat -> mval m i i <> 0) ->
    exists x',
      back_loop n m rhs cnt x = OK x' /\ wf_vector n x'
      /\ (forall i, (cnt <= i)%nat -> vent x' i = vent x i)
      /\ forall i, (i < cnt)%nat ->
           vval x' i * mval m i i
           = vval rhs i - sum_from (S i) (n - S i) (fun j => mval m i j * vval x' j).
Proof.
  intros Hwf Hwr. induction cnt as [|i IH]; intros x Hcnt Hwx Hdiag.
  - exists x. split; [reflexivity|]. split; [exact Hwx|]. split; [reflexivity|].
    intros i Hi. lia.
  - destruct (back_step_spec n m rhs x i Hwf Hwr Hwx ltac:(lia)) as (d & -> & Hd & Hdv).
    assert (Hnz : num (ent m i i) <> 0%Z).
    { intros H. apply (Hdiag i); [lia|]. apply (mval_zero_iff n m i i Hwf). exact H. }
    destruct (div_spec d (ent m i i) Hd (ent_canonical n m i i Hwf) Hnz)
      as (xi & -> & Hxi & Hxiv).
    rewrite bind_OK.
    destruct (IH (<[i:=xi]> x) ltac:(lia) (insert_wf_vector n x i xi Hwx Hxi))
      as (x' & -> & Hwx' & Hkeep & Heqs).
    { intros i' Hi'. apply Hdiag. lia. }
    exists x'. split; [reflexivity|]. split; [exact Hwx'|]. split.
    + intros i' Hi'. rewrite Hkeep by lia. apply vent_insert_ne. lia.
    + intros i' Hi'. destruct (Nat.eq_dec i' i) as [->|Hne]; [|apply Heqs; lia].
      unfold vval at 1. rewrite Hkeep by lia.
      rewrite (vent_insert_eq n) by (assumption || lia).
      rewrite Hxiv. fold (mval m i i).
      transitivity (qval d); [field; apply Hdiag; lia|].
      rewrite Hdv. f_equal. apply sum_from_ext. intros j Hj.
      unfold vval. rewrite Hkeep by lia. rewrite vent_insert_ne by lia. reflexivity.
Qed.

(** Back substitution on a matrix with a zero on the diagonal: the
    division by that entry raises. *)
Lemma back_loop_fail n m rhs :
  wf_matrix n m -> wf_vector n rhs ->
  forall cnt x,
    (cnt <= n)%nat -> wf_vector n x ->
    (exists i, (i < cnt)%nat /\ mval m i i = 0) ->
    back_loop n m rhs cnt x = Throw ZeroDenominator.
Proof.
  intros Hwf Hwr. induction cnt as [|i IH]; intros x Hcnt Hwx (i0 & Hi0 & Hz); [lia|].
  destruct (back_step_spec n m rhs x i Hwf Hwr Hwx ltac:(lia)) as (d & -> & Hd & Hdv).
  destruct (Z.eq_dec (num (ent m i i)) 0%Z) as [Hnum|Hnum].
  - rewrite div_by_zero by exact Hnum. reflexivity.
  - destruct (div_spec d (ent m i i) Hd (ent_canonical n m i i Hwf) Hnum)
      as (xi & -> & Hxi & _).
    rewrite bind_OK. apply IH; [lia|apply insert_wf_vector; assumption|].
    exists i0. split; [|exact Hz].
    destruct (Nat.eq_dec i0 i) as [->|?]; [|lia].
    exfalso. apply Hnum. apply (mval_zero_iff n m i i Hwf). exact Hz.
Qed.

(** The equations of back substitution on an upper triangular matrix are
    the equations of the system. *)
Lemma upper_sat n U b v :
  lower_zero n n U ->
  (forall i, (i < n)%nat ->
     v i * U i i = b i - sum_from (S i) (n - S i) (fun j => U i j * v j)) ->
  sat n U b v.
Proof.
  intros Hup Heqs i Hi. replace n with (i + S (n - S i))%nat at 1 by lia.
  rewrite sum_from_split. cbn [sum_from]. rewrite Nat.add_0_l.
  rewrite sum_from_zero by (intros j Hj; rewrite (Hup i j) by lia; ring).
  pose proof (Heqs i Hi) as H.
  transitivity (v i * U i i + sum_from (S i) (n - S i) (fun j => U i j * v j)); [ring|].
  rewrite H. ring.
Qed.

End BackSubstitution.


(** ** The exact solver as a whole *)

Section Solve.
Local Open Scope Qc_scope.

Lemma wf_replicate_zero n : wf_vector n (replicate n zero_frac).
Proof.
  split; [apply length_replicate|]. apply Forall_replicate. apply canonical_zero.
Qed.

Lemma solve_unfold n m rhs :
  wf_matrix n m ->
  solve m rhs = (st ← forward n m rhs 0 n; back_loop n st.1 st.2 n (replicate n zero_frac)).
Proof.
  intros [Hlen _]. unfold solve. rewrite Hlen.
  destruct (forward n m rhs 0 n) as [st|e]; [|reflexivity].
  rewrite !bind_OK, makeFrac_zero, bind_OK. reflexivity.
Qed.

Lemma lower_zero_0 n U : lower_zero n 0 U.
Proof. intros r c Hc. lia. Qed.

(** On a square system whose matrix sends only the zero vector to zero,
    [solve] returns, and what it returns solves the system. *)
Lemma solve_ok n m rhs :
  wf_matrix n m -> wf_vector n rhs -> kernel_trivial n (mval m) ->
  exists x, solve m rhs = OK x /\ wf_vector n x /\ sat n (mval m) (vval rhs) (vval x).
Proof.
  intros Hwf Hwr Hker. rewrite (solve_unfold n) by exact Hwf.
  destruct (forward_spec n n m rhs 0 Hwf Hwr ltac:(lia) (lower_zero_0 n _))
    as (m' & rhs' & -> & Hwf' & Hwr' & Hup & Hsat & Hhom & _).
  rewrite bind_OK. cbn [fst snd].
  assert (Hker' : kernel_trivial n (mval m')).
  { intros w Hw. apply Hker. apply Hhom. exact Hw. }
  pose proof (upper_kernel_trivial_diag n (mval m') Hup Hker') as Hdiag.
  destruct (back_loop_ok n m' rhs' Hwf' Hwr' n (replicate n zero_frac) ltac:(lia)
              (wf_replicate_zero n) Hdiag) as (x & -> & Hwx & _ & Heqs).
  exists x. split; [reflexivity|]. split; [exact Hwx|].
  apply Hsat. apply upper_sat; [exact Hup|exact Heqs].
Qed.

(** On a square system whose rows are linearly dependent, forward
    elimination ends with a zero on the diagonal and the division of back
    substitution raises the zero-denominator error. *)
Lemma solve_singular n m rhs :
  wf_matrix n m -> wf_vector n rhs -> left_kernel n (mval m) ->
  solve m rhs = Throw ZeroDenominator.
Proof.
  intros Hwf Hwr Hlk. rewrite (solve_unfold n) by exact Hwf.
  destruct (forward_spec n n m rhs 0 Hwf Hwr ltac:(lia) (lower_zero_0 n _))
    as (m' & rhs' & -> & Hwf' & Hwr' & Hup & _ & _ & Hlk').
  rewrite bind_OK. cbn [fst snd].
  apply (back_loop_fail n m' rhs' Hwf' Hwr'); [lia|apply wf_replicate_zero|].
  apply upper_left_kernel_diag; [exact Hup|]. apply Hlk'. exact Hlk.
Qed.

(** Two equal rows are linearly dependent. *)
Lemma two_equal_rows_left_kernel n m :
  two_equal_rows n m -> left_kernel n (mval m).
Proof.
  intros (i & j & row & Hij & Hj & Hi' & Hj').
  exists (fun r => (if Nat.eqb r i then 1 else 0) + (if Nat.eqb r j then -(1) else 0)).
  split.
  - exists i. split; [lia|]. rewrite Nat.eqb_refl.
    destruct (Nat.eqb_spec i j); [lia|]. discriminate.
  - intros c Hc. rewrite (sum_from_pick2 0 n i j); [| lia | lia | lia |].
    + rewrite !Nat.eqb_refl.
      destruct (Nat.eqb_spec i j); [lia|]. destruct (Nat.eqb_spec j i); [lia|].
      unfold mval, ent. rewrite Hi', Hj'. ring.
    + intros r _ Hri Hrj.
      destruct (Nat.eqb_spec r i); [contradiction|].
      destruct (Nat.eqb_spec r j); [contradiction|]. ring.
Qed.

(** Forward elimination on an upper triangular system changes nothing. *)
Lemma find_pivot_upper n m col :
  wf_matrix n m -> (col < n)%nat ->
  (forall r', (col < r' < n)%nat -> mval m r' col = 0) ->
  find_pivot m col col (n - col) = OK col.
Proof.
  intros Hwf Hcol Hz.
  destruct (find_pivot_spec n m col col (n - col) Hwf Hcol ltac:(lia) ltac:(lia))
    as (p & -> & [[Hrange Hnz]|[-> _]]); [|reflexivity].
  destruct (Nat.eq_dec p col) as [->|Hne]; [reflexivity|].
  exfalso. apply Hnz. apply Hz. lia.
Qed.

Lemma elim_rows_skip n m rhs col cnt :
  wf_matrix n m -> (col < n)%nat ->
  forall r, (r + cnt = n)%nat ->
  (forall r', (r <= r' < n)%nat -> mval m r' col = 0) ->
  elim_rows n m rhs col r cnt = OK (m, rhs).
Proof.
  intros Hwf Hcol. induction cnt as [|cnt IH]; intros r Hn Hz; cbn [elim_rows]; [reflexivity|].
  rewrite (get_wf n m r col) by (assumption || lia). rewrite bind_OK.
  destruct (Z.eqb_spec (num (ent m r col)) 0) as [_|Hnz].
  - apply IH; [lia|]. intros r' Hr'. apply Hz. lia.
  - exfalso. apply Hnz. apply (mval_zero_iff n m r col Hwf). apply Hz. lia.
Qed.

Lemma forward_upper n m rhs cnt :
  wf_matrix n m -> lower_zero n n (mval m) ->
  forall col, (col + cnt = n)%nat -> forward n m rhs col cnt = OK (m, rhs).
Proof.
  intros Hwf Hup. induction cnt as [|cnt IH]; intros col Hn; cbn [forward]; [reflexivity|].
  unfold forward_step.
  rewrite (find_pivot_upper n) by (try assumption; try lia; intros r' Hr'; apply Hup; lia).
  rewrite bind_OK, Nat.eqb_refl, bind_OK. cbn [fst snd].
  rewrite (elim_rows_skip n) by (try assumption; try lia; intros r' Hr'; apply Hup; lia).
  rewrite bind_OK. cbn [fst snd]. apply IH. lia.
Qed.

(** The arrays as [solve] leaves them give the same outcome when [solve]
    is run on them again. *)
Lemma solve_again n m rhs m' rhs' :
  wf_matrix n m -> wf_vector n rhs ->
  solve_arrays m rhs = OK (m', rhs') -> solve m' rhs' = solve m rhs.
Proof.
  intros Hwf Hwr Harr. unfold solve_arrays in Harr.
  pose proof Hwf as [Hlen _]. rewrite Hlen in Harr.
  destruct (forward_spec n n m rhs 0 Hwf Hwr ltac:(lia) (lower_zero_0 n _))
    as (m1 & rhs1 & Hfw & Hwf' & Hwr' & Hup & _).
  rewrite Hfw in Harr. injection Harr as <- <-.
  rewrite (solve_unfold n m rhs) by exact Hwf. rewrite Hfw, bind_OK. cbn [fst snd].
  rewrite (solve_unfold n m1 rhs1) by exact Hwf'.
  rewrite (forward_upper n m1 rhs1 n Hwf' Hup 0) by lia. reflexivity.
Qed.

Lemma solve_arrays_ok n m rhs :
  wf_matrix n m -> wf_vector n rhs -> exists st, solve_arrays m rhs = OK st.
Proof.
  intros Hwf Hwr. unfold solve_arrays. pose proof Hwf as [Hlen _]. rewrite Hlen.
  destruct (forward_spec n n m rhs 0 Hwf Hwr ltac:(lia) (lower_zero_0 _ _))
    as (m1 & rhs1 & -> & _). eauto.
Qed.

End Solve.


(** ** The system builders *)

Section Builders.

Lemma read_Some {A} (l : list A) i a : l !! i = Some a -> read l i = OK a.
Proof. intros H. unfold read. rewrite H. reflexivity. Qed.

Lemma build_row_spec (xi : Z) (k cnt : nat) :
  forall j row,
    length row = k -> j + cnt = k ->
    Exact.build_row xi row j cnt (xi ^ Z.of_nat j)
    = OK (take j row ++ ((fun t => Frac (xi ^ Z.of_nat t) 1) <$> seq j cnt)).
Proof.
  induction cnt as [|cnt IH]; intros j row Hlen Hn; cbn [Exact.build_row].
  - cbn. rewrite app_nil_r, take_ge by lia. reflexivity.
  - rewrite makeFrac_integer, bind_OK.
    replace (xi ^ Z.of_nat j * xi)%Z with (xi ^ Z.of_nat (S j))%Z
      by (rewrite Nat2Z.inj_succ, Z.pow_succ_r by lia; ring).
    rewrite IH by (rewrite ?length_insert; lia).
    rewrite (take_S_r _ j (Frac (xi ^ Z.of_nat j) 1))
      by (apply list_lookup_insert_eq; lia).
    rewrite take_insert_ge by lia. cbn [seq fmap list_fmap].
    rewrite <- app_assoc. reflexivity.
Qed.

Lemma build_rows_spec (points : list Exact.point) (k cnt : nat) :
  length points = k ->
  forall i A b,
    length A = k -> Forall (fun row => length row = k) A -> length b = k ->
    i + cnt = k ->
    Exact.build_rows points k A b i cnt
    = OK (take i A ++ ((fun p => vander_row k (Exact.pt_x p)) <$> drop i points),
          take i b ++ ((fun p => Frac (Exact.pt_y p) 1) <$> drop i points)).
Proof.
  intros Hpts. induction cnt as [|cnt IH]; intros i A b HA Hrows Hb Hn;
    cbn [Exact.build_rows].
  - rewrite drop_ge by lia. cbn. rewrite !app_nil_r, !take_ge by lia. reflexivity.
  - destruct (lookup_lt_is_Some_2 points i ltac:(lia)) as [p Hp].
    destruct (lookup_lt_is_Some_2 A i ltac:(lia)) as [row0 Hrow0].
    rewrite (read_Some points i p Hp), bind_OK.
    rewrite (read_Some A i row0 Hrow0), bind_OK.
    pose proof (build_row_spec (Exact.pt_x p) k k 0 row0) as Hrow.
    rewrite Z.pow_0_r in Hrow.
    rewrite Hrow by (try lia; exact (Forall_lookup_1 _ _ _ _ Hrows Hrow0)).
    rewrite bind_OK, take_0, app_nil_l, makeFrac_integer, bind_OK.
    rewrite IH; try (rewrite ?length_insert; lia).
    + rewrite (take_S_r _ i (vander_row k (Exact.pt_x p)))
        by (apply list_lookup_insert_eq; lia).
      rewrite (take_S_r _ i (Frac (Exact.pt_y p) 1))
        by (apply list_lookup_insert_eq; lia).
      rewrite !take_insert_ge by lia.
      rewrite (drop_S _ _ _ Hp). cbn [fmap list_fmap].
      rewrite <- !app_assoc. reflexivity.
    + apply Forall_insert; [exact Hrows|]. unfold vander_row.
      rewrite length_fmap, length_seq. reflexivity.
Qed.

(** The builder of [main]: row [i] is the Vandermonde row of [x_i] and
    entry [i] of the right-hand side is [y_i], each as a fraction of
    denominator 1. *)
Lemma main_build_spec (points : list Exact.point) :
  main_build points (length points)
  = OK ((fun p => vander_row (length points) (Exact.pt_x p)) <$> points,
        (fun p => Frac (Exact.pt_y p) 1) <$> points).
Proof.
  unfold main_build. rewrite makeFrac_integer, bind_OK.
  rewrite (build_rows_spec points (length points) (length points) eq_refl 0).
  - rewrite !take_0, drop_0. reflexivity.
  - apply length_replicate.
  - apply Forall_replicate. apply length_replicate.
  - apply length_replicate.
  - lia.
Qed.

Lemma buildSystem_row_spec (xi : float) (k cnt : nat) :
  forall j row,
    length row = k -> j + cnt = k ->
    Approx.buildSystem_row xi row j cnt (fpow xi j)
    = take j row ++ (fpow xi <$> seq j cnt).
Proof.
  induction cnt as [|cnt IH]; intros j row Hlen Hn; cbn [Approx.buildSystem_row].
  - cbn. rewrite app_nil_r, take_ge by lia. reflexivity.
  - change (fpow xi j * xi)%float with (fpow xi (S j)).
    rewrite IH by (rewrite ?length_insert; lia).
    rewrite (take_S_r _ j (fpow xi j)) by (apply list_lookup_insert_eq; lia).
    rewrite take_insert_ge by lia. cbn [seq fmap list_fmap].
    rewrite <- app_assoc. reflexivity.
Qed.

Lemma buildSystem_rows_spec (points : list Approx.point) (k cnt : nat) :
  length points = k ->
  forall i A b,
    length A = k -> Forall (fun row => length row = k) A -> length b = k ->
    i + cnt = k ->
    Approx.buildSystem_rows points k A b i cnt
    = OK (take i A ++ ((fun p => vander_row_float k (Approx.pt_x p)) <$> drop i points),
          take i b ++ (Approx.pt_y <$> drop i points)).
Proof.
  intros Hpts. induction cnt as [|cnt IH]; intros i A b HA Hrows Hb Hn;
    cbn [Approx.buildSystem_rows].
  - rewrite drop_ge by lia. cbn. rewrite !app_nil_r, !take_ge by lia. reflexivity.
  - destruct (lookup_lt_is_Some_2 points i ltac:(lia)) as [p Hp].
    destruct (lookup_lt_is_Some_2 A i ltac:(lia)) as [row0 Hrow0].
    rewrite (read_Some points i p Hp), bind_OK.
    rewrite (read_Some A i row0 Hrow0), bind_OK.
    pose proof (buildSystem_row_spec (Approx.pt_x p) k k 0 row0) as Hrow.
    cbn [fpow] in Hrow.
    rewrite Hrow by (try lia; exact (Forall_lookup_1 _ _ _ _ Hrows Hrow0)).
    rewrite take_0, app_nil_l.
    rewrite IH; try (rewrite ?length_insert; lia).
    + rewrite (take_S_r _ i (vander_row_float k (Approx.pt_x p)))
        by (apply list_lookup_insert_eq; lia).
      rewrite (take_S_r _ i (Approx.pt_y p)) by (apply list_lookup_insert_eq; lia).
      rewrite !take_insert_ge by lia.
      rewrite (drop_S _ _ _ Hp). cbn [fmap list_fmap].
      rewrite <- !app_assoc. reflexivity.
    + apply Forall_insert; [exact Hrows|]. unfold vander_row_float.
      rewrite length_fmap, length_seq. reflexivity.
Qed.

End Builders.

(** C6.  With [k] points and [degree = k - 1], [buildSystem] returns the
    [k] x [k] matrix whose row [i] is [1, x_i, x_i^2, ..., x_i^(k-1)] (the
    powers as the code computes them, by repeated multiplication of
    Numbers) and the vector of the [y_i]; the builder of [main] in
    [index2.js] returns the same system in exact arithmetic, every entry a
    fraction of denominator 1.  Column 0 holds the power 0, the coefficient
    of the constant term. *)
Theorem buildSystem_vandermonde :
  (forall points : list Approx.point,
     let k := length points in
     Approx.buildSystem points (Z.of_nat k - 1)
     = OK ((fun p => vander_row_float k (Approx.pt_x p)) <$> points,
           Approx.pt_y <$> points))
  /\ (forall points : list Exact.point,
        let k := length points in
        main_build points k
        = OK ((fun p => vander_row k (Exact.pt_x p)) <$> points,
              (fun p => Frac (Exact.pt_y p) 1) <$> points))
  /\ (forall k x, vander_row_float (S k) x !! 0 = Some 1%float)
  /\ (forall k x, vander_row (S k) x !! 0 = Some (Frac 1 1)).
Proof.
  split; [|split; [|split]].
  - intros points k. unfold Approx.buildSystem.
    replace (Z.of_nat k - 1 + 1)%Z with (Z.of_nat k) by lia.
    destruct (Z.ltb_spec (Z.of_nat k) 0) as [?|_]; [lia|].
    rewrite Nat2Z.id.
    rewrite (buildSystem_rows_spec points k k eq_refl 0).
    + rewrite !take_0, drop_0. reflexivity.
    + apply length_replicate.
    + apply Forall_replicate. apply length_replicate.
    + apply length_replicate.
    + lia.
  - intros points k. apply main_build_spec.
  - reflexivity.
  - reflexivity.
Qed.


(** ** The round trip: shares of a polynomial, decoded and interpolated *)

Section RoundTrip.
Local Open Scope Qc_scope.

Lemma zq_pow (x : Z) (j : nat) : zq (x ^ Z.of_nat j) = zq x ^ j.
Proof.
  induction j as [|j IH]; [reflexivity|].
  rewrite Nat2Z.inj_succ, Z.pow_succ_r by lia. rewrite zq_mul, IH. reflexivity.
Qed.

Lemma zq_Zpeval (p : list Z) (x : Z) : zq (Zpeval p x) = peval (zq <$> p) (zq x).
Proof.
  induction p as [|a p IH]; [reflexivity|].
  cbn [Zpeval fmap list_fmap peval]. rewrite zq_add, zq_mul, IH. reflexivity.
Qed.

Lemma peval_sum (n : nat) (x : Qc) :
  forall w : nat -> Qc, peval (w <$> seq 0 n) x = sum_from 0 n (fun j => x ^ j * w j).
Proof.
  induction n as [|n IH]; intros w; [reflexivity|].
  cbn [seq fmap list_fmap peval sum_from].
  rewrite <- fmap_S_seq, <- list_fmap_compose, IH.
  rewrite sum_from_shift, <- sum_from_scal.
  f_equal; [cbn [Qcpower]; ring|].
  apply sum_from_ext. intros j _. cbn [Qcpower compose]. ring.
Qed.

Local Abbreviation V := nodes_matrix.

Lemma sat_ext n U U' b b' v :
  (forall r c, (r < n)%nat -> (c < n)%nat -> U' r c = U r c) ->
  (forall r, (r < n)%nat -> b' r = b r) ->
  sat n U b v -> sat n U' b' v.
Proof.
  intros HU Hb H r Hr. rewrite Hb by exact Hr. rewrite <- (H r Hr).
  apply sum_from_ext. intros c Hc. rewrite HU by lia. reflexivity.
Qed.

(** A polynomial of degree below [n] that vanishes at 1, ..., n is zero. *)
Lemma vandermonde_kernel_trivial n : kernel_trivial n V.
Proof.
  intros w Hw.
  assert (Hzero : Forall (fun a => a = 0) (w <$> seq 0 n)).
  { apply (poly_roots_zero ((fun r => zq (Z.of_nat (S r))) <$> seq 0 n)).
    - apply NoDup_fmap_2; [|apply NoDup_seq].
      intros r r' Heq. apply zq_inj in Heq. lia.
    - rewrite !length_fmap. reflexivity.
    - intros x Hx. apply list_elem_of_In, list_elem_of_fmap in Hx.
      destruct Hx as (r & -> & Hr). apply elem_of_seq in Hr.
      rewrite peval_sum. apply (Hw r). lia. }
  intros j Hj.
  apply (Forall_lookup_1 _ _ j (w j) Hzero).
  rewrite list_lookup_fmap, lookup_seq_lt by exact Hj. reflexivity.
Qed.

Variable coeffs : list Z.
Local Abbreviation k := (length coeffs).
Local Abbreviation P := (share_value coeffs).
Local Abbreviation pts := (share_points coeffs).
Local Abbreviation A := (share_matrix coeffs).
Local Abbreviation b := (share_rhs coeffs).
Local Abbreviation v0 := (coeff_value coeffs).

Lemma shares_points_length : length pts = k.
Proof. unfold share_points. rewrite length_fmap, length_seq. reflexivity. Qed.

Lemma shares_matrix_lookup r : (r < k)%nat -> A !! r = Some (vander_row k (Z.of_nat (S r))).
Proof.
  intros Hr. unfold share_matrix, share_points. rewrite !list_lookup_fmap, lookup_seq_lt by exact Hr.
  reflexivity.
Qed.

Lemma shares_rhs_lookup r : (r < k)%nat -> b !! r = Some (Frac (P (S r)) 1).
Proof.
  intros Hr. unfold share_rhs, share_points. rewrite !list_lookup_fmap, lookup_seq_lt by exact Hr.
  reflexivity.
Qed.

Lemma shares_matrix_wf : wf_matrix k A.
Proof.
  split; [unfold share_matrix; rewrite length_fmap; apply shares_points_length|].
  unfold share_matrix. apply Forall_fmap, Forall_forall. intros p _. cbn. unfold vander_row. split.
  - rewrite length_fmap, length_seq. reflexivity.
  - apply Forall_fmap, Forall_forall. intros j _. apply canonical_integer.
Qed.

Lemma shares_rhs_wf : wf_vector k b.
Proof.
  split; [unfold share_rhs; rewrite length_fmap; apply shares_points_length|].
  unfold share_rhs. apply Forall_fmap, Forall_forall. intros p _. apply canonical_integer.
Qed.

Lemma shares_matrix_value r c : (r < k)%nat -> (c < k)%nat -> mval A r c = V r c.
Proof.
  intros Hr Hc. unfold mval, ent. rewrite (shares_matrix_lookup r Hr). unfold vander_row.
  rewrite list_lookup_fmap, lookup_seq_lt by exact Hc.
  cbn [fmap option_fmap option_map default id]. rewrite Nat.add_0_l.
  rewrite qval_integer_zq. apply zq_pow.
Qed.

Lemma shares_rhs_value r : (r < k)%nat -> vval b r = zq (P (S r)).
Proof.
  intros Hr. unfold vval, vent. rewrite (shares_rhs_lookup r Hr). reflexivity.
Qed.

Lemma shares_matrix_kernel_trivial : kernel_trivial k (mval A).
Proof.
  intros w Hw. apply (vandermonde_kernel_trivial k).
  apply (sat_ext k (mval A) V (fun _ => 0) (fun _ => 0)); [|reflexivity|exact Hw].
  intros r c Hr Hc. symmetry. apply shares_matrix_value; assumption.
Qed.

(** The coefficients of the polynomial solve the system. *)
Lemma coeffs_sat : sat k (mval A) (vval b) v0.
Proof.
  apply (sat_ext k V (mval A) (fun r => zq (P (S r))) (vval b));
    [intros; apply shares_matrix_value; assumption|intros; apply shares_rhs_value; assumption|].
  intros r Hr. unfold nodes_matrix. rewrite <- peval_sum. unfold share_value. rewrite zq_Zpeval. f_equal.
  apply list_eq. intros j. rewrite !list_lookup_fmap.
  destruct (Nat.lt_ge_cases j k) as [Hj|Hj].
  - rewrite lookup_seq_lt by exact Hj. unfold coeff_value.
    destruct (lookup_lt_is_Some_2 coeffs j Hj) as [a Ha].
    cbn [fmap option_fmap option_map]. rewrite Nat.add_0_l, Ha. reflexivity.
  - rewrite lookup_seq_ge by exact Hj. rewrite (lookup_ge_None_2 coeffs j Hj). reflexivity.
Qed.

(** The exact solver on the Vandermonde system of the points returns the
    coefficients of the polynomial, each with denominator 1. *)
Lemma solve_vandermonde : solve A b = OK ((fun a => Frac a 1) <$> coeffs).
Proof.
  destruct (solve_ok k A b shares_matrix_wf shares_rhs_wf shares_matrix_kernel_trivial) as (x & -> & [Hlen Hcan] & Hsat).
  f_equal. apply list_eq. intros j. rewrite list_lookup_fmap.
  destruct (Nat.lt_ge_cases j k) as [Hj|Hj].
  2:{ rewrite (lookup_ge_None_2 x j) by lia.
      rewrite (lookup_ge_None_2 coeffs j Hj). reflexivity. }
  destruct (lookup_lt_is_Some_2 x j ltac:(lia)) as [e He].
  destruct (lookup_lt_is_Some_2 coeffs j Hj) as [a Ha].
  rewrite He, Ha. cbn. f_equal.
  apply qval_inj; [exact (Forall_lookup_1 _ _ _ _ Hcan He)|apply canonical_integer|].
  assert (Hdiff : forall j', (j' < k)%nat -> vval x j' - v0 j' = 0).
  { apply (shares_matrix_kernel_trivial (fun j' => vval x j' - v0 j')).
    intros r Hr.
    transitivity (sum_from 0 k (fun c => mval A r c * vval x c)
                  - sum_from 0 k (fun c => mval A r c * v0 c)).
    - rewrite <- sum_from_minus. apply sum_from_ext. intros c _. ring.
    - rewrite (Hsat r Hr), (coeffs_sat r Hr). ring. }
  pose proof (Hdiff j Hj) as H. unfold vval, vent, coeff_value in H. rewrite He, Ha in H.
  cbn [default id] in H. rewrite qval_integer_zq.
  transitivity (qval e - zq a + zq a); [ring|]. rewrite H. ring.
Qed.

Variable bases : nat -> Z.
Hypothesis bases_ok : forall i, (1 <= i <= k)%nat -> (2 <= bases i <= 36)%Z.
Hypothesis shares_nonneg : forall i, (1 <= i <= k)%nat -> (0 <= P i)%Z.

Lemma main_points_shares cnt :
  forall i acc,
    (1 <= i)%nat -> (i + cnt = S k)%nat ->
    main_points (shares coeffs bases k) i cnt acc
    = OK (acc ++ ((fun t => Exact.Point (Z.of_nat t) (P t)) <$> seq i cnt)).
Proof.
  induction cnt as [|cnt IH]; intros i acc Hi Hn; cbn [main_points].
  - cbn. rewrite app_nil_r. reflexivity.
  - assert (Hlk : shares coeffs bases k !! (i - 1)%nat
                  = Some (Entry (JsInt (bases i)) (encode (bases i) (P i)))).
    { unfold shares. rewrite list_lookup_fmap, lookup_seq_lt by lia.
      replace (1 + (i - 1))%nat with i by lia. reflexivity. }
    rewrite (read_Some _ _ _ Hlk), bind_OK. cbn [Exact.value Exact.base].
    rewrite parseInBase_encode by (apply bases_ok || apply shares_nonneg; lia).
    rewrite bind_OK, IH by lia.
    cbn [seq fmap list_fmap]. rewrite <- app_assoc. reflexivity.
Qed.

Lemma main_coeff_shares :
  main_coeff (shares coeffs bases k) k = OK ((fun a => Frac a 1) <$> coeffs).
Proof.
  unfold main_coeff. rewrite (main_points_shares k 1 []) by lia.
  rewrite bind_OK, app_nil_l. fold (share_value coeffs). fold (share_points coeffs).
  pose proof (main_build_spec pts) as Hbuild. rewrite shares_points_length in Hbuild.
  rewrite Hbuild, bind_OK. cbn [fst snd]. apply solve_vandermonde.
Qed.

End RoundTrip.


(** ** The properties of the exact pipeline *)

(** C1, as the code has it.  Take a polynomial with integer coefficients
    [coeffs] (at least one, so of degree at most [k - 1] for
    [k = length coeffs]) whose values at 1, ..., k are not negative, and
    write each value in a base of [2, 36].  Then [main] decodes the [k]
    shares, builds the Vandermonde system and solves it, and the coefficient
    vector it gets is the list of the coefficients, each with denominator
    1; entry 0 is the value of the polynomial at 0, which is what [main]
    prints. *)
Theorem roundtrip_recovers_constant_term (coeffs : list Z) (bases : nat -> Z) :
  coeffs <> [] ->
  (forall i, 1 <= i <= length coeffs -> (2 <= bases i <= 36)%Z) ->
  (forall i, 1 <= i <= length coeffs -> (0 <= Zpeval coeffs (Z.of_nat i))%Z) ->
  let k := length coeffs in
  exists coeff,
    main_coeff (shares coeffs bases k) k = OK coeff
    /\ coeff = (fun a => Frac a 1) <$> coeffs
    /\ coeff !! 0 = Some (Frac (Zpeval coeffs 0) 1)
    /\ main (shares coeffs bases k) k = OK (Zpeval coeffs 0).
Proof.
  intros Hne Hbases Hpos k.
  pose proof (main_coeff_shares coeffs bases Hbases Hpos) as Hmain. fold k in Hmain.
  assert (H0 : ((fun a => Frac a 1) <$> coeffs) !! 0 = Some (Frac (Zpeval coeffs 0) 1)).
  { destruct coeffs as [|a0 rest]; [contradiction|]. cbn. do 2 f_equal. lia. }
  exists ((fun a => Frac a 1) <$> coeffs).
  split; [exact Hmain|]. split; [reflexivity|]. split; [exact H0|].
  unfold main. rewrite Hmain, bind_OK, (read_Some _ _ _ H0), bind_OK.
  cbn [den num]. rewrite Z.quot_1_r. reflexivity.
Qed.

Lemma roundtrip_recovers_constant_term_witness :
  exists coeff,
    main_coeff (shares [3; 2]%Z (fun _ => 16%Z) 2) 2 = OK coeff
    /\ coeff = (fun a => Frac a 1) <$> [3; 2]%Z
    /\ coeff !! 0 = Some (Frac (Zpeval [3; 2]%Z 0) 1)
    /\ main (shares [3; 2]%Z (fun _ => 16%Z) 2) 2 = OK (Zpeval [3; 2]%Z 0).
Proof.
  apply (roundtrip_recovers_constant_term [3; 2]%Z (fun _ => 16%Z)).
  - discriminate.
  - intros i Hi. lia.
  - intros i Hi. cbn. lia.
Defined.

(** C1 as stated fails for a polynomial with a negative value at a sample
    point: [-x] has the value -1 at 1, its numeral starts with a minus sign,
    which is not a digit, and the decoder raises (no string at all decodes
    to a negative integer). *)
Lemma roundtrip_fails_on_negative_share :
  ~ (forall (coeffs : list Z) (bases : nat -> Z),
       coeffs <> [] ->
       (forall i, (2 <= bases i <= 36)%Z) ->
       exists coeff,
         main_coeff (shares coeffs bases (length coeffs)) (length coeffs) = OK coeff
         /\ coeff !! 0 = Some (Frac (Zpeval coeffs 0) 1)).
Proof.
  intros H.
  destruct (H [0; -1]%Z (fun _ => 10%Z)) as (coeff & Hc & _).
  - discriminate.
  - intros i. lia.
  - vm_compute in Hc. discriminate Hc.
Qed.

(** C2 (two identical rows).  [solve] has no test for a singular matrix:
    the search for a pivot falls back on row [col], elimination goes on,
    and back substitution divides by the zero on the diagonal, so the
    error is the zero-denominator error of [makeFrac].  [solveLinearSystem]
    does have the test, on a largest absolute value equal to 0; when an
    intermediate value has overflowed that value is NaN, the test lets it
    pass and a vector of NaN is returned. *)
Theorem solvers_on_two_identical_rows :
  solve [[Frac 1 1; Frac 1 1]; [Frac 1 1; Frac 1 1]] [Frac 1 1; Frac 1 1]
  = Throw ZeroDenominator
  /\ Approx.solveLinearSystem_on [[1; 2]; [1; 2]]%float [1; 1]%float
     = Throw SingularMatrix
  /\ Approx.solveLinearSystem_on
       [[1; 0x1p1023; 0x1p1023]; [1; 0x1p1023; 0x1p1023]; [-1; 0x1p1023; 0x1p1023]]%float
       [1; 1; 1]%float
     = OK [nan; nan; nan]%float.
Proof. repeat split; vm_compute; reflexivity. Qed.

(** X1.  The exact solver on any square matrix of canonical fractions
    with two identical rows: the zero-denominator error, never a vector. *)
Theorem solve_two_equal_rows n m rhs :
  wf_matrix n m -> wf_vector n rhs -> two_equal_rows n m ->
  solve m rhs = Throw ZeroDenominator.
Proof.
  intros Hwf Hwr Heq. apply (solve_singular n); [assumption..|].
  apply two_equal_rows_left_kernel. exact Heq.
Qed.

Lemma wf_matrix_2x2 (a b c d : frac) :
  canonical a -> canonical b -> canonical c -> canonical d ->
  wf_matrix 2 [[a; b]; [c; d]].
Proof.
  intros Ha Hb Hc Hd. split; [reflexivity|]. forall_list; assumption.
Qed.

Lemma wf_vector_2 (a b : frac) : canonical a -> canonical b -> wf_vector 2 [a; b].
Proof. intros Ha Hb. split; [reflexivity|]. forall_list; assumption. Qed.

Lemma solve_two_equal_rows_witness :
  solve [[Frac 1 2; Frac 3 1]; [Frac 1 2; Frac 3 1]] [Frac 1 1; Frac 2 1]
  = Throw ZeroDenominator.
Proof.
  apply (solve_two_equal_rows 2).
  - apply wf_matrix_2x2; split; cbn; (lia || reflexivity).
  - apply wf_vector_2; split; cbn; (lia || reflexivity).
  - exists 0, 1, [Frac 1 2; Frac 3 1]. repeat split; (lia || reflexivity).
Defined.

(** C9.  [solve] is a function of the contents of its arguments: on a
    square system of canonical fractions, equal arguments give the same
    outcome (the same vector of fractions, or the same error); and a second
    run on the very arrays of the first run, as forward elimination left
    them, gives that outcome again. *)
Theorem solve_deterministic n m rhs m2 rhs2 :
  wf_matrix n m -> wf_vector n rhs -> m2 = m -> rhs2 = rhs ->
  solve m2 rhs2 = solve m rhs
  /\ exists st, solve_arrays m rhs = OK st /\ solve st.1 st.2 = solve m rhs.
Proof.
  intros Hwf Hwr -> ->. split; [reflexivity|].
  destruct (solve_arrays_ok n m rhs Hwf Hwr) as ([m' rhs'] & Hst).
  exists (m', rhs'). split; [exact Hst|]. apply (solve_again n); assumption.
Qed.

Lemma solve_deterministic_witness :
  solve [[Frac 0 1; Frac 1 1]; [Frac 1 1; Frac 1 1]] [Frac 1 1; Frac 3 1]
  = solve [[Frac 0 1; Frac 1 1]; [Frac 1 1; Frac 1 1]] [Frac 1 1; Frac 3 1]
  /\ exists st,
       solve_arrays [[Frac 0 1; Frac 1 1]; [Frac 1 1; Frac 1 1]] [Frac 1 1; Frac 3 1] = OK st
       /\ solve st.1 st.2
          = solve [[Frac 0 1; Frac 1 1]; [Frac 1 1; Frac 1 1]] [Frac 1 1; Frac 3 1].
Proof.
  apply (solve_deterministic 2).
  - apply wf_matrix_2x2; split; cbn; (lia || reflexivity).
  - apply wf_vector_2; split; cbn; (lia || reflexivity).
  - reflexivity.
  - reflexivity.
Defined.

(** X2.  On a square system of canonical fractions whose matrix sends only
    the zero vector to zero, the exact solver returns a vector of canonical
    fractions that solves the system. *)
Theorem solve_returns_solution n m rhs :
  wf_matrix n m -> wf_vector n rhs -> kernel_trivial n (mval m) ->
  exists x, solve m rhs = OK x /\ wf_vector n x /\ sat n (mval m) (vval rhs) (vval x).
Proof. apply solve_ok. Qed.

Lemma solve_returns_solution_witness :
  exists x, solve [[Frac 2 1]] [Frac 1 1] = OK x /\ wf_vector 1 x
            /\ sat 1 (mval [[Frac 2 1]]) (vval [Frac 1 1]) (vval x).
Proof.
  apply (solve_returns_solution 1).
  - split; [reflexivity|]. forall_list; split; cbn; (lia || reflexivity).
  - split; [reflexivity|]. forall_list; split; cbn; (lia || reflexivity).
  - intros w Hw j Hj. assert (j = 0) as -> by lia.
    specialize (Hw 0 ltac:(lia)). cbn [sum_from] in Hw.
    change (mval [[Frac 2 1]] 0 0) with (zq 2) in Hw.
    rewrite Qcplus_0_r in Hw. apply Qcmult_integral in Hw.
    destruct Hw as [Hw|Hw]; [discriminate Hw|exact Hw].
Defined.

(** X3.  Decoding the numeral of a non-negative integer, in a base of
    [2, 36], gives the integer back. *)
Theorem decode_encode (b n : Z) :
  (2 <= b <= 36)%Z -> (0 <= n)%Z -> parseInBase (encode b n) (JsInt b) = OK n.
Proof. apply parseInBase_encode. Qed.

Lemma decode_encode_witness : parseInBase (encode 16 255) (JsInt 16) = OK 255%Z.
Proof. apply (decode_encode 16 255); lia. Defined.

(** X4.  The loop of [gcd] returns the greatest common divisor, which is
    never negative. *)
Theorem gcd_is_Zgcd (a b : Z) : gcd a b = Z.gcd a b /\ (0 <= gcd a b)%Z.
Proof. split; [apply gcd_spec|apply gcd_nonneg]. Qed.

Lemma parse_loop_decodes (b : Z) (s : string) :
  forall acc,
    parse_loop s b acc =
    match find (fun ch => (indexOf DIGITS ch <? 0)%Z) (list_ascii_of_string s) with
    | Some ch => Throw (InvalidDigit ch)
    | None =>
        OK (fold_left (fun acc ch => (acc * b + indexOf DIGITS ch)%Z)
              (list_ascii_of_string s) acc)
    end.
Proof.
  induction s as [|ch s' IH]; intros acc; [reflexivity|].
  cbn [parse_loop list_ascii_of_string find fold_left].
  destruct (indexOf DIGITS ch <? 0)%Z; [reflexivity|]. apply IH.
Qed.

(** X5.  What [parseInBase] computes with an integral base, whatever the
    base: it raises on the first character that, once in lower case, is not
    one of the 36 digits, and otherwise returns the accumulation
    [result * base + digit] over the characters, from the left. *)
Theorem parseInBase_decodes (s : string) (b : Z) :
  parseInBase s (JsInt b) =
  match find (fun ch => (indexOf DIGITS ch <? 0)%Z) (list_ascii_of_string (toLowerCase s)) with
  | Some ch => Throw (InvalidDigit ch)
  | None =>
      OK (fold_left (fun acc ch => (acc * b + indexOf DIGITS ch)%Z)
            (list_ascii_of_string (toLowerCase s)) 0%Z)
  end.
Proof.
  unfold parseInBase. cbn [BigInt]. rewrite bind_OK. apply parse_loop_decodes.
Qed.

(** X6.  On canonical fractions the value of what [add], [sub], [mul] and
    [div] return is the sum, the difference, the product and the quotient
    of the values of the operands. *)
Theorem arithmetic_values (a b : frac) :
  canonical a -> canonical b ->
  (forall c, add a b = OK c -> qval c = (qval a + qval b)%Qc)
  /\ (forall c, sub a b = OK c -> qval c = (qval a - qval b)%Qc)
  /\ (forall c, mul a b = OK c -> qval c = (qval a * qval b)%Qc)
  /\ (forall c, div a b = OK c -> qval c = (qval a / qval b)%Qc).
Proof.
  intros Ha Hb.
  destruct (add_spec a b Ha Hb) as (c1 & H1 & _ & V1).
  destruct (sub_spec a b Ha Hb) as (c2 & H2 & _ & V2).
  destruct (mul_spec a b Ha Hb) as (c3 & H3 & _ & V3).
  repeat split; intros c Hc.
  - rewrite H1 in Hc. injection Hc as <-. exact V1.
  - rewrite H2 in Hc. injection Hc as <-. exact V2.
  - rewrite H3 in Hc. injection Hc as <-. exact V3.
  - destruct (Z.eq_dec (num b) 0%Z) as [Hz|Hnz].
    + rewrite (div_by_zero a b Hz) in Hc. discriminate Hc.
    + destruct (div_spec a b Ha Hb Hnz) as (c4 & H4 & _ & V4).
      rewrite H4 in Hc. injection Hc as <-. exact V4.
Qed.

Lemma arithmetic_values_witness :
  (forall c, add (Frac 1 2) (Frac 1 3) = OK c -> qval c = (qval (Frac 1 2) + qval (Frac 1 3))%Qc)
  /\ (forall c, sub (Frac 1 2) (Frac 1 3) = OK c -> qval c = (qval (Frac 1 2) - qval (Frac 1 3))%Qc)
  /\ (forall c, mul (Frac 1 2) (Frac 1 3) = OK c -> qval c = (qval (Frac 1 2) * qval (Frac 1 3))%Qc)
  /\ (forall c, div (Frac 1 2) (Frac 1 3) = OK c -> qval c = (qval (Frac 1 2) / qval (Frac 1 3))%Qc).
Proof.
  apply (arithmetic_values (Frac 1 2) (Frac 1 3)); split; cbn; (lia || reflexivity).
Defined.

(** X8.  Forward elimination never raises on a square system of canonical
    fractions: it leaves an upper triangular system of canonical fractions
    that has exactly the solutions of the system it started from. *)
Theorem forward_elimination_triangular n m rhs :
  wf_matrix n m -> wf_vector n rhs ->
  exists m' rhs',
    solve_arrays m rhs = OK (m', rhs')
    /\ wf_matrix n m' /\ wf_vector n rhs'
    /\ lower_zero n n (mval m')
    /\ forall v, sat n (mval m) (vval rhs) v <-> sat n (mval m') (vval rhs') v.
Proof.
  intros Hwf Hwr. unfold solve_arrays. pose proof Hwf as [Hlen _]. rewrite Hlen.
  destruct (forward_spec n n m rhs 0 Hwf Hwr ltac:(lia) (lower_zero_0 n _))
    as (m' & rhs' & Hfw & Hwf' & Hwr' & Hup & Hsat & _).
  exists m', rhs'. auto.
Qed.

Lemma forward_elimination_triangular_witness :
  exists m' rhs',
    solve_arrays [[Frac 0 1; Frac 1 1]; [Frac 1 1; Frac 1 1]] [Frac 1 1; Frac 3 1]
    = OK (m', rhs')
    /\ wf_matrix 2 m' /\ wf_vector 2 rhs'
    /\ lower_zero 2 2 (mval m')
    /\ forall v,
         sat 2 (mval [[Frac 0 1; Frac 1 1]; [Frac 1 1; Frac 1 1]])
           (vval [Frac 1 1; Frac 3 1]) v
         <-> sat 2 (mval m') (vval rhs') v.
Proof.
  apply (forward_elimination_triangular 2).
  - apply wf_matrix_2x2; split; cbn; (lia || reflexivity).
  - apply wf_vector_2; split; cbn; (lia || reflexivity).
Defined.

(** X9.  On a square system of canonical fractions [solve] has two
    outcomes only: a vector of canonical fractions that solves the system
    exactly, or the zero-denominator error. *)
Theorem solve_solution_or_zero_denominator n m rhs :
  wf_matrix n m -> wf_vector n rhs ->
  (exists x, solve m rhs = OK x /\ wf_vector n x /\ sat n (mval m) (vval rhs) (vval x))
  \/ solve m rhs = Throw ZeroDenominator.
Proof.
  intros Hwf Hwr. rewrite (solve_unfold n) by exact Hwf.
  destruct (forward_spec n n m rhs 0 Hwf Hwr ltac:(lia) (lower_zero_0 n _))
    as (m' & rhs' & -> & Hwf' & Hwr' & Hup & Hsat & _).
  rewrite bind_OK. cbn [fst snd].
  destruct (diag_zero_dec (mval m') n) as [Hzero|Hdiag].
  - right. apply (back_loop_fail n m' rhs' Hwf' Hwr'); [lia|apply wf_replicate_zero|exact Hzero].
  - left.
    destruct (back_loop_ok n m' rhs' Hwf' Hwr' n (replicate n zero_frac) ltac:(lia)
                (wf_replicate_zero n) Hdiag) as (x & -> & Hwx & _ & Heqs).
    exists x. split; [reflexivity|]. split; [exact Hwx|].
    apply Hsat. apply upper_sat; [exact Hup|exact Heqs].
Qed.

Lemma solve_solution_or_zero_denominator_witness :
  (exists x, solve [[Frac 0 1; Frac 1 1]; [Frac 1 1; Frac 1 1]] [Frac 1 1; Frac 3 1] = OK x
             /\ wf_vector 2 x
             /\ sat 2 (mval [[Frac 0 1; Frac 1 1]; [Frac 1 1; Frac 1 1]])
                  (vval [Frac 1 1; Frac 3 1]) (vval x))
  \/ solve [[Frac 0 1; Frac 1 1]; [Frac 1 1; Frac 1 1]] [Frac 1 1; Frac 3 1]
     = Throw ZeroDenominator.
Proof.
  apply (solve_solution_or_zero_denominator 2).
  - apply wf_matrix_2x2; split; cbn; (lia || reflexivity).
  - apply wf_vector_2; split; cbn; (lia || reflexivity).
Defined.

(** A run of both programs: the input document with the shares 1 (base 10),
    111 (base 2) and 12 (base 10) under the keys 1, 2, 3 and k = 3: the
    exact pipeline finds the coefficients -6, 15/2, -1/2 and prints -6; on
    the same points the approximate solver returns -6, 7.5, -0.5. *)
Example end_to_end_scenario :
  main_coeff [Entry (JsInt 10) "1"; Entry (JsInt 2) "111"; Entry (JsInt 10) "12"] 3
  = OK [Frac (-6) 1; Frac 15 2; Frac (-1) 2]
  /\ main [Entry (JsInt 10) "1"; Entry (JsInt 2) "111"; Entry (JsInt 10) "12"] 3
     = OK (-6)%Z
  /\ (st ← Approx.buildSystem
              [Approx.Point 1 1; Approx.Point 2 7; Approx.Point 3 12]%float 2;
       Approx.solveLinearSystem_on st.1 st.2)
     = OK [-6; 7.5; -0.5]%float.
Proof. repeat split; vm_compute; reflexivity. Qed.


(** ** The approximate solver and the store *)

Section Frame.
Import Approx.

Lemma hoare_bind {A B} P (m : io A) (f : A -> io B) Q R E :
  hoare P m Q E -> (forall a, hoare (Q a) (f a) R E) -> hoare P (m ≫= f) R E.
Proof.
  intros Hm Hf h HP. specialize (Hm h HP). unfold mbind, io_bind. cbn [run].
  destruct (run m h) as [[a|e] h']; [|exact Hm]. apply Hf. exact Hm.
Qed.

Lemma hoare_ret {A} (P : heap -> Prop) (a : A) (Q : A -> heap -> Prop) E :
  (forall h, P h -> Q a h) -> hoare P (mret a) Q E.
Proof. intros H h HP. cbn. apply H, HP. Qed.

Lemma hoare_throw {A} (P : heap -> Prop) e (Q : A -> heap -> Prop) (E : heap -> Prop) :
  (forall h, P h -> E h) -> hoare P (throw e) Q E.
Proof. intros H h HP. cbn. apply H, HP. Qed.

Variable h0 : heap.

Lemma frame_length h : frame h0 h -> length h0 <= length h.
Proof.
  intros Hf. destruct (Nat.le_gt_cases (length h0) (length h)) as [H|H]; [exact H|].
  exfalso. pose proof (Hf (length h) H) as Heq.
  rewrite (lookup_ge_None_2 h (length h)) in Heq by lia.
  destruct (lookup_lt_is_Some_2 h0 (length h) H) as [o Ho]. congruence.
Qed.

Lemma frame_alloc h o : frame h0 h -> frame h0 (h ++ [o]).
Proof.
  intros Hf l Hl. rewrite lookup_app_l; [apply Hf, Hl|].
  pose proof (frame_length h Hf). lia.
Qed.

Lemma frame_put h l o : frame h0 h -> length h0 <= l -> frame h0 (<[l:=o]> h).
Proof.
  intros Hf Hl l' Hl'. rewrite list_lookup_insert_ne by lia. apply Hf, Hl'.
Qed.

Lemma private_alloc M h o : private h0 M h -> private h0 M (h ++ [o]).
Proof.
  intros (HM & rows & Hrows & Hall). split; [exact HM|]. exists rows. split; [|exact Hall].
  rewrite lookup_app_l; [exact Hrows|]. apply lookup_lt_is_Some. eauto.
Qed.

Lemma private_put M h l o : private h0 M h -> l <> M -> private h0 M (<[l:=o]> h).
Proof.
  intros (HM & rows & Hrows & Hall) Hne. split; [exact HM|]. exists rows. split; [|exact Hall].
  rewrite list_lookup_insert_ne by exact Hne. exact Hrows.
Qed.

Local Abbreviation inv := (store_inv h0).

Lemma hoare_alloc M o :
  hoare (inv M) (alloc o) (fun x h => inv M h /\ length h0 <= x /\ x <> M) (frame h0).
Proof.
  intros h [Hf Hp]. cbn. split; [split; [apply frame_alloc, Hf|apply private_alloc, Hp]|].
  pose proof (frame_length h Hf). split; [lia|].
  destruct Hp as (_ & rows & Hrows & _). apply lookup_lt_Some in Hrows. lia.
Qed.

Lemma hoare_load_num M a i :
  hoare (inv M) (load_num a i) (fun _ h => inv M h) (frame h0).
Proof.
  intros h [Hf Hp]. cbn. destruct (h !! a) as [[v|v]|]; cbn; try exact Hf.
  split; assumption.
Qed.

Lemma hoare_load_ref M i :
  hoare (inv M) (load_ref M i) (fun r h => inv M h /\ length h0 <= r /\ r <> M) (frame h0).
Proof.
  intros h [Hf Hp]. pose proof Hp as (HM & rows & Hrows & Hall).
  cbn. rewrite Hrows. cbn. destruct (rows !! i) as [r|] eqn:Hr; cbn; [|exact Hf].
  split; [split; assumption|]. exact (Forall_lookup_1 _ _ _ _ Hall Hr).
Qed.

Lemma hoare_store_num M a i x :
  length h0 <= a -> a <> M ->
  hoare (inv M) (store_num a i x) (fun _ h => inv M h) (frame h0).
Proof.
  intros Ha Hne h [Hf Hp]. cbn. destruct (h !! a) as [[v|v]|]; cbn; try exact Hf.
  split; [apply frame_put; assumption|apply private_put; assumption].
Qed.

Lemma hoare_store_ref M i r :
  length h0 <= r -> r <> M ->
  hoare (inv M) (store_ref M i r) (fun _ h => inv M h) (frame h0).
Proof.
  intros Hr Hne h [Hf Hp]. pose proof Hp as (HM & rows & Hrows & Hall).
  cbn. rewrite Hrows. cbn. split; [apply frame_put; assumption|].
  split; [exact HM|]. exists (<[i:=r]> rows). split.
  - apply list_lookup_insert_eq. apply lookup_lt_Some in Hrows. exact Hrows.
  - apply Forall_insert; [exact Hall|]. split; assumption.
Qed.

Lemma hoare_bind_pure {A B} (I : heap -> Prop) (phi : A -> Prop) (m : io A)
    (f : A -> io B) R E :
  hoare I m (fun a h => I h /\ phi a) E ->
  (forall a, phi a -> hoare I (f a) R E) ->
  hoare I (m ≫= f) R E.
Proof.
  intros Hm Hf. apply (hoare_bind _ _ _ _ _ _ Hm).
  intros a h [HI Hphi]. apply (Hf a Hphi h HI).
Qed.

Lemma hoare_bind_inv {A B} (I : heap -> Prop) (m : io A) (f : A -> io B) R E :
  hoare I m (fun _ h => I h) E ->
  (forall a, hoare I (f a) R E) ->
  hoare I (m ≫= f) R E.
Proof. intros Hm Hf. apply (hoare_bind _ _ _ _ _ _ Hm). exact Hf. Qed.

Lemma keeps_ret {A} M (a : A) : keeps h0 M (mret a).
Proof. apply hoare_ret. auto. Qed.

Lemma keeps_throw {A} M e : keeps (A:=A) h0 M (throw e).
Proof. apply hoare_throw. intros h [Hf _]. exact Hf. Qed.

Lemma keeps_max_row M k cnt :
  forall r maxRow maxVal, keeps h0 M (max_row M k r cnt maxRow maxVal).
Proof.
  induction cnt as [|cnt IH]; intros r maxRow maxVal; cbn [max_row].
  - apply keeps_ret.
  - eapply hoare_bind_pure; [apply hoare_load_ref|]. intros row [Hrow Hne].
    eapply hoare_bind_inv; [apply hoare_load_num|]. intros e.
    destruct (PrimFloat.ltb maxVal (PrimFloat.abs e)); apply IH.
Qed.

Lemma keeps_elim_cols M factor i k cnt : forall j, keeps h0 M (elim_cols M factor i k j cnt).
Proof.
  induction cnt as [|cnt IH]; intros j; cbn [elim_cols].
  - apply keeps_ret.
  - eapply hoare_bind_pure; [apply hoare_load_ref|]. intros ri [Hri Hne].
    eapply hoare_bind_inv; [apply hoare_load_num|]. intros a.
    eapply hoare_bind_pure; [apply hoare_load_ref|]. intros rk _.
    eapply hoare_bind_inv; [apply hoare_load_num|]. intros p.
    eapply hoare_bind_inv; [apply hoare_store_num; assumption|]. intros _.
    apply IH.
Qed.

Lemma keeps_elim_rows n M y k cnt :
  length h0 <= y -> y <> M -> forall i, keeps h0 M (elim_rows n M y k i cnt).
Proof.
  intros Hy Hne. induction cnt as [|cnt IH]; intros i; cbn [elim_rows].
  - apply keeps_ret.
  - eapply hoare_bind_pure; [apply hoare_load_ref|]. intros ri _.
    eapply hoare_bind_inv; [apply hoare_load_num|]. intros a.
    eapply hoare_bind_pure; [apply hoare_load_ref|]. intros rk _.
    eapply hoare_bind_inv; [apply hoare_load_num|]. intros p.
    eapply hoare_bind_inv; [apply keeps_elim_cols|]. intros _.
    eapply hoare_bind_inv; [apply hoare_load_num|]. intros yi.
    eapply hoare_bind_inv; [apply hoare_load_num|]. intros yk.
    eapply hoare_bind_inv; [apply hoare_store_num; assumption|]. intros _.
    apply IH.
Qed.

Lemma keeps_forward_step n M y k :
  length h0 <= y -> y <> M -> keeps h0 M (forward_step n M y k).
Proof.
  intros Hy Hne. unfold forward_step.
  eapply hoare_bind_pure; [apply hoare_load_ref|]. intros rk _.
  eapply hoare_bind_inv; [apply hoare_load_num|]. intros e.
  eapply hoare_bind_inv; [apply keeps_max_row|]. intros mv.
  eapply hoare_bind_inv.
  { destruct (PrimFloat.eqb mv.2 0); [apply keeps_throw|apply keeps_ret]. }
  intros _. eapply hoare_bind_inv; [|intros _; apply keeps_elim_rows; assumption].
  destruct (Nat.eqb mv.1 k); [apply keeps_ret|].
  eapply hoare_bind_pure; [apply hoare_load_ref|]. intros rm [Hrm Hrm'].
  eapply hoare_bind_pure; [apply hoare_load_ref|]. intros rk' [Hrk Hrk'].
  eapply hoare_bind_inv; [apply hoare_store_ref; assumption|]. intros _.
  eapply hoare_bind_inv; [apply hoare_store_ref; assumption|]. intros _.
  eapply hoare_bind_inv; [apply hoare_load_num|]. intros ym.
  eapply hoare_bind_inv; [apply hoare_load_num|]. intros yk.
  eapply hoare_bind_inv; [apply hoare_store_num; assumption|]. intros _.
  apply hoare_store_num; assumption.
Qed.

Lemma keeps_forward n M y cnt :
  length h0 <= y -> y <> M -> forall k, keeps h0 M (forward n M y k cnt).
Proof.
  intros Hy Hne. induction cnt as [|cnt IH]; intros k; cbn [forward].
  - apply keeps_ret.
  - eapply hoare_bind_inv; [apply keeps_forward_step; assumption|]. intros _. apply IH.
Qed.

Lemma keeps_back_sum M x i cnt : forall j sum, keeps h0 M (back_sum M x i j cnt sum).
Proof.
  induction cnt as [|cnt IH]; intros j sum; cbn [back_sum].
  - apply keeps_ret.
  - eapply hoare_bind_pure; [apply hoare_load_ref|]. intros ri _.
    eapply hoare_bind_inv; [apply hoare_load_num|]. intros a.
    eapply hoare_bind_inv; [apply hoare_load_num|]. intros xj.
    apply IH.
Qed.

Lemma keeps_back_loop n M y x cnt :
  length h0 <= x -> x <> M -> keeps h0 M (back_loop n M y x cnt).
Proof.
  intros Hx Hne. induction cnt as [|i IH]; cbn [back_loop].
  - apply keeps_ret.
  - eapply hoare_bind_inv; [apply keeps_back_sum|]. intros sum.
    eapply hoare_bind_inv; [apply hoare_load_num|]. intros yi.
    eapply hoare_bind_pure; [apply hoare_load_ref|]. intros ri _.
    eapply hoare_bind_inv; [apply hoare_load_num|]. intros d.
    eapply hoare_bind_inv; [apply hoare_store_num; assumption|]. intros _.
    apply IH.
Qed.

(** The copies of the rows are new arrays. *)
Lemma copy_rows_spec rows :
  forall h, frame h0 h ->
    match run (copy_rows rows) h with
    | (OK rs, h') => frame h0 h' /\ length h <= length h'
                     /\ Forall (fun r => length h <= r < length h') rs
    | (Throw _, h') => frame h0 h'
    end.
Proof.
  induction rows as [|r rows IH]; intros h Hf; cbn [copy_rows].
  - cbn. split; [exact Hf|]. split; [lia|constructor].
  - unfold mbind, io_bind, get_nums, alloc. cbn [run].
    destruct (h !! r) as [[v|v]|]; try exact Hf.
    specialize (IH (h ++ [Nums v]) (frame_alloc h _ Hf)).
    destruct (run (copy_rows rows) (h ++ [Nums v])) as [[rs|e] h']; [|exact IH].
    destruct IH as (Hf' & Hlen & Hall). rewrite length_app in Hlen, Hall. cbn in Hlen, Hall.
    cbn. split; [exact Hf'|]. split; [lia|]. constructor; [lia|].
    eapply Forall_impl; [exact Hall|]. cbn. intros r' Hr'. lia.
Qed.

Lemma solveLinearSystem_frame A b :
  hoare (fun h => h = h0) (solveLinearSystem A b) (fun _ h => frame h0 h) (frame h0).
Proof.
  unfold solveLinearSystem.
  eapply hoare_bind with (Q := fun _ h => h = h0).
  { intros h ->. cbn. destruct (h0 !! A) as [[v|v]|]; cbn; first [reflexivity|intros l _; reflexivity]. }
  intros rowsA.
  eapply hoare_bind with
    (Q := fun rs h => frame h0 h /\ Forall (fun r => length h0 <= r < length h) rs).
  { intros h ->. pose proof (copy_rows_spec rowsA h0 (fun l _ => eq_refl)) as H.
    destruct (run (copy_rows rowsA) h0) as [[rs|e] h']; [|exact H].
    destruct H as (Hf & _ & Hall). split; [exact Hf|exact Hall]. }
  intros rows.
  eapply hoare_bind with (Q := fun M h => inv M h).
  { intros h [Hf Hall]. cbn. pose proof (frame_length h Hf) as Hlen.
    split; [apply frame_alloc, Hf|]. split; [exact Hlen|]. exists rows. split.
    - rewrite lookup_app_r by lia. rewrite Nat.sub_diag. reflexivity.
    - eapply Forall_impl; [exact Hall|]. cbn. intros r Hr. lia. }
  intros M.
  eapply hoare_bind_inv.
  { intros h [Hf Hp]. cbn. destruct (h !! b) as [[v|v]|]; cbn; try exact Hf.
    split; assumption. }
  intros vb.
  eapply hoare_bind_pure; [apply hoare_alloc|]. intros y [Hy Hy'].
  eapply hoare_bind_inv; [apply keeps_forward; assumption|]. intros _.
  eapply hoare_bind_pure; [apply hoare_alloc|]. intros x [Hx Hx'].
  eapply hoare_bind_inv; [apply keeps_back_loop; assumption|]. intros _.
  apply hoare_ret. intros h [Hf _]. exact Hf.
Qed.

End Frame.

(** C7.  [solveLinearSystem] works on copies: whether it returns or
    raises, every array that was in the store before the call (the array
    [A], each of its rows, the array [b], and any other) holds after the
    call what it held before.  In particular the matrix read at [A] and the
    vector read at [b] are the same before and after. *)
Theorem solveLinearSystem_leaves_inputs (h : Approx.heap) (A b : Approx.loc) :
  let h' := (Approx.run (Approx.solveLinearSystem A b) h).2 in
  (forall l, l < length h -> h' !! l = h !! l)
  /\ (forall M, matrix_at h A = Some M -> matrix_at h' A = Some M)
  /\ (forall v, row_at h b = Some v -> row_at h' b = Some v).
Proof.
  intros h'.
  assert (Hframe : frame h h').
  { pose proof (solveLinearSystem_frame h A b h eq_refl) as H. subst h'.
    destruct (Approx.run (Approx.solveLinearSystem A b) h) as [[x|e] h1]; exact H. }
  assert (Hrow : forall r v, row_at h r = Some v -> row_at h' r = Some v).
  { intros r v. unfold row_at. destruct (h !! r) as [o|] eqn:Hr; [|discriminate].
    rewrite (Hframe r), Hr by (apply lookup_lt_Some in Hr; exact Hr). auto. }
  assert (Hrows : forall rows M,
            mapM (row_at h) rows = Some M -> mapM (row_at h') rows = Some M).
  { induction rows as [|r rows IH]; intros M; [auto|].
    cbn. destruct (row_at h r) as [v|] eqn:Hr; [|discriminate].
    rewrite (Hrow r v Hr). cbn.
    destruct (mapM (row_at h) rows) as [M'|]; [|discriminate].
    rewrite (IH M' eq_refl). auto. }
  split; [exact Hframe|]. split; [|apply Hrow].
  intros M. unfold matrix_at. destruct (h !! A) as [o|] eqn:HA; [|discriminate].
  rewrite (Hframe A), HA by (apply lookup_lt_Some in HA; exact HA).
  destruct o as [v|rows]; [discriminate|]. apply Hrows.
Qed.


(** * Further properties of the code *)

(** ** The decoder: positional notation *)

Section Positional.
Local Open Scope Z_scope.




Lemma toLowerCase_length (s : string) : String.length (toLowerCase s) = String.length s.
Proof.
  induction s as [|c s IH]; [reflexivity|]. cbn [toLowerCase String.length]. rewrite IH. reflexivity.
Qed.


(** The loop from [acc] is the loop from 0, shifted. *)
Lemma parse_loop_shift (s : string) (B : Z) :
  forall acc,
    parse_loop s B acc
    = (v ← parse_loop s B 0; OK (acc * B ^ Z.of_nat (String.length s) + v)).
Proof.
  induction s as [|c s IH]; intros acc.
  - cbn. f_equal. lia.
  - cbn [parse_loop String.length].
    destruct (indexOf DIGITS c <? 0); [reflexivity|].
    rewrite (IH (acc * B + indexOf DIGITS c)), (IH (0 * B + indexOf DIGITS c)).
    destruct (parse_loop s B 0) as [v|e]; [|reflexivity].
    rewrite !bind_OK. f_equal.
    rewrite Nat2Z.inj_succ, Z.pow_succ_r by lia. ring.
Qed.


Lemma indexOf_from_range (s : string) (c : ascii) :
  forall i, indexOf_from s c i = -1 \/ i <= indexOf_from s c i.
Proof.
  induction s as [|c' s IH]; intros i; cbn [indexOf_from]; [left; reflexivity|].
  destruct (Ascii.eqb c' c); [right; lia|].
  destruct (IH (i + 1)) as [H|H]; [left; exact H|right; lia].
Qed.

(** The position that [indexOf] returns holds the character looked for. *)
Lemma indexOf_from_inj (s : string) (c c' : ascii) :
  forall i, 0 <= i -> 0 <= indexOf_from s c i ->
            indexOf_from s c i = indexOf_from s c' i -> c = c'.
Proof.
  induction s as [|a s IH]; intros i Hi Hpos Heq; cbn [indexOf_from] in *; [lia|].
  destruct (Ascii.eqb_spec a c) as [Hac|Hac], (Ascii.eqb_spec a c') as [Hac'|Hac'].
  - congruence.
  - destruct (indexOf_from_range s c' (i + 1)); lia.
  - destruct (indexOf_from_range s c (i + 1)); lia.
  - apply (IH (i + 1)); [lia|assumption|assumption].
Qed.

Lemma indexOf_inj (c c' : ascii) :
  0 <= indexOf DIGITS c -> indexOf DIGITS c = indexOf DIGITS c' -> c = c'.
Proof. apply indexOf_from_inj. lia. Qed.

(** A numeral of [L] digits below [b] decodes to a value below [b^L]. *)
Lemma parse_loop_bounded (s : string) (b : Z) :
  1 <= b -> digits_below b s = true ->
  exists v, parse_loop (toLowerCase s) b 0 = OK v /\ 0 <= v < b ^ Z.of_nat (String.length s).
Proof.
  intros Hb. induction s as [|c s IH]; intros Hd.
  - exists 0. split; [reflexivity|]. cbn. lia.
  - cbn [digits_below] in Hd. apply andb_prop in Hd as [Hd Hs]. apply andb_prop in Hd as [Hlo Hhi].
    apply Z.leb_le in Hlo. apply Z.ltb_lt in Hhi.
    destruct (IH Hs) as (v & Hv & Hrange).
    cbn [toLowerCase parse_loop String.length].
    destruct (Z.ltb_spec (indexOf DIGITS (lower_char c)) 0) as [Hneg|_]; [lia|].
    rewrite parse_loop_shift, toLowerCase_length, Hv, bind_OK.
    eexists. split; [reflexivity|].
    rewrite Nat2Z.inj_succ, Z.pow_succ_r by lia.
    set (p := b ^ Z.of_nat (String.length s)) in *.
    set (d := indexOf DIGITS (lower_char c)) in *.
    replace (0 * b + d) with d by ring.
    assert (d * p <= (b - 1) * p) by (apply Z.mul_le_mono_nonneg_r; lia).
    assert (0 <= d * p) by (apply Z.mul_nonneg_nonneg; lia).
    lia.
Qed.

Lemma parse_loop_injective (b : Z) (s : string) :
  1 <= b ->
  forall s' v,
    String.length s = String.length s' ->
    digits_below b s = true -> digits_below b s' = true ->
    parse_loop (toLowerCase s) b 0 = OK v -> parse_loop (toLowerCase s') b 0 = OK v ->
    toLowerCase s = toLowerCase s'.
Proof.
  intros Hb. induction s as [|c s IH]; intros s' v Hlen Hd Hd' Hv Hv'.
  - destruct s'; [reflexivity|discriminate].
  - destruct s' as [|c' s']; [discriminate|].
    cbn [String.length] in Hlen. injection Hlen as Hlen.
    cbn [digits_below] in Hd, Hd'.
    apply andb_prop in Hd as [Hd Hs]. apply andb_prop in Hd as [Hlo Hhi].
    apply andb_prop in Hd' as [Hd' Hs']. apply andb_prop in Hd' as [Hlo' Hhi'].
    apply Z.leb_le in Hlo, Hlo'. apply Z.ltb_lt in Hhi, Hhi'.
    cbn [toLowerCase parse_loop] in Hv, Hv'.
    destruct (Z.ltb_spec (indexOf DIGITS (lower_char c)) 0) as [Hneg|_]; [lia|].
    destruct (Z.ltb_spec (indexOf DIGITS (lower_char c')) 0) as [Hneg|_]; [lia|].
    rewrite parse_loop_shift, toLowerCase_length in Hv, Hv'.
    destruct (parse_loop_bounded s b Hb Hs) as (w & Hw & Hrange).
    destruct (parse_loop_bounded s' b Hb Hs') as (w' & Hw' & Hrange').
    rewrite Hw, bind_OK in Hv. rewrite Hw', bind_OK in Hv'.
    injection Hv as Hv. injection Hv' as Hv'. rewrite <- Hlen in Hv', Hrange'.
    set (p := b ^ Z.of_nat (String.length s)) in *.
    set (d := indexOf DIGITS (lower_char c)) in *.
    set (d' := indexOf DIGITS (lower_char c')) in *.
    assert (Hdd : d = d' /\ w = w').
    { assert (He : d * p + w = d' * p + w') by lia.
      assert (Hd1 : d = d').
      { destruct (Z.lt_trichotomy d d') as [Hlt|[Hq|Hlt]]; [exfalso|exact Hq|exfalso].
        - assert ((d + 1) * p <= d' * p) by (apply Z.mul_le_mono_nonneg_r; lia). lia.
        - assert ((d' + 1) * p <= d * p) by (apply Z.mul_le_mono_nonneg_r; lia). lia. }
      split; [exact Hd1|]. rewrite Hd1 in He. lia. }
    destruct Hdd as [Hdd ->].
    cbn [toLowerCase]. f_equal.
    + apply indexOf_inj; [exact Hlo|exact Hdd].
    + apply (IH s' w'); assumption.
Qed.

End Positional.


(** X11. For every base [b >= 1], a string whose characters are all digits
    of value below [b] decodes, and to a value in [0, b^L) for [L] the
    length of the string; two such strings of the same length that decode
    to the same value are equal up to the case of their letters. *)
Theorem parseInBase_numeral_range_and_uniqueness (b : Z) (s s' : string) :
  (1 <= b)%Z -> digits_below b s = true ->
  (exists v, parseInBase s (JsInt b) = OK v
             /\ (0 <= v < b ^ Z.of_nat (String.length s))%Z)
  /\ (digits_below b s' = true -> String.length s = String.length s' ->
      parseInBase s (JsInt b) = parseInBase s' (JsInt b) ->
      toLowerCase s = toLowerCase s').
Proof.
  intros Hb Hd. unfold parseInBase. cbn [BigInt]. rewrite !bind_OK.
  destruct (parse_loop_bounded s b Hb Hd) as (v & Hv & Hrange).
  split; [exists v; split; assumption|].
  intros Hd' Hlen Heq. rewrite Hv in Heq.
  apply (parse_loop_injective b s Hb s' v); auto.
Qed.

Lemma parseInBase_numeral_range_and_uniqueness_witness :
  (exists v, parseInBase "Ff" (JsInt 16) = OK v
             /\ (0 <= v < 16 ^ Z.of_nat (String.length "Ff"))%Z)
  /\ (digits_below 16 "fF" = true -> String.length "Ff" = String.length "fF" ->
      parseInBase "Ff" (JsInt 16) = parseInBase "fF" (JsInt 16) ->
      toLowerCase "Ff" = toLowerCase "fF").
Proof.
  apply (parseInBase_numeral_range_and_uniqueness 16 "Ff" "fF"); [lia|reflexivity].
Defined.


(** ** Fractions: one representative per rational, and the laws of a field *)

Section FractionLaws.

Lemma makeFrac_cross (n d n' d' : Z) :
  d <> 0%Z -> d' <> 0%Z ->
  makeFrac n d = makeFrac n' d' <-> (n * d' = n' * d)%Z.
Proof.
  intros Hd Hd'.
  destruct (makeFrac_spec n d Hd) as (f & Hf & Hcf & Hvf).
  destruct (makeFrac_spec n' d' Hd') as (f' & Hf' & Hcf' & Hvf').
  rewrite Hf, Hf'. pose proof Hcf as [Hpos _]. pose proof Hcf' as [Hpos' _].
  split.
  - intros Heq. injection Heq as <-.
    apply (Z.mul_reg_r _ _ (den f)); [lia|].
    transitivity (num f * d * d')%Z; [rewrite Hvf; ring|].
    transitivity (num f * d' * d)%Z; [ring|]. rewrite Hvf'. ring.
  - intros Heq. f_equal. apply canonical_unique; [assumption|assumption|].
    apply (Z.mul_reg_r _ _ (d * d')%Z); [lia|].
    transitivity ((num f * d) * (den f' * d'))%Z; [ring|]. rewrite Hvf.
    transitivity ((num f' * d') * (den f * d))%Z; [|ring]. rewrite Hvf'.
    transitivity ((n * d') * (den f * den f'))%Z; [ring|]. rewrite Heq. ring.
Qed.

Local Open Scope Qc_scope.

(** Two canonical fractions of the same value are the same record. *)
Lemma OK_by_value (x y : frac) :
  canonical x -> canonical y -> qval x = qval y -> OK x = OK y.
Proof. intros Hx Hy H. f_equal. apply qval_inj; assumption. Qed.

Lemma qval_nonzero (f : frac) : canonical f -> num f <> 0%Z -> qval f <> 0.
Proof. intros [Hpos _] Hn H. apply Hn. apply qval_zero; assumption. Qed.

Lemma canonical_one : canonical (Frac 1 1).
Proof. apply canonical_integer. Qed.

Lemma add_comm (a b : frac) : add a b = add b a.
Proof. unfold add. f_equal; ring. Qed.

Lemma mul_comm (a b : frac) : mul a b = mul b a.
Proof. unfold mul. f_equal; ring. Qed.

Lemma add_assoc (a b c : frac) :
  canonical a -> canonical b -> canonical c ->
  (s ← add a b; add s c) = (t ← add b c; add a t).
Proof.
  intros Ha Hb Hc.
  destruct (add_spec a b Ha Hb) as (s & -> & Hs & Hvs).
  destruct (add_spec b c Hb Hc) as (t & -> & Ht & Hvt).
  rewrite !bind_OK.
  destruct (add_spec s c Hs Hc) as (l & -> & Hl & Hvl).
  destruct (add_spec a t Ha Ht) as (r & -> & Hr & Hvr).
  apply OK_by_value; [assumption|assumption|]. rewrite Hvl, Hvr, Hvs, Hvt. ring.
Qed.

Lemma mul_assoc (a b c : frac) :
  canonical a -> canonical b -> canonical c ->
  (s ← mul a b; mul s c) = (t ← mul b c; mul a t).
Proof.
  intros Ha Hb Hc.
  destruct (mul_spec a b Ha Hb) as (s & -> & Hs & Hvs).
  destruct (mul_spec b c Hb Hc) as (t & -> & Ht & Hvt).
  rewrite !bind_OK.
  destruct (mul_spec s c Hs Hc) as (l & -> & Hl & Hvl).
  destruct (mul_spec a t Ha Ht) as (r & -> & Hr & Hvr).
  apply OK_by_value; [assumption|assumption|]. rewrite Hvl, Hvr, Hvs, Hvt. ring.
Qed.

Lemma mul_add_distr (a b c : frac) :
  canonical a -> canonical b -> canonical c ->
  (s ← add b c; mul a s) = (p ← mul a b; q ← mul a c; add p q).
Proof.
  intros Ha Hb Hc.
  destruct (add_spec b c Hb Hc) as (s & -> & Hs & Hvs).
  destruct (mul_spec a b Ha Hb) as (p & -> & Hp & Hvp).
  destruct (mul_spec a c Ha Hc) as (q & -> & Hq & Hvq).
  rewrite !bind_OK.
  destruct (mul_spec a s Ha Hs) as (l & -> & Hl & Hvl).
  destruct (add_spec p q Hp Hq) as (r & -> & Hr & Hvr).
  apply OK_by_value; [assumption|assumption|]. rewrite Hvl, Hvr, Hvs, Hvp, Hvq. ring.
Qed.

Lemma add_zero (a : frac) : canonical a -> add a (Frac 0 1) = OK a.
Proof.
  intros Ha. destruct (add_spec a (Frac 0 1) Ha (canonical_integer 0)) as (s & -> & Hs & Hvs).
  apply OK_by_value; [assumption|assumption|]. rewrite Hvs, qval_integer_zq, zq_0. ring.
Qed.

Lemma mul_one (a : frac) : canonical a -> mul a (Frac 1 1) = OK a.
Proof.
  intros Ha. destruct (mul_spec a (Frac 1 1) Ha canonical_one) as (s & -> & Hs & Hvs).
  apply OK_by_value; [assumption|assumption|]. rewrite Hvs, qval_integer_zq, zq_1. ring.
Qed.

Lemma sub_self (a : frac) : canonical a -> sub a a = OK (Frac 0 1).
Proof.
  intros Ha. destruct (sub_spec a a Ha Ha) as (s & -> & Hs & Hvs).
  apply OK_by_value; [assumption|apply canonical_integer|].
  rewrite Hvs, qval_integer_zq, zq_0. ring.
Qed.

Lemma add_sub_cancel (a b : frac) :
  canonical a -> canonical b -> (s ← add a b; sub s b) = OK a.
Proof.
  intros Ha Hb. destruct (add_spec a b Ha Hb) as (s & -> & Hs & Hvs). rewrite bind_OK.
  destruct (sub_spec s b Hs Hb) as (r & -> & Hr & Hvr).
  apply OK_by_value; [assumption|assumption|]. rewrite Hvr, Hvs. ring.
Qed.

Lemma mul_div_cancel (a b : frac) :
  canonical a -> canonical b -> num b <> 0%Z -> (s ← mul a b; div s b) = OK a.
Proof.
  intros Ha Hb Hnz. destruct (mul_spec a b Ha Hb) as (s & -> & Hs & Hvs). rewrite bind_OK.
  destruct (div_spec s b Hs Hb Hnz) as (r & -> & Hr & Hvr).
  apply OK_by_value; [assumption|assumption|]. rewrite Hvr, Hvs.
  pose proof (qval_nonzero b Hb Hnz). field. assumption.
Qed.

End FractionLaws.

(** X12. [makeFrac] returns one record per rational number: for non-zero
    denominators, [makeFrac n d] and [makeFrac n' d'] are the same result
    exactly when [n * d' = n' * d]; and a canonical fraction is rebuilt
    unchanged from its own fields. *)
Theorem makeFrac_same_fraction_iff (n d n' d' : Z) (f : frac) :
  (d <> 0%Z -> d' <> 0%Z -> makeFrac n d = makeFrac n' d' <-> (n * d' = n' * d)%Z)
  /\ (canonical f -> makeFrac (num f) (den f) = OK f).
Proof.
  split; [apply makeFrac_cross|apply makeFrac_canonical_id].
Qed.

(** X13. On canonical fractions the four operations obey the laws of a
    field, as equalities of the records they return: [add] and [mul] are
    commutative and associative, [mul] distributes over [add], [0/1] and
    [1/1] are neutral, [sub a a] is [0/1], [sub] undoes [add], and [div]
    undoes [mul] by a non-zero fraction. *)
Theorem fraction_field_laws (a b c : frac) :
  canonical a -> canonical b -> canonical c ->
  add a b = add b a
  /\ mul a b = mul b a
  /\ (s ← add a b; add s c) = (t ← add b c; add a t)
  /\ (s ← mul a b; mul s c) = (t ← mul b c; mul a t)
  /\ (s ← add b c; mul a s) = (p ← mul a b; q ← mul a c; add p q)
  /\ add a (Frac 0 1) = OK a
  /\ mul a (Frac 1 1) = OK a
  /\ sub a a = OK (Frac 0 1)
  /\ (s ← add a b; sub s b) = OK a
  /\ (num b <> 0%Z -> (s ← mul a b; div s b) = OK a).
Proof.
  intros Ha Hb Hc.
  split; [apply add_comm|]. split; [apply mul_comm|].
  split; [apply add_assoc; assumption|]. split; [apply mul_assoc; assumption|].
  split; [apply mul_add_distr; assumption|].
  split; [apply add_zero; assumption|]. split; [apply mul_one; assumption|].
  split; [apply sub_self; assumption|].
  split; [apply add_sub_cancel; assumption|]. apply mul_div_cancel; assumption.
Qed.

Lemma fraction_field_laws_witness :
  add (Frac 1 2) (Frac (-2) 3) = add (Frac (-2) 3) (Frac 1 2)
  /\ mul (Frac 1 2) (Frac (-2) 3) = mul (Frac (-2) 3) (Frac 1 2)
  /\ (s ← add (Frac 1 2) (Frac (-2) 3); add s (Frac 5 1))
     = (t ← add (Frac (-2) 3) (Frac 5 1); add (Frac 1 2) t)
  /\ (s ← mul (Frac 1 2) (Frac (-2) 3); mul s (Frac 5 1))
     = (t ← mul (Frac (-2) 3) (Frac 5 1); mul (Frac 1 2) t)
  /\ (s ← add (Frac (-2) 3) (Frac 5 1); mul (Frac 1 2) s)
     = (p ← mul (Frac 1 2) (Frac (-2) 3); q ← mul (Frac 1 2) (Frac 5 1); add p q)
  /\ add (Frac 1 2) (Frac 0 1) = OK (Frac 1 2)
  /\ mul (Frac 1 2) (Frac 1 1) = OK (Frac 1 2)
  /\ sub (Frac 1 2) (Frac 1 2) = OK (Frac 0 1)
  /\ (s ← add (Frac 1 2) (Frac (-2) 3); sub s (Frac (-2) 3)) = OK (Frac 1 2)
  /\ (num (Frac (-2) 3) <> 0%Z ->
      (s ← mul (Frac 1 2) (Frac (-2) 3); div s (Frac (-2) 3)) = OK (Frac 1 2)).
Proof.
  apply (fraction_field_laws (Frac 1 2) (Frac (-2) 3) (Frac 5 1));
    split; cbn; (lia || reflexivity).
Defined.


(** ** The exact solver: when it returns, and what its result depends on *)

Section SolveOutcome.
Local Open Scope Qc_scope.

(** An upper triangular matrix without a zero on its diagonal sends only
    the zero vector to zero. *)
Lemma upper_diag_kernel_trivial n U :
  lower_zero n n U -> (forall c, (c < n)%nat -> U c c <> 0) -> kernel_trivial n U.
Proof.
  intros Hup Hdiag w Hw.
  assert (Hind : forall d j, (n - d <= j < n)%nat -> w j = 0).
  { induction d as [|d IH]; intros j Hj; [lia|].
    destruct (Nat.le_gt_cases (n - d) j) as [Hle|Hgt]; [apply IH; lia|].
    pose proof (Hw j ltac:(lia)) as Hrow. cbn beta in Hrow.
    rewrite (sum_from_pick 0 n j) in Hrow; [|lia|].
    - destruct (Qcmult_integral _ _ Hrow) as [H|H]; [|exact H].
      exfalso. apply (Hdiag j); [lia|exact H].
    - intros i Hi Hne. destruct (Nat.lt_ge_cases i j) as [Hlt|Hge].
      + rewrite (Hup j i) by lia. ring.
      + rewrite (IH i) by lia. ring. }
  intros j Hj. apply (Hind n). lia.
Qed.

Lemma kernel_trivial_unique n U b v v' :
  kernel_trivial n U -> sat n U b v -> sat n U b v' ->
  forall j, (j < n)%nat -> v j = v' j.
Proof.
  intros Hker Hv Hv' j Hj.
  assert (H : v j - v' j = 0).
  { apply (Hker (fun j => v j - v' j)); [|exact Hj].
    intros r Hr.
    transitivity (sum_from 0 n (fun c => U r c * v c) - sum_from 0 n (fun c => U r c * v' c)).
    - rewrite <- sum_from_minus. apply sum_from_ext. intros c _. ring.
    - rewrite (Hv r Hr), (Hv' r Hr). ring. }
  transitivity (v j - v' j + v' j); [ring|]. rewrite H. ring.
Qed.

(** The two outcomes of [solve] on a square system, with the reason for
    each. *)
Lemma solve_cases n m rhs :
  wf_matrix n m -> wf_vector n rhs ->
  (exists x, solve m rhs = OK x /\ wf_vector n x
             /\ sat n (mval m) (vval rhs) (vval x) /\ kernel_trivial n (mval m))
  \/ (solve m rhs = Throw ZeroDenominator /\ ~ kernel_trivial n (mval m)).
Proof.
  intros Hwf Hwr. rewrite (solve_unfold n) by exact Hwf.
  destruct (forward_spec n n m rhs 0 Hwf Hwr ltac:(lia) (lower_zero_0 n _))
    as (m' & rhs' & -> & Hwf' & Hwr' & Hup & Hsat & Hhom & _).
  rewrite bind_OK. cbn [fst snd].
  destruct (diag_zero_dec (mval m') n) as [Hzero|Hdiag].
  - right. split.
    + apply (back_loop_fail n m' rhs' Hwf' Hwr'); [lia|apply wf_replicate_zero|exact Hzero].
    + intros Hker. destruct Hzero as (c & Hc & Hz).
      apply (upper_kernel_trivial_diag n (mval m') Hup) with (c := c); [|exact Hc|exact Hz].
      intros w Hw. apply Hker. apply Hhom. exact Hw.
  - left.
    destruct (back_loop_ok n m' rhs' Hwf' Hwr' n (replicate n zero_frac) ltac:(lia)
                (wf_replicate_zero n) Hdiag) as (x & -> & Hwx & _ & Heqs).
    exists x. split; [reflexivity|]. split; [exact Hwx|]. split.
    + apply Hsat. apply upper_sat; [exact Hup|exact Heqs].
    + intros w Hw. apply (upper_diag_kernel_trivial n (mval m') Hup Hdiag). apply Hhom. exact Hw.
Qed.

(** Two vectors of canonical fractions with the same values are equal. *)
Lemma wf_vector_ext n (x y : list frac) :
  wf_vector n x -> wf_vector n y ->
  (forall j, (j < n)%nat -> vval x j = vval y j) -> x = y.
Proof.
  intros [Hlx Hcx] [Hly Hcy] Hval. apply list_eq. intros j.
  destruct (Nat.lt_ge_cases j n) as [Hj|Hj].
  - destruct (lookup_lt_is_Some_2 x j ltac:(lia)) as [a Ha].
    destruct (lookup_lt_is_Some_2 y j ltac:(lia)) as [b Hb].
    rewrite Ha, Hb. f_equal.
    pose proof (Hval j Hj) as H. unfold vval, vent in H. rewrite Ha, Hb in H. cbn in H.
    apply qval_inj;
      [exact (Forall_lookup_1 _ _ _ _ Hcx Ha)|exact (Forall_lookup_1 _ _ _ _ Hcy Hb)|exact H].
  - rewrite !lookup_ge_None_2 by lia. reflexivity.
Qed.

(** The result of [solve] is a function of the solutions of the system. *)
Lemma solve_same_solutions n m rhs m' rhs' :
  wf_matrix n m -> wf_vector n rhs -> wf_matrix n m' -> wf_vector n rhs' ->
  (forall v, sat n (mval m) (vval rhs) v <-> sat n (mval m') (vval rhs') v) ->
  (kernel_trivial n (mval m) <-> kernel_trivial n (mval m')) ->
  solve m' rhs' = solve m rhs.
Proof.
  intros Hwf Hwr Hwf' Hwr' Hsat Hker.
  destruct (solve_cases n m rhs Hwf Hwr) as [(x & -> & Hwx & Hx & Hk)|[-> Hk]];
    destruct (solve_cases n m' rhs' Hwf' Hwr') as [(x' & -> & Hwx' & Hx' & Hk')|[-> Hk']].
  - f_equal. apply (wf_vector_ext n); [assumption|assumption|].
    apply (kernel_trivial_unique n (mval m) (vval rhs)); [exact Hk| |exact Hx].
    apply Hsat. exact Hx'.
  - exfalso. apply Hk'. apply Hker. exact Hk.
  - exfalso. apply Hk. apply Hker. exact Hk'.
  - reflexivity.
Qed.

Lemma refines_kernel n U b U' b' :
  refines n U b U' b' -> kernel_trivial n U <-> kernel_trivial n U'.
Proof.
  intros (_ & Hhom & _). split; intros Hk w Hw; apply Hk; apply Hhom; exact Hw.
Qed.

End SolveOutcome.

(** X14. On an [n] x [n] system of canonical fractions, [solve] returns a
    vector exactly when the matrix is non-singular (it sends only the zero
    vector to zero), and raises the zero-denominator error exactly when it
    is singular, whatever the right-hand side; a vector it returns is the
    only solution of the system. *)
Theorem solve_returns_iff_nonsingular n m rhs :
  wf_matrix n m -> wf_vector n rhs ->
  ((exists x, solve m rhs = OK x) <-> kernel_trivial n (mval m))
  /\ (solve m rhs = Throw ZeroDenominator <-> ~ kernel_trivial n (mval m))
  /\ (forall x v, solve m rhs = OK x -> sat n (mval m) (vval rhs) v ->
                  forall j, j < n -> v j = vval x j).
Proof.
  intros Hwf Hwr.
  destruct (solve_cases n m rhs Hwf Hwr) as [(x & Hx & Hwx & Hsat & Hk)|[Hx Hk]].
  - split; [|split].
    + split; [intros _; exact Hk|intros _; exists x; exact Hx].
    + split; [intros H; rewrite Hx in H; discriminate|intros H; contradiction].
    + intros x' v Hx' Hv j Hj. rewrite Hx in Hx'. injection Hx' as <-.
      apply (kernel_trivial_unique n (mval m) (vval rhs)); assumption.
  - split; [|split].
    + split; [intros [x H]; rewrite Hx in H; discriminate|intros H; contradiction].
    + split; [intros _; exact Hk|intros _; exact Hx].
    + intros x' v Hx'. rewrite Hx in Hx'. discriminate.
Qed.

Lemma solve_returns_iff_nonsingular_witness :
  ((exists x, solve [[Frac 2 1; Frac 1 1]; [Frac 1 1; Frac 1 1]] [Frac 3 1; Frac 2 1] = OK x)
   <-> kernel_trivial 2 (mval [[Frac 2 1; Frac 1 1]; [Frac 1 1; Frac 1 1]]))
  /\ (solve [[Frac 2 1; Frac 1 1]; [Frac 1 1; Frac 1 1]] [Frac 3 1; Frac 2 1]
      = Throw ZeroDenominator
      <-> ~ kernel_trivial 2 (mval [[Frac 2 1; Frac 1 1]; [Frac 1 1; Frac 1 1]]))
  /\ (forall x v,
        solve [[Frac 2 1; Frac 1 1]; [Frac 1 1; Frac 1 1]] [Frac 3 1; Frac 2 1] = OK x ->
        sat 2 (mval [[Frac 2 1; Frac 1 1]; [Frac 1 1; Frac 1 1]])
          (vval [Frac 3 1; Frac 2 1]) v ->
        forall j, j < 2 -> v j = vval x j).
Proof.
  apply (solve_returns_iff_nonsingular 2).
  - apply wf_matrix_2x2; split; cbn; (lia || reflexivity).
  - apply wf_vector_2; split; cbn; (lia || reflexivity).
Defined.

(** X15. The result of [solve] does not depend on the order of the
    equations: exchanging two rows of the matrix together with the two
    entries of the right-hand side (as the pivoting of [solve] does itself)
    gives the same vector, or the same error. *)
Theorem solve_swap_equations n m rhs i j m' rhs' :
  wf_matrix n m -> wf_vector n rhs -> i < n -> j < n ->
  swap m i j = OK m' -> swap rhs i j = OK rhs' ->
  solve m' rhs' = solve m rhs.
Proof.
  intros Hwf Hwr Hi Hj Hm Hr.
  destruct (swap_system n m rhs i j Hwf Hwr Hi Hj)
    as (m1 & rhs1 & Hm1 & Hr1 & Hwf' & Hwr' & Hent & Hvent).
  rewrite Hm in Hm1. rewrite Hr in Hr1. injection Hm1 as <-. injection Hr1 as <-.
  assert (Hswap : row_swap n i j (mval m) (vval rhs) (mval m') (vval rhs')).
  { split; [exact Hi|]. split; [exact Hj|]. intros r _. split.
    - intros c _. unfold mval. rewrite Hent. reflexivity.
    - unfold vval. rewrite Hvent. reflexivity. }
  pose proof (row_swap_refines _ _ _ _ _ _ _ Hswap) as Href.
  apply (solve_same_solutions n); try assumption.
  - apply Href.
  - apply (refines_kernel n _ _ _ _ Href).
Qed.

Lemma solve_swap_equations_witness :
  solve [[Frac 1 1; Frac 1 1]; [Frac 2 1; Frac 1 1]] [Frac 2 1; Frac 3 1]
  = solve [[Frac 2 1; Frac 1 1]; [Frac 1 1; Frac 1 1]] [Frac 3 1; Frac 2 1].
Proof.
  apply (solve_swap_equations 2 _ _ 0 1).
  - apply wf_matrix_2x2; split; cbn; (lia || reflexivity).
  - apply wf_vector_2; split; cbn; (lia || reflexivity).
  - lia.
  - lia.
  - reflexivity.
  - reflexivity.
Defined.


(** ** [main] of index2.js on arbitrary shares *)

Section Main.
Local Open Scope Qc_scope.

Lemma main_points_decoded data ys :
  decoded data ys ->
  forall cnt i acc,
    (1 <= i)%nat -> (i - 1 + cnt = length ys)%nat ->
    main_points data i cnt acc
    = OK (acc ++ imap (fun t y => Exact.Point (Z.of_nat (i + t)) y) (drop (i - 1) ys)).
Proof.
  intros Hdec. induction cnt as [|cnt IH]; intros i acc Hi Hn; cbn [main_points].
  - rewrite drop_ge by lia. cbn. rewrite app_nil_r. reflexivity.
  - destruct (lookup_lt_is_Some_2 ys (i - 1)%nat ltac:(lia)) as [y Hy].
    destruct (Hdec _ _ Hy) as (e & He & Hparse).
    rewrite (read_Some _ _ _ He), bind_OK, Hparse, bind_OK.
    rewrite IH by lia. f_equal.
    rewrite (drop_S _ _ _ Hy). cbn [imap]. rewrite <- app_assoc. cbn [app].
    replace (S i - 1)%nat with (S (i - 1)%nat) by lia.
    rewrite Nat.add_0_r. do 2 f_equal.
    apply imap_ext. intros t z _. cbn [compose]. do 2 f_equal. lia.
Qed.

Lemma main_points_fail data ys e :
  decoded data ys ->
  match data !! length ys with
  | None => e = TypeError
  | Some en => parseInBase (value en) (base en) = Throw e
  end ->
  forall cnt i acc,
    (1 <= i)%nat -> (i - 1 <= length ys < i - 1 + cnt)%nat ->
    main_points data i cnt acc = Throw e.
Proof.
  intros Hdec Hbad. induction cnt as [|cnt IH]; intros i acc Hi Hn; [lia|].
  cbn [main_points].
  destruct (Nat.eq_dec (i - 1)%nat (length ys)) as [Heq|Hne].
  - rewrite Heq. unfold read.
    destruct (data !! length ys) as [en|]; [|rewrite Hbad; reflexivity].
    rewrite bind_OK, Hbad. reflexivity.
  - destruct (lookup_lt_is_Some_2 ys (i - 1)%nat ltac:(lia)) as [y Hy].
    destruct (Hdec _ _ Hy) as (en & Hen & Hparse).
    rewrite (read_Some _ _ _ Hen), bind_OK, Hparse, bind_OK.
    apply IH; lia.
Qed.

Lemma main_points_app data more :
  forall cnt i acc,
    (1 <= i)%nat -> (i - 1 + cnt <= length data)%nat ->
    main_points (data ++ more) i cnt acc = main_points data i cnt acc.
Proof.
  induction cnt as [|cnt IH]; intros i acc Hi Hn; [reflexivity|].
  cbn [main_points]. unfold read. rewrite lookup_app_l by lia.
  destruct (data !! (i - 1)%nat) as [e|]; [|reflexivity].
  rewrite !bind_OK. destruct (parseInBase (value e) (base e)) as [y|err]; [|reflexivity].
  rewrite !bind_OK. apply IH; lia.
Qed.

Variable ys : list Z.
Local Abbreviation k := (length ys).
Local Abbreviation pts := (points_of ys).
Local Abbreviation A := ((fun p => vander_row k (Exact.pt_x p)) <$> pts).
Local Abbreviation b := ((fun p => Frac (Exact.pt_y p) 1) <$> pts).

Lemma points_of_length : length pts = k.
Proof. unfold points_of. apply length_imap. Qed.

Lemma points_of_lookup r y :
  ys !! r = Some y -> pts !! r = Some (Exact.Point (Z.of_nat (S r)) y).
Proof. intros H. unfold points_of. rewrite list_lookup_imap, H. reflexivity. Qed.

Lemma system_wf : wf_matrix k A /\ wf_vector k b.
Proof.
  split; (split; [rewrite length_fmap; apply points_of_length|]).
  - apply Forall_fmap, Forall_forall. intros p _. cbn. unfold vander_row. split.
    + rewrite length_fmap, length_seq. reflexivity.
    + apply Forall_fmap, Forall_forall. intros j _. apply canonical_integer.
  - apply Forall_fmap, Forall_forall. intros p _. apply canonical_integer.
Qed.

Lemma system_matrix_value r c : (r < k)%nat -> (c < k)%nat -> mval A r c = nodes_matrix r c.
Proof.
  intros Hr Hc. destruct (lookup_lt_is_Some_2 ys r Hr) as [y Hy].
  unfold mval, ent. rewrite list_lookup_fmap, (points_of_lookup r y Hy).
  cbn [fmap option_fmap option_map Exact.pt_x]. unfold vander_row.
  rewrite list_lookup_fmap, lookup_seq_lt by exact Hc.
  cbn [fmap option_fmap option_map default id]. rewrite Nat.add_0_l.
  rewrite qval_integer_zq. apply zq_pow.
Qed.

Lemma system_rhs_value r y : ys !! r = Some y -> vval b r = zq y.
Proof.
  intros Hy. unfold vval, vent. rewrite list_lookup_fmap, (points_of_lookup r y Hy).
  cbn [fmap option_fmap option_map default id Exact.pt_y]. apply qval_integer_zq.
Qed.

Lemma system_kernel_trivial : kernel_trivial k (mval A).
Proof.
  intros w Hw. apply (vandermonde_kernel_trivial k).
  apply (sat_ext k (mval A) nodes_matrix (fun _ => 0) (fun _ => 0)); [|reflexivity|exact Hw].
  intros r c Hr Hc. symmetry. apply system_matrix_value; assumption.
Qed.

(** A vector solves the system exactly when the polynomial it lists the
    coefficients of takes the value [y_t] at [t + 1]. *)
Lemma system_sat_iff (w : nat -> Qc) :
  sat k (mval A) (vval b) w
  <-> forall t y, ys !! t = Some y -> peval (w <$> seq 0 k) (zq (Z.of_nat (S t))) = zq y.
Proof.
  split.
  - intros Hsat t y Hy. pose proof (lookup_lt_Some _ _ _ Hy) as Ht.
    rewrite peval_sum, <- (system_rhs_value t y Hy), <- (Hsat t Ht).
    apply sum_from_ext. intros c Hc. rewrite system_matrix_value by lia. reflexivity.
  - intros Hp r Hr. destruct (lookup_lt_is_Some_2 ys r Hr) as [y Hy].
    rewrite (system_rhs_value r y Hy), <- (Hp r y Hy), peval_sum.
    apply sum_from_ext. intros c Hc. rewrite system_matrix_value by lia. reflexivity.
Qed.

Lemma fmap_qval_seq (x : list frac) : length x = k -> qval <$> x = vval x <$> seq 0 k.
Proof.
  intros Hlen. apply list_eq. intros j. rewrite !list_lookup_fmap.
  destruct (Nat.lt_ge_cases j k) as [Hj|Hj].
  - rewrite lookup_seq_lt by exact Hj. destruct (lookup_lt_is_Some_2 x j ltac:(lia)) as [a Ha].
    cbn [fmap option_fmap option_map Nat.add]. unfold vval, vent. rewrite Ha. reflexivity.
  - rewrite lookup_seq_ge by exact Hj. rewrite lookup_ge_None_2 by lia. reflexivity.
Qed.

Lemma list_as_seq (p : list Qc) :
  length p = k -> p = (fun j => default 0 (p !! j)) <$> seq 0 k.
Proof.
  intros Hlen. apply list_eq. intros j. rewrite list_lookup_fmap.
  destruct (Nat.lt_ge_cases j k) as [Hj|Hj].
  - rewrite lookup_seq_lt by exact Hj. destruct (lookup_lt_is_Some_2 p j ltac:(lia)) as [a Ha].
    cbn [fmap option_fmap option_map Nat.add]. rewrite Ha. reflexivity.
  - rewrite lookup_seq_ge by exact Hj. rewrite lookup_ge_None_2 by lia. reflexivity.
Qed.

(** The coefficient vector of [main]: it exists for all decoded shares, and
    it is the interpolating polynomial of the points. *)
Lemma main_coeff_decoded data :
  decoded data ys ->
  exists coeff,
    main_coeff data k = OK coeff /\ wf_vector k coeff
    /\ sat k (mval A) (vval b) (vval coeff).
Proof.
  intros Hdec. unfold main_coeff.
  rewrite (main_points_decoded data ys Hdec k 1 []) by lia.
  rewrite bind_OK, app_nil_l.
  change (imap _ (drop (1 - 1) ys)) with (points_of ys).
  pose proof (main_build_spec pts) as Hbuild. rewrite points_of_length in Hbuild.
  rewrite Hbuild, bind_OK. cbn [fst snd].
  destruct system_wf as [HA Hb].
  destruct (solve_ok k A b HA Hb system_kernel_trivial) as (x & -> & Hwx & Hsat).
  exists x. auto.
Qed.

End Main.

(** X16. [main] of index2.js succeeds on every input whose entries under
    the keys 1..k decode, whatever the decoded values: the coefficient
    vector it computes has [k] canonical fractions, is the one polynomial
    of degree below [k] that takes the value [y_i] at each [i = 1..k], and
    the integer printed is the constant coefficient [C.num / C.den],
    truncated towards zero. *)
Theorem main_interpolates_shares (data : list entry) (ys : list Z) :
  decoded data ys ->
  exists coeff,
    main_coeff data (length ys) = OK coeff
    /\ wf_vector (length ys) coeff
    /\ (forall t y, ys !! t = Some y ->
          peval (qval <$> coeff) (zq (Z.of_nat (S t))) = zq y)
    /\ (forall p : list Qc,
          length p = length ys ->
          (forall t y, ys !! t = Some y -> peval p (zq (Z.of_nat (S t))) = zq y) ->
          p = qval <$> coeff)
    /\ (0 < length ys ->
        exists C, coeff !! 0 = Some C
                  /\ qval C = peval (qval <$> coeff) (zq 0)
                  /\ main data (length ys) = OK (Z.quot (num C) (den C))).
Proof.
  intros Hdec.
  destruct (main_coeff_decoded ys data Hdec) as (coeff & Hcoeff & Hwf & Hsat).
  pose proof Hwf as [Hlen Hcan].
  exists coeff. split; [exact Hcoeff|]. split; [exact Hwf|]. split; [|split].
  - rewrite (fmap_qval_seq ys coeff Hlen). apply system_sat_iff. exact Hsat.
  - intros p Hp Hval. rewrite (fmap_qval_seq ys coeff Hlen), (list_as_seq ys p Hp).
    apply list_fmap_ext. intros i j Hj. apply lookup_seq in Hj as [-> Hj]. cbn [Nat.add].
    refine (kernel_trivial_unique (length ys) _ _ (fun j => default (Q2Qc 0) (p !! j))
              (vval coeff) (system_kernel_trivial ys) _ Hsat i Hj).
    apply system_sat_iff. rewrite <- (list_as_seq ys p Hp). exact Hval.
  - intros Hk. destruct (lookup_lt_is_Some_2 coeff 0 ltac:(lia)) as [C HC].
    exists C. split; [exact HC|]. split.
    + destruct coeff as [|C' rest]; [discriminate|]. injection HC as ->.
      cbn [fmap list_fmap peval]. rewrite zq_0. ring.
    + unfold main. rewrite Hcoeff, bind_OK, (read_Some _ _ _ HC), bind_OK.
      pose proof (Forall_lookup_1 _ _ _ _ Hcan HC) as [Hpos _].
      destruct (Z.eqb_spec (den C) 0) as [Hz|_]; [lia|reflexivity].
Qed.

Lemma main_interpolates_shares_witness :
  exists coeff,
    main_coeff [Entry (JsInt 10) "1"; Entry (JsInt 2) "111"] (length [1; 7]%Z) = OK coeff
    /\ wf_vector (length [1; 7]%Z) coeff
    /\ (forall t y, [1; 7]%Z !! t = Some y ->
          peval (qval <$> coeff) (zq (Z.of_nat (S t))) = zq y)
    /\ (forall p : list Qc,
          length p = length [1; 7]%Z ->
          (forall t y, [1; 7]%Z !! t = Some y -> peval p (zq (Z.of_nat (S t))) = zq y) ->
          p = qval <$> coeff)
    /\ (0 < length [1; 7]%Z ->
        exists C, coeff !! 0 = Some C
                  /\ qval C = peval (qval <$> coeff) (zq 0)
                  /\ main [Entry (JsInt 10) "1"; Entry (JsInt 2) "111"] (length [1; 7]%Z)
                     = OK (Z.quot (num C) (den C))).
Proof.
  apply (main_interpolates_shares [Entry (JsInt 10) "1"; Entry (JsInt 2) "111"] [1; 7]%Z).
  intros [|[|t]] y Hy; cbn in Hy; try discriminate; injection Hy as <-;
    eexists; (split; [reflexivity|reflexivity]).
Defined.

(** X17. [main] of index2.js stops at the first key in 1..k that it cannot
    decode: when the entries under the keys before it decode, [main] raises
    the error of that key, a TypeError when the entry is missing and the
    error of [parseInBase] (invalid digit, or the RangeError of [BigInt] on
    a base that is not an integer) otherwise; no system is built. *)
Theorem main_fails_on_first_bad_share (data : list entry) (ys : list Z) (k : nat) (e : error) :
  decoded data ys -> length ys < k ->
  match data !! length ys with
  | None => e = TypeError
  | Some en => parseInBase (value en) (base en) = Throw e
  end ->
  main_coeff data k = Throw e /\ main data k = Throw e.
Proof.
  intros Hdec Hk Hbad.
  assert (H : main_coeff data k = Throw e).
  { unfold main_coeff. rewrite (main_points_fail data ys e Hdec Hbad k 1 []) by lia.
    reflexivity. }
  split; [exact H|]. unfold main. rewrite H. reflexivity.
Qed.

Lemma main_fails_on_first_bad_share_witness :
  main_coeff [Entry (JsInt 10) "1"; Entry (JsInt 2) "1-1"] 3 = Throw (InvalidDigit "-")
  /\ main [Entry (JsInt 10) "1"; Entry (JsInt 2) "1-1"] 3 = Throw (InvalidDigit "-").
Proof.
  apply (main_fails_on_first_bad_share _ [1%Z]).
  - intros [|t] y Hy; cbn in Hy; try discriminate; injection Hy as <-.
    eexists; (split; [reflexivity|reflexivity]).
  - cbn. lia.
  - reflexivity.
Defined.

(** X18. [main] of index2.js reads the entries under the keys 1..k only:
    entries under later keys never change its outcome; and with [k = 0] it
    fails with a TypeError on every input, reading the field [num] of the
    missing first coefficient. *)
Theorem main_reads_first_k_entries (data more : list entry) (k : nat) :
  (k <= length data ->
   main_coeff (data ++ more) k = main_coeff data k /\ main (data ++ more) k = main data k)
  /\ main data 0 = Throw TypeError.
Proof.
  split; [|reflexivity].
  intros Hk.
  assert (H : main_coeff (data ++ more) k = main_coeff data k).
  { unfold main_coeff. rewrite main_points_app by lia. reflexivity. }
  split; [exact H|]. unfold main. rewrite H. reflexivity.
Qed.


(** ** The approximate solver: the outcomes of a call *)

Lemma run_bind_OK {A B} (m : Approx.io A) (f : A -> Approx.io B) h a h' :
  Approx.run m h = (OK a, h') -> Approx.run (m ≫= f) h = Approx.run (f a) h'.
Proof. intros H. unfold mbind, Approx.io_bind. cbn [Approx.run]. rewrite H. reflexivity. Qed.

(** One step of a computation whose first action is known to return. *)
Ltac step H := rewrite (run_bind_OK _ _ _ _ _ H).

Section Outcome.
Import Approx.

Lemma run_bind_Throw {A B} (m : io A) (f : A -> io B) h e h' :
  run m h = (Throw e, h') -> run (m ≫= f) h = (Throw e, h').
Proof. intros H. unfold mbind, io_bind. cbn [run]. rewrite H. reflexivity. Qed.

Lemma run_ret_bind {A B} (a : A) (f : A -> io B) h : run (mret a ≫= f) h = run (f a) h.
Proof. reflexivity. Qed.

Lemma row_at_Some h r v : row_at h r = Some v <-> h !! r = Some (Nums v).
Proof.
  unfold row_at. destruct (h !! r) as [[w|w]|]; split; intros H;
    try discriminate; injection H as ->; reflexivity.
Qed.

Lemma row_at_app h ext r v : row_at h r = Some v -> row_at (h ++ ext) r = Some v.
Proof.
  rewrite !row_at_Some. intros H. rewrite lookup_app_l; [exact H|].
  apply lookup_lt_Some in H. exact H.
Qed.

Lemma row_at_insert h a w r :
  is_Some (row_at h r) -> is_Some (row_at (<[a:=Nums w]> h) r).
Proof.
  intros [v Hv]. apply row_at_Some in Hv. destruct (Nat.eq_dec a r) as [->|Hne].
  - exists w. apply row_at_Some. apply list_lookup_insert_eq.
    apply lookup_lt_Some in Hv. exact Hv.
  - exists v. apply row_at_Some. rewrite list_lookup_insert_ne by exact Hne. exact Hv.
Qed.

Lemma run_get_nums h a v : row_at h a = Some v -> run (get_nums a) h = (OK v, h).
Proof. intros H. apply row_at_Some in H. unfold get_nums. cbn [run]. rewrite H. reflexivity. Qed.

Lemma run_load_num h a i v :
  row_at h a = Some v -> run (load_num a i) h = (OK (default nan (v !! i)), h).
Proof.
  intros H. unfold load_num. rewrite (run_bind_OK _ _ _ _ _ (run_get_nums h a v H)).
  reflexivity.
Qed.

Lemma run_store_num h a i x v :
  row_at h a = Some v -> run (store_num a i x) h = (OK tt, <[a:=Nums (write v i x)]> h).
Proof.
  intros H. unfold store_num. rewrite (run_bind_OK _ _ _ _ _ (run_get_nums h a v H)).
  reflexivity.
Qed.

Lemma run_get_refs h M rows : h !! M = Some (Refs rows) -> run (get_refs M) h = (OK rows, h).
Proof. intros H. unfold get_refs. cbn [run]. rewrite H. reflexivity. Qed.

Lemma run_load_ref h M rows i r :
  h !! M = Some (Refs rows) -> rows !! i = Some r -> run (load_ref M i) h = (OK r, h).
Proof.
  intros HM Hr. unfold load_ref. rewrite (run_bind_OK _ _ _ _ _ (run_get_refs h M rows HM)).
  rewrite Hr. reflexivity.
Qed.

Lemma run_store_ref h M rows i r :
  h !! M = Some (Refs rows) ->
  run (store_ref M i r) h = (OK tt, <[M:=Refs (<[i:=r]> rows)]> h).
Proof.
  intros HM. unfold store_ref. rewrite (run_bind_OK _ _ _ _ _ (run_get_refs h M rows HM)).
  reflexivity.
Qed.

Lemma row_at_insert_eq h a w : a < length h -> row_at (<[a:=Nums w]> h) a = Some w.
Proof. intros Ha. apply row_at_Some. apply list_lookup_insert_eq. exact Ha. Qed.

Lemma row_at_lt h a v : row_at h a = Some v -> a < length h.
Proof. intros H. apply row_at_Some in H. apply lookup_lt_Some in H. exact H. Qed.

Lemma write_length v i x : i < length v -> length (write v i x) = length v.
Proof.
  intros Hi. unfold write. destruct (Nat.ltb_spec i (length v)) as [_|?]; [|lia].
  apply length_insert.
Qed.

Variables (n : nat) (M y : loc).
Local Abbreviation ok := (shape n M y).

Lemma shape_row h i :
  ok h -> i < n ->
  exists r v, run (load_ref M i) h = (OK r, h) /\ row_at h r = Some v.
Proof.
  intros [(rows & HM & Hlen & Hrows) _] Hi.
  destruct (lookup_lt_is_Some_2 rows i ltac:(lia)) as [r Hr].
  destruct (Forall_lookup_1 _ _ _ _ Hrows Hr) as [v Hv].
  exists r, v. split; [exact (run_load_ref h M rows i r HM Hr)|exact Hv].
Qed.

Lemma shape_store_num h a v i x :
  ok h -> row_at h a = Some v -> ok (<[a:=Nums (write v i x)]> h).
Proof.
  intros [(rows & HM & Hlen & Hrows) Hy] Ha. split.
  - exists rows. split; [|split; [exact Hlen|]].
    + rewrite list_lookup_insert_ne; [exact HM|].
      intros ->. apply row_at_Some in Ha. congruence.
    + eapply Forall_impl; [exact Hrows|]. intros r Hr. apply row_at_insert. exact Hr.
  - apply row_at_insert. exact Hy.
Qed.

Lemma shape_store_ref h rows i r :
  ok h -> h !! M = Some (Refs rows) -> is_Some (row_at h r) ->
  ok (<[M:=Refs (<[i:=r]> rows)]> h).
Proof.
  intros [(rows' & HM' & Hlen & Hrows) Hy] HM Hr.
  rewrite HM in HM'. injection HM' as <-.
  assert (Hkeep : forall r', is_Some (row_at h r') ->
                              is_Some (row_at (<[M:=Refs (<[i:=r]> rows)]> h) r')).
  { intros r' [v Hv]. exists v. apply row_at_Some in Hv. apply row_at_Some.
    rewrite list_lookup_insert_ne; [exact Hv|]. intros ->. congruence. }
  split.
  - exists (<[i:=r]> rows). split; [|split].
    + apply list_lookup_insert_eq. apply lookup_lt_Some in HM. exact HM.
    + rewrite length_insert. exact Hlen.
    + apply Forall_insert; [|apply Hkeep; exact Hr].
      eapply Forall_impl; [exact Hrows|]. exact Hkeep.
  - apply Hkeep. exact Hy.
Qed.

Lemma row_at_insert_refs h rows rows' r :
  h !! M = Some (Refs rows) -> is_Some (row_at h r) ->
  is_Some (row_at (<[M:=Refs rows']> h) r).
Proof.
  intros HM [v Hv]. exists v. apply row_at_Some in Hv. apply row_at_Some.
  rewrite list_lookup_insert_ne; [exact Hv|]. intros ->. congruence.
Qed.

Lemma shape_app h ext : ok h -> ok (h ++ ext).
Proof.
  intros [(rows & HM & Hlen & Hrows) [vy Hy]]. split.
  - exists rows. split; [|split; [exact Hlen|]].
    + rewrite lookup_app_l; [exact HM|]. apply lookup_lt_Some in HM. exact HM.
    + eapply Forall_impl; [exact Hrows|]. intros r [v Hv]. exists v. apply row_at_app. exact Hv.
  - exists vy. apply row_at_app. exact Hy.
Qed.

(** Lines 75-81: the search reads, and its result is a row of [M]. *)
Lemma run_max_row h k :
  ok h ->
  forall cnt r maxRow maxVal,
    r + cnt <= n -> maxRow < n ->
    exists mr mv, run (max_row M k r cnt maxRow maxVal) h = (OK (mr, mv), h) /\ mr < n.
Proof.
  intros Hok. induction cnt as [|cnt IH]; intros r maxRow maxVal Hr Hm; cbn [max_row].
  - exists maxRow, maxVal. split; [reflexivity|exact Hm].
  - destruct (shape_row h r Hok ltac:(lia)) as (ri & v & Hri & Hv).
    step Hri. step (run_load_num h ri k v Hv). cbv zeta.
    destruct (PrimFloat.ltb _ _); apply IH; lia.
Qed.

Lemma run_elim_cols factor i k :
  i < n -> k < n ->
  forall cnt j h, ok h ->
    exists h', run (elim_cols M factor i k j cnt) h = (OK tt, h') /\ ok h'.
Proof.
  intros Hi Hk. induction cnt as [|cnt IH]; intros j h Hok; cbn [elim_cols].
  - exists h. split; [reflexivity|exact Hok].
  - destruct (shape_row h i Hok Hi) as (ri & vi & Hri & Hvi).
    destruct (shape_row h k Hok Hk) as (rk & vk & Hrk & Hvk).
    step Hri. step (run_load_num h ri j vi Hvi).
    step Hrk. step (run_load_num h rk j vk Hvk).
    step (run_store_num h ri j (default nan (vi !! j) - factor * default nan (vk !! j)) vi Hvi).
    apply IH. apply shape_store_num; assumption.
Qed.

Lemma run_elim_rows k :
  k < n ->
  forall cnt i h, i + cnt <= n -> ok h ->
    exists h', run (elim_rows n M y k i cnt) h = (OK tt, h') /\ ok h'.
Proof.
  intros Hk. induction cnt as [|cnt IH]; intros i h Hi Hok; cbn [elim_rows].
  - exists h. split; [reflexivity|exact Hok].
  - destruct (shape_row h i Hok ltac:(lia)) as (ri & vi & Hri & Hvi).
    destruct (shape_row h k Hok Hk) as (rk & vk & Hrk & Hvk).
    step Hri. step (run_load_num h ri k vi Hvi).
    step Hrk. step (run_load_num h rk k vk Hvk). cbv zeta.
    set (factor := (default nan (vi !! k) / default nan (vk !! k))%float).
    destruct (run_elim_cols factor i k ltac:(lia) Hk (n - k) k h Hok) as (h1 & Hrun1 & Hok1).
    step Hrun1. pose proof Hok1 as [_ [vy Hvy]].
    step (run_load_num h1 y i vy Hvy). step (run_load_num h1 y k vy Hvy).
    step (run_store_num h1 y i (default nan (vy !! i) - factor * default nan (vy !! k)) vy Hvy).
    apply IH; [lia|]. apply shape_store_num; assumption.
Qed.

(** Lines 83-89: the exchange of the rows [k] and [maxRow], and of the
    entries of [y]. *)
Lemma run_exchange h k mr :
  k < n -> mr < n -> ok h ->
  exists h',
    run (rm ← load_ref M mr;
         rk ← load_ref M k;
         store_ref M k rm;;
         store_ref M mr rk;;
         ym ← load_num y mr;
         yk ← load_num y k;
         store_num y k ym;;
         store_num y mr yk) h = (OK tt, h') /\ ok h'.
Proof.
  intros Hk Hmr Hok. pose proof Hok as [(rows & HM & Hlen & Hrows) _].
  destruct (lookup_lt_is_Some_2 rows mr ltac:(lia)) as [rm Hrm].
  destruct (lookup_lt_is_Some_2 rows k ltac:(lia)) as [rk Hrk].
  pose proof (Forall_lookup_1 _ _ _ _ Hrows Hrm) as Hnm.
  pose proof (Forall_lookup_1 _ _ _ _ Hrows Hrk) as Hnk.
  step (run_load_ref h M rows mr rm HM Hrm). step (run_load_ref h M rows k rk HM Hrk).
  step (run_store_ref h M rows k rm HM).
  set (h1 := <[M:=Refs (<[k:=rm]> rows)]> h).
  assert (HM1 : h1 !! M = Some (Refs (<[k:=rm]> rows))).
  { apply list_lookup_insert_eq. apply lookup_lt_Some in HM. exact HM. }
  assert (Hok1 : ok h1) by (apply shape_store_ref; assumption).
  step (run_store_ref h1 M _ mr rk HM1).
  set (h2 := <[M:=Refs (<[mr:=rk]> (<[k:=rm]> rows))]> h1).
  assert (Hok2 : ok h2).
  { apply shape_store_ref; [exact Hok1|exact HM1|].
    apply (row_at_insert_refs h rows); assumption. }
  pose proof Hok2 as [_ [vy Hvy]].
  step (run_load_num h2 y mr vy Hvy). step (run_load_num h2 y k vy Hvy).
  step (run_store_num h2 y k (default nan (vy !! mr)) vy Hvy).
  set (vy1 := write vy k (default nan (vy !! mr))).
  assert (Hvy1 : row_at (<[y:=Nums vy1]> h2) y = Some vy1).
  { apply row_at_insert_eq. exact (row_at_lt _ _ _ Hvy). }
  rewrite (run_store_num _ y mr (default nan (vy !! k)) vy1 Hvy1).
  eexists. split; [reflexivity|].
  apply shape_store_num; [|exact Hvy1]. apply shape_store_num; assumption.
Qed.

(** Lines 71-99: a pass either ends with the arrays in place, or raises the
    singular-matrix error. *)
Lemma run_forward_step k h :
  k < n -> ok h ->
  (exists h', run (forward_step n M y k) h = (OK tt, h') /\ ok h')
  \/ (exists h', run (forward_step n M y k) h = (Throw SingularMatrix, h')).
Proof.
  intros Hk Hok. unfold forward_step.
  destruct (shape_row h k Hok Hk) as (rk & vk & Hrk & Hvk).
  step Hrk. step (run_load_num h rk k vk Hvk).
  destruct (run_max_row h k Hok (n - S k) (S k) k (abs (default nan (vk !! k)))
              ltac:(lia) Hk) as (mr & mv & Hmax & Hmr).
  step Hmax. cbv zeta. cbn [fst snd].
  destruct (PrimFloat.eqb mv 0); cbv iota.
  - right. exists h. apply run_bind_Throw. reflexivity.
  - rewrite run_ret_bind.
    destruct (Nat.eqb mr k); cbv iota.
    + rewrite run_ret_bind. left.
      apply run_elim_rows; [exact Hk|lia|exact Hok].
    + destruct (run_exchange h k mr Hk Hmr Hok) as (h1 & Hrun1 & Hok1).
      step Hrun1. left. apply run_elim_rows; [exact Hk|lia|exact Hok1].
Qed.

Lemma run_forward :
  forall cnt k h, k + cnt <= n -> ok h ->
    (exists h', run (forward n M y k cnt) h = (OK tt, h') /\ ok h')
    \/ (exists h', run (forward n M y k cnt) h = (Throw SingularMatrix, h')).
Proof.
  induction cnt as [|cnt IH]; intros k h Hk Hok; cbn [forward].
  - left. exists h. split; [reflexivity|exact Hok].
  - destruct (run_forward_step k h ltac:(lia) Hok) as [(h1 & H1 & Hok1)|(h1 & H1)].
    + step H1. apply IH; [lia|exact Hok1].
    + right. exists h1. apply run_bind_Throw. exact H1.
Qed.

Lemma run_back_sum x vx h i :
  ok h -> row_at h x = Some vx -> i < n ->
  forall cnt j sum, exists s, run (back_sum M x i j cnt sum) h = (OK s, h).
Proof.
  intros Hok Hx Hi. induction cnt as [|cnt IH]; intros j sum; cbn [back_sum].
  - exists sum. reflexivity.
  - destruct (shape_row h i Hok Hi) as (ri & vi & Hri & Hvi).
    step Hri. step (run_load_num h ri j vi Hvi). step (run_load_num h x j vx Hx).
    apply IH.
Qed.

(** Lines 103-107: back substitution fills the [n] entries of [x] and
    never raises. *)
Lemma run_back_loop x :
  forall cnt h vx,
    cnt <= n -> ok h -> row_at h x = Some vx -> length vx = n ->
    exists h' vx',
      run (back_loop n M y x cnt) h = (OK tt, h') /\ row_at h' x = Some vx' /\ length vx' = n.
Proof.
  induction cnt as [|i IH]; intros h vx Hcnt Hok Hx Hlen; cbn [back_loop].
  - exists h, vx. split; [reflexivity|]. split; assumption.
  - destruct (run_back_sum x vx h i Hok Hx ltac:(lia) (n - S i) (S i) 0%float) as [s Hs].
    step Hs. pose proof Hok as [_ [vy Hvy]].
    step (run_load_num h y i vy Hvy).
    destruct (shape_row h i Hok ltac:(lia)) as (ri & vi & Hri & Hvi).
    step Hri. step (run_load_num h ri i vi Hvi).
    set (xi := ((default nan (vy !! i) - s) / default nan (vi !! i))%float).
    step (run_store_num h x i xi vx Hx).
    apply (IH _ (write vx i xi)); [lia| | |].
    + apply shape_store_num; assumption.
    + apply row_at_insert_eq. exact (row_at_lt _ _ _ Hx).
    + rewrite write_length by lia. exact Hlen.
Qed.

End Outcome.

Section Call.
Import Approx.

(** Line 68: the copies of the rows are appended to the store, in order. *)
Lemma run_copy_rows rows :
  forall h vs,
    Forall2 (fun r v => row_at h r = Some v) rows vs ->
    run (copy_rows rows) h = (OK (seq (length h) (length rows)), h ++ (Nums <$> vs)).
Proof.
  induction rows as [|r rows IH]; intros h vs HF;
    inversion HF as [|? v ? vs' Hr HF']; subst; cbn [copy_rows].
  - cbn. rewrite app_nil_r. reflexivity.
  - step (run_get_nums h r v Hr).
    rewrite (run_bind_OK (alloc (Nums v)) _ h (length h) (h ++ [Nums v]) eq_refl).
    assert (HF'' : Forall2 (fun r w => row_at (h ++ [Nums v]) r = Some w) rows vs').
    { eapply Forall2_impl; [exact HF'|]. intros r' w Hw. apply row_at_app. exact Hw. }
    step (IH _ _ HF''). cbn. rewrite length_app, <- app_assoc. cbn.
    rewrite Nat.add_1_r. reflexivity.
Qed.

Variables (h : heap) (A b : loc) (rowsA : list loc) (Mtx : list (list float)) (vb : list float).
Hypothesis HA : h !! A = Some (Refs rowsA).
Hypothesis Hrows : Forall2 (fun r v => row_at h r = Some v) rowsA Mtx.
Hypothesis Hb : row_at h b = Some vb.

Local Abbreviation n := (length rowsA).
Local Abbreviation M := (length h + n).
Local Abbreviation y := (S M).
Local Abbreviation h3 := (h ++ (Nums <$> Mtx) ++ [Refs (seq (length h) n); Nums vb]).

Lemma Mtx_length : length Mtx = n.
Proof. symmetry. exact (Forall2_length _ _ _ Hrows). Qed.

(** Lines 66-69: the store when the elimination starts. *)
Lemma run_solveLinearSystem_copies :
  run (solveLinearSystem A b) h
  = run (forward n M y 0 n;;
         x ← alloc (Nums (replicate n 0%float));
         back_loop n M y x n;;
         mret x) h3.
Proof.
  unfold solveLinearSystem. step (run_get_refs h A rowsA HA). cbv zeta.
  step (run_copy_rows rowsA h Mtx Hrows).
  set (h1 := h ++ (Nums <$> Mtx)).
  assert (Hlen1 : length h1 = M).
  { unfold h1. rewrite length_app, length_fmap, Mtx_length. reflexivity. }
  rewrite (run_bind_OK (alloc (Refs (seq (length h) n))) _ h1 (length h1)
             (h1 ++ [Refs (seq (length h) n)]) eq_refl).
  set (h2 := h1 ++ [Refs (seq (length h) n)]).
  assert (Hb2 : row_at h2 b = Some vb) by (unfold h2, h1; apply row_at_app, row_at_app, Hb).
  step (run_get_nums h2 b vb Hb2).
  rewrite (run_bind_OK (alloc (Nums vb)) _ h2 (length h2) (h2 ++ [Nums vb]) eq_refl).
  assert (Hlen2 : length h2 = y).
  { unfold h2. rewrite length_app, Hlen1. cbn. lia. }
  rewrite Hlen1, Hlen2. unfold h2, h1. rewrite <- !app_assoc. reflexivity.
Qed.

Lemma h3_matrix : h3 !! M = Some (Refs (seq (length h) n)).
Proof.
  rewrite lookup_app_r by lia. rewrite lookup_app_r by (rewrite length_fmap, Mtx_length; lia).
  rewrite length_fmap, Mtx_length.
  replace (M - length h - n) with 0 by lia. reflexivity.
Qed.

Lemma h3_rhs : row_at h3 y = Some vb.
Proof.
  apply row_at_Some.
  rewrite lookup_app_r by lia. rewrite lookup_app_r by (rewrite length_fmap, Mtx_length; lia).
  rewrite length_fmap, Mtx_length.
  replace (y - length h - n) with 1 by lia. reflexivity.
Qed.

Lemma h3_row i v :
  Mtx !! i = Some v ->
  seq (length h) n !! i = Some (length h + i) /\ row_at h3 (length h + i) = Some v.
Proof.
  intros Hv. pose proof (lookup_lt_Some _ _ _ Hv) as Hi. rewrite Mtx_length in Hi. split.
  - apply lookup_seq. split; [reflexivity|exact Hi].
  - apply row_at_Some. rewrite lookup_app_r by lia.
    rewrite lookup_app_l by (rewrite length_fmap, Mtx_length; lia).
    replace (length h + i - length h) with i by lia.
    rewrite list_lookup_fmap, Hv. reflexivity.
Qed.

Lemma h3_shape : shape n M y h3.
Proof.
  split; [|exists vb; exact h3_rhs].
  exists (seq (length h) n). split; [exact h3_matrix|]. split; [apply length_seq|].
  apply Forall_forall. intros r Hr. apply elem_of_seq in Hr.
  destruct (lookup_lt_is_Some_2 Mtx (r - length h) ltac:(rewrite Mtx_length; lia)) as [v Hv].
  exists v. destruct (h3_row _ _ Hv) as [_ H].
  replace (length h + (r - length h)) with r in H by lia. exact H.
Qed.

(** The two outcomes of a call. *)
Lemma run_solveLinearSystem :
  (exists x h' xs, run (solveLinearSystem A b) h = (OK x, h')
                   /\ row_at h' x = Some xs /\ length xs = n)
  \/ (exists h', run (solveLinearSystem A b) h = (Throw SingularMatrix, h')).
Proof.
  rewrite run_solveLinearSystem_copies.
  destruct (run_forward n M y n 0 h3 ltac:(lia) h3_shape) as [(h4 & H4 & Hok4)|(h4 & H4)].
  - left. step H4.
    rewrite (run_bind_OK (alloc (Nums (replicate n 0%float))) _ h4 (length h4)
               (h4 ++ [Nums (replicate n 0%float)]) eq_refl).
    destruct (run_back_loop n M y (length h4) n (h4 ++ [Nums (replicate n 0%float)])
                (replicate n 0%float) ltac:(lia) (shape_app n M y h4 _ Hok4))
      as (h5 & xs & H5 & Hx & Hlen).
    + apply row_at_Some. rewrite lookup_app_r by lia. rewrite Nat.sub_diag. reflexivity.
    + apply length_replicate.
    + step H5. exists (length h4), h5, xs. split; [reflexivity|]. split; assumption.
  - right. exists h4. apply run_bind_Throw. exact H4.
Qed.

End Call.


(** ** The approximate solver: a zero column, and the callers *)

Section ZeroColumn.
Import Approx.

Lemma is_zero_SF x : is_zero x -> exists s, Prim2SF x = S754_zero s.
Proof.
  unfold is_zero. rewrite FloatAxioms.eqb_spec.
  change (Prim2SF 0) with (S754_zero false).
  destruct (Prim2SF x) as [s|s| |s m e]; cbn; intros H;
    [eauto|destruct s; discriminate|discriminate|destruct s; discriminate].
Qed.

Lemma abs_zero x : is_zero x -> Prim2SF (abs x) = S754_zero false.
Proof. intros H. destruct (is_zero_SF x H) as [s Hs]. rewrite abs_spec, Hs. reflexivity. Qed.

Lemma ltb_zero m x : Prim2SF m = S754_zero false -> is_zero x -> PrimFloat.ltb m (abs x) = false.
Proof. intros Hm Hx. rewrite ltb_spec, (abs_zero x Hx), Hm. reflexivity. Qed.

Lemma eqb_zero m : Prim2SF m = S754_zero false -> PrimFloat.eqb m 0 = true.
Proof. intros Hm. rewrite FloatAxioms.eqb_spec, Hm. reflexivity. Qed.

(** Lines 75-81 on a column of zeros: the maximum stays at zero. *)
Lemma run_max_row_zero h M rows k n :
  h !! M = Some (Refs rows) ->
  (forall r, r < n -> exists ri v, rows !! r = Some ri /\ row_at h ri = Some v
                                   /\ is_zero (default nan (v !! k))) ->
  forall cnt r maxRow maxVal,
    r + cnt <= n -> Prim2SF maxVal = S754_zero false ->
    run (max_row M k r cnt maxRow maxVal) h = (OK (maxRow, maxVal), h).
Proof.
  intros HM Hcol. induction cnt as [|cnt IH]; intros r maxRow maxVal Hr Hm; cbn [max_row].
  - reflexivity.
  - destruct (Hcol r ltac:(lia)) as (ri & v & Hri & Hv & Hz).
    step (run_load_ref h M rows r ri HM Hri). step (run_load_num h ri k v Hv). cbv zeta.
    rewrite (ltb_zero maxVal _ Hm Hz). apply IH; [lia|exact Hm].
Qed.

Lemma forward_first_throw n M y cnt h e h' :
  0 < cnt ->
  run (forward_step n M y 0) h = (Throw e, h') ->
  run (forward n M y 0 cnt) h = (Throw e, h').
Proof.
  intros Hcnt H. destruct cnt as [|cnt]; [lia|]. cbn [forward].
  apply run_bind_Throw. exact H.
Qed.

Lemma run_solveLinearSystem_zero_column h A b rowsA Mtx vb :
  h !! A = Some (Refs rowsA) ->
  Forall2 (fun r v => row_at h r = Some v) rowsA Mtx ->
  row_at h b = Some vb ->
  Mtx <> [] -> Forall (fun row => is_zero (default nan (row !! 0))) Mtx ->
  exists h', run (solveLinearSystem A b) h = (Throw SingularMatrix, h').
Proof.
  intros HA Hrows Hb Hne Hzero.
  rewrite (run_solveLinearSystem_copies h A b rowsA Mtx vb HA Hrows Hb).
  pose proof (Mtx_length h rowsA Mtx Hrows) as Hlen.
  set (n := length rowsA) in *. set (M := length h + n).
  set (h3 := h ++ (Nums <$> Mtx) ++ [Refs (seq (length h) n); Nums vb]).
  assert (Hn : 0 < n) by (destruct Mtx; [congruence|cbn in Hlen; lia]).
  assert (Hcol : forall r, r < n ->
            exists ri v, seq (length h) n !! r = Some ri /\ row_at h3 ri = Some v
                         /\ is_zero (default nan (v !! 0))).
  { intros r Hr. destruct (lookup_lt_is_Some_2 Mtx r ltac:(lia)) as [v Hv].
    destruct (h3_row h rowsA Mtx vb Hrows r v Hv) as [H1 H2].
    exists (length h + r), v. split; [exact H1|]. split; [exact H2|].
    exact (Forall_lookup_1 _ _ _ _ Hzero Hv). }
  pose proof (h3_matrix h rowsA Mtx vb Hrows) as HM. fold n M h3 in HM.
  destruct (Hcol 0 ltac:(lia)) as (r0 & v0 & Hr0 & Hv0 & Hz0).
  eexists. apply run_bind_Throw. apply forward_first_throw; [exact Hn|].
  unfold forward_step.
  step (run_load_ref h3 M _ 0 r0 HM Hr0). step (run_load_num h3 r0 0 v0 Hv0).
  step (run_max_row_zero h3 M _ 0 n HM Hcol (n - 1) 1 0
          (abs (default nan (v0 !! 0))) ltac:(lia) (abs_zero _ Hz0)).
  cbv zeta. cbn [fst snd]. rewrite (eqb_zero _ (abs_zero _ Hz0)).
  apply run_bind_Throw. reflexivity.
Qed.

Lemma matrix_at_Some h A Mtx :
  matrix_at h A = Some Mtx ->
  exists rowsA, h !! A = Some (Refs rowsA)
                /\ Forall2 (fun r v => row_at h r = Some v) rowsA Mtx.
Proof.
  unfold matrix_at. destruct (h !! A) as [[v|rows]|]; try discriminate.
  intros H. exists rows. split; [reflexivity|]. apply mapM_Some. exact H.
Qed.

Lemma store_of_matrix A b : matrix_at (store_of A b) (length A) = Some A.
Proof.
  unfold matrix_at, store_of.
  rewrite lookup_app_r by (rewrite length_map; lia). rewrite length_map, Nat.sub_diag.
  cbn [lookup list_lookup]. apply mapM_Some. apply Forall2_same_length_lookup_2.
  - apply length_seq.
  - intros i r v Hr Hv. apply lookup_seq in Hr as [-> Hi]. cbn [Nat.add].
    apply row_at_Some. rewrite lookup_app_l by (rewrite length_map; lia).
    change (map Nums A) with (Nums <$> A). rewrite list_lookup_fmap, Hv. reflexivity.
Qed.

Lemma store_of_rhs A b : row_at (store_of A b) (S (length A)) = Some b.
Proof.
  apply row_at_Some. unfold store_of.
  rewrite lookup_app_r by (rewrite length_map; lia). rewrite length_map.
  replace (S (length A) - length A) with 1 by lia. reflexivity.
Qed.

(** The two outcomes of [solveLinearSystem] on fresh arrays. *)
Lemma solveLinearSystem_on_cases A b :
  (exists xs, solveLinearSystem_on A b = OK xs /\ length xs = length A)
  \/ solveLinearSystem_on A b = Throw SingularMatrix.
Proof.
  destruct (matrix_at_Some _ _ _ (store_of_matrix A b)) as (rowsA & HA & Hrows).
  pose proof (Mtx_length _ _ _ Hrows) as Hlen.
  unfold solveLinearSystem_on.
  destruct (run_solveLinearSystem _ _ _ rowsA A b HA Hrows (store_of_rhs A b))
    as [(x & h' & xs & -> & Hx & Hxs)|(h' & ->)]; [|right; reflexivity].
  left. apply row_at_Some in Hx. rewrite Hx. exists xs. split; [reflexivity|lia].
Qed.

End ZeroColumn.

(** X19. On every store that holds a matrix at [A] (an array of arrays of
    Numbers, of any shape) and a vector at [b], a call of
    [solveLinearSystem] has two outcomes only: it returns an array of
    exactly [A.length] Numbers, or it raises the singular-matrix error; it
    raises no TypeError, whatever the lengths of the rows and of [b]. *)
Theorem solveLinearSystem_returns_or_singular (h : Approx.heap) (A b : Approx.loc)
    (Mtx : list (list float)) (vb : list float) :
  matrix_at h A = Some Mtx -> row_at h b = Some vb ->
  match Approx.run (Approx.solveLinearSystem A b) h with
  | (OK x, h') => exists xs, row_at h' x = Some xs /\ length xs = length Mtx
  | (Throw e, _) => e = SingularMatrix
  end.
Proof.
  intros HA Hb. destruct (matrix_at_Some h A Mtx HA) as (rowsA & HA' & Hrows).
  pose proof (Mtx_length _ _ _ Hrows) as Hlen.
  destruct (run_solveLinearSystem h A b rowsA Mtx vb HA' Hrows Hb)
    as [(x & h' & xs & -> & Hx & Hxs)|(h' & ->)]; [|reflexivity].
  exists xs. split; [exact Hx|lia].
Qed.

Lemma solveLinearSystem_returns_or_singular_witness :
  match Approx.run (Approx.solveLinearSystem 2 3)
          (Approx.store_of [[2; 1]; [1; 3]]%float [3; 5]%float) with
  | (OK x, h') => exists xs, row_at h' x = Some xs
                             /\ length xs = length [[2; 1]; [1; 3]]%float
  | (Throw e, _) => e = SingularMatrix
  end.
Proof.
  apply (solveLinearSystem_returns_or_singular _ 2 3 [[2; 1]; [1; 3]]%float [3; 5]%float);
    reflexivity.
Defined.

(** X20. [solveLinearSystem] reports a matrix whose first column is zero:
    when the matrix at [A] has at least one row and the first entry of
    every row is [0] or [-0], the call raises the singular-matrix error in
    its first pass, whatever the other entries and the vector [b]. *)
Theorem solveLinearSystem_zero_first_column (h : Approx.heap) (A b : Approx.loc)
    (Mtx : list (list float)) (vb : list float) :
  matrix_at h A = Some Mtx -> row_at h b = Some vb ->
  Mtx <> [] -> Forall (fun row => is_zero (default nan (row !! 0))) Mtx ->
  (Approx.run (Approx.solveLinearSystem A b) h).1 = Throw SingularMatrix.
Proof.
  intros HA Hb Hne Hzero. destruct (matrix_at_Some h A Mtx HA) as (rowsA & HA' & Hrows).
  destruct (run_solveLinearSystem_zero_column h A b rowsA Mtx vb HA' Hrows Hb Hne Hzero)
    as [h' ->].
  reflexivity.
Qed.

Lemma solveLinearSystem_zero_first_column_witness :
  (Approx.run (Approx.solveLinearSystem 2 3)
     (Approx.store_of [[0; 1]; [-0; 3]]%float [3; 5]%float)).1 = Throw SingularMatrix.
Proof.
  apply (solveLinearSystem_zero_first_column _ 2 3 [[0; 1]; [-0; 3]]%float [3; 5]%float).
  - reflexivity.
  - reflexivity.
  - discriminate.
  - forall_list; reflexivity.
Defined.


(** ** [buildSystem] and [main] of index.js at the bounds *)

Section Bounds.
Import Approx.

(** [buildSystem] reads the first [k] points only. *)
Lemma buildSystem_rows_take points k :
  forall cnt i A b,
    i + cnt <= k ->
    buildSystem_rows (take k points) k A b i cnt = buildSystem_rows points k A b i cnt.
Proof.
  induction cnt as [|cnt IH]; intros i A b Hi; [reflexivity|].
  cbn [buildSystem_rows]. unfold read. rewrite lookup_take_lt by lia.
  destruct (points !! i) as [p|]; [|reflexivity]. rewrite !bind_OK.
  destruct (A !! i) as [row0|]; [|reflexivity]. rewrite !bind_OK.
  apply IH. lia.
Qed.

(** With fewer than [k] points, the read of the first missing point
    raises. *)
Lemma buildSystem_rows_short points k :
  forall cnt i A b,
    length A = k -> i <= length points < i + cnt -> i + cnt <= k ->
    buildSystem_rows points k A b i cnt = Throw TypeError.
Proof.
  induction cnt as [|cnt IH]; intros i A b HA Hi Hk; [lia|].
  cbn [buildSystem_rows].
  destruct (points !! i) as [p|] eqn:Hp;
    [|unfold read; rewrite Hp; reflexivity].
  rewrite (read_Some points i p Hp), bind_OK. apply lookup_lt_Some in Hp.
  destruct (lookup_lt_is_Some_2 A i ltac:(lia)) as [row0 Hrow0].
  rewrite (read_Some A i row0 Hrow0), bind_OK.
  apply IH; [rewrite length_insert; exact HA|lia|lia].
Qed.

Lemma buildSystem_enough points degree :
  (0 <= degree + 1)%Z -> Z.to_nat (degree + 1) <= length points ->
  buildSystem points degree
  = OK ((fun p => vander_row_float (Z.to_nat (degree + 1)) (pt_x p))
          <$> take (Z.to_nat (degree + 1)) points,
        pt_y <$> take (Z.to_nat (degree + 1)) points).
Proof.
  intros Hk Hlen. unfold buildSystem.
  destruct (Z.ltb_spec (degree + 1) 0) as [?|_]; [lia|].
  set (k := Z.to_nat (degree + 1)) in *.
  rewrite <- buildSystem_rows_take by lia.
  rewrite (buildSystem_rows_spec (take k points) k k).
  - rewrite !take_0, drop_0. reflexivity.
  - rewrite length_take. lia.
  - apply length_replicate.
  - apply Forall_replicate. apply length_replicate.
  - apply length_replicate.
  - lia.
Qed.

Lemma slice_to_nonneg {A} (l : list A) (e : Z) :
  (0 <= e)%Z -> Index.slice_to l e = take (Z.to_nat e) l.
Proof. intros He. unfold Index.slice_to. destruct (Z.ltb_spec e 0); [lia|reflexivity]. Qed.

End Bounds.

(** X21. [buildSystem] at the bounds, for a degree with
    [degree + 1 < 2^32]: a degree below -1 raises the RangeError of
    [new Array]; with fewer than [degree + 1] points the read of the first
    missing point raises a TypeError; with at least [degree + 1] points the
    result is the Vandermonde system of the first [degree + 1] points, the
    others are not read. *)
Theorem buildSystem_bounds (points : list Approx.point) (degree : Z) :
  ((degree + 1 < 0)%Z -> Approx.buildSystem points degree = Throw RangeError)
  /\ ((0 <= degree + 1 < 2 ^ 32)%Z -> length points < Z.to_nat (degree + 1) ->
      Approx.buildSystem points degree = Throw TypeError)
  /\ ((0 <= degree + 1 < 2 ^ 32)%Z -> Z.to_nat (degree + 1) <= length points ->
      Approx.buildSystem points degree
      = OK ((fun p => vander_row_float (Z.to_nat (degree + 1)) (Approx.pt_x p))
              <$> take (Z.to_nat (degree + 1)) points,
            Approx.pt_y <$> take (Z.to_nat (degree + 1)) points)).
Proof.
  split; [|split].
  - intros Hk. unfold Approx.buildSystem.
    destruct (Z.ltb_spec (degree + 1) 0) as [_|?]; [reflexivity|lia].
  - intros Hk Hlen. unfold Approx.buildSystem.
    destruct (Z.ltb_spec (degree + 1) 0) as [?|_]; [lia|].
    apply buildSystem_rows_short; [apply length_replicate|lia|lia].
  - intros Hk Hlen. apply buildSystem_enough; lia.
Qed.

(** X22. [main] of index.js, from the points and the integer [k] that
    [parseInput] returns: with [1 <= k < 2^32] and at least [k] points (as
    [parseInput] ensures) it solves the Vandermonde system of the first [k]
    points, and either prints a Number, the first coefficient, or fails
    with the singular-matrix error; it raises no TypeError and no
    RangeError, and the points after the first [k] are not part of the
    system.  With a negative [k], which [parseInput] lets through, it fails
    with the RangeError of [new Array]. *)
Theorem index_main_outcome (points more : list Approx.point) (k : Z) :
  ((k < 0)%Z -> Index.main points k = Throw RangeError)
  /\ ((1 <= k < 2 ^ 32)%Z -> Z.to_nat k <= length points ->
      Index.main points k
      = (coeffs ← Approx.solveLinearSystem_on
                    ((fun p => vander_row_float (Z.to_nat k) (Approx.pt_x p))
                       <$> take (Z.to_nat k) points)
                    (Approx.pt_y <$> take (Z.to_nat k) points);
         OK (coeffs !! 0))
      /\ ((exists c, Index.main points k = OK (Some c))
          \/ Index.main points k = Throw SingularMatrix)
      /\ Index.main (points ++ more) k = Index.main points k).
Proof.
  split.
  - intros Hk. unfold Index.main, Approx.buildSystem.
    destruct (Z.ltb_spec (k - 1 + 1) 0) as [_|?]; [reflexivity|lia].
  - intros Hk Hlen.
    assert (Hmain : forall pts, Z.to_nat k <= length pts ->
              Index.main pts k
              = (coeffs ← Approx.solveLinearSystem_on
                            ((fun p => vander_row_float (Z.to_nat k) (Approx.pt_x p))
                               <$> take (Z.to_nat k) pts)
                            (Approx.pt_y <$> take (Z.to_nat k) pts);
                 OK (coeffs !! 0))).
    { intros pts Hpts. unfold Index.main. rewrite slice_to_nonneg by lia.
      rewrite buildSystem_enough; [|lia|rewrite length_take; lia].
      replace (k - 1 + 1)%Z with k by lia. rewrite bind_OK. cbn [fst snd].
      rewrite take_take, Nat.min_id. reflexivity. }
    split; [apply Hmain; exact Hlen|]. split.
    + rewrite (Hmain points Hlen).
      destruct (solveLinearSystem_on_cases
                  ((fun p => vander_row_float (Z.to_nat k) (Approx.pt_x p))
                     <$> take (Z.to_nat k) points)
                  (Approx.pt_y <$> take (Z.to_nat k) points)) as [(xs & Hx & Hxs)|Hx];
        rewrite Hx.
      * left. rewrite bind_OK. rewrite length_fmap, length_take in Hxs.
        destruct (lookup_lt_is_Some_2 xs 0 ltac:(lia)) as [c Hc]. exists c. rewrite Hc.
        reflexivity.
      * right. reflexivity.
    + rewrite (Hmain points Hlen), (Hmain (points ++ more)) by (rewrite length_app; lia).
      rewrite take_app_le by lia. reflexivity.
Qed.
